(** * neural_net.cpp: layers, activations and the network, embedded in Rocq

    The C++ code is a set of templates over a scalar type [S]
    ([template <class S>]).  The embedding keeps that parameter: every
    definition below works over a type [S] equipped with the arithmetic the
    templates use (class [Scalar]).  Statements about the structure of the
    computation are proved for every such [S], so also for [double].
    Two instances are given: [double_scalar], the binary64 numbers, which
    is what the program computes with; and [R_scalar], the real numbers,
    the exact arithmetic in which the formulas of the specification are
    read.  A statement proved over [R] is a statement about the formulas
    of the code; where [double] leaves them by more than rounding
    (underflow and overflow of [exp], the logarithm of 0) the statement
    carries the hypothesis that keeps it inside, and the runs at the end
    of the file show what [double] does outside.

    Conventions of the embedding:
    - [std::vector<S>] is [list S]; [operator[]] outside the bounds of a
      vector is undefined behaviour in C++ and is the error [None] here;
    - a method of [Layer] or [Network] is a function from the object's state to
      [option (result * new state)]; a loop that writes to one field or to
      a local variable passes that value along as its state;
    - [for] loops over an index are [loop] (upwards) and [loop_down]
      (downwards), the range-[for] over [_layers] is [for_each];
    - sizes of vectors and loop counters are [nat] (the [size_t] and [int]
      of the code, inside their ranges); the counter [size_t _sampleCount]
      is an [N] that wraps around at [2^64];
    - what [backward] writes to [std::cout] when [_verbose] is set is
      returned as a list of lines. *)

From Stdlib Require Import List Arith Lia Bool ZArith NArith Reals Lra.
From Stdlib Require Import Strings.Byte.
From Stdlib Require Import Floats Uint63.
Import ListNotations.

Set Implicit Arguments.

(** ** The scalar type of the templates *)

Class Scalar (S : Type) : Type := {
  s_zero : S;                 (* static_cast<S>(0) *)
  s_one : S;                  (* static_cast<S>(1) *)
  s_add : S -> S -> S;
  s_sub : S -> S -> S;
  s_mul : S -> S -> S;
  s_div : S -> S -> S;
  s_exp : S -> S;             (* std::exp *)
  s_log : S -> S;             (* std::log *)
  s_gt0 : S -> bool;          (* x > 0 *)
  s_of_size : N -> S          (* conversion of a size_t to S *)
}.

Declare Scope scalar_scope.
Delimit Scope scalar_scope with sc.
Infix "+" := s_add : scalar_scope.
Infix "-" := s_sub : scalar_scope.
Infix "*" := s_mul : scalar_scope.
Infix "/" := s_div : scalar_scope.

(** ** The error monad of out-of-bounds accesses *)

Definition bind {A B : Type} (m : option A) (k : A -> option B) : option B :=
  match m with
  | Some a => k a
  | None => None
  end.

Notation "x <- m ;; k" := (bind m (fun x => k))
  (at level 61, m at next level, right associativity).
Notation "' p <- m ;; k" := (bind m (fun p => k))
  (at level 61, p pattern, m at next level, right associativity).

(** ** Vectors and matrices with checked indexing *)

(** [v[i]] as a read *)
Definition vget {A : Type} (v : list A) (i : nat) : option A := nth_error v i.

Fixpoint replace_nth {A : Type} (v : list A) (i : nat) (x : A) : list A :=
  match v, i with
  | [], _ => []
  | _ :: t, O => x :: t
  | h :: t, S i' => h :: replace_nth t i' x
  end.

(** [v[i] = x] *)
Definition vset {A : Type} (v : list A) (i : nat) (x : A) : option (list A) :=
  if i <? length v then Some (replace_nth v i x) else None.

(** [m[i][j]] as a read *)
Definition mget {A : Type} (m : list (list A)) (i j : nat) : option A :=
  row <- vget m i ;; vget row j.

(** [m[i][j] = x] *)
Definition mset {A : Type} (m : list (list A)) (i j : nat) (x : A)
  : option (list (list A)) :=
  row <- vget m i ;;
  row' <- vset row j x ;;
  vset m i row'.

(** a matrix of [rows] rows of [cols] entries each *)
Definition shape {A : Type} (rows cols : nat) (m : list (list A)) : Prop :=
  length m = rows /\ Forall (fun r => length r = cols) m.

(** ** Loops *)

(** [for (int i = 0; i < n; i++) body(i)] *)
Fixpoint loop {St : Type} (n : nat) (body : nat -> St -> option St) (s : St)
  : option St :=
  match n with
  | O => Some s
  | S m => s' <- loop m body s ;; body m s'
  end.

(** [for (int l = n - 1; l >= 0; l--) body(l)] *)
Fixpoint loop_down {St : Type} (n : nat) (body : nat -> St -> option St)
  (s : St) : option St :=
  match n with
  | O => Some s
  | S m => s' <- body m s ;; loop_down m body s'
  end.

(** [for (auto &x : xs) f(x)], where [f] may change [x] and a local [a] *)
Fixpoint for_each {A E : Type} (f : A -> E -> option (A * E)) (a : A)
  (xs : list E) : option (A * list E) :=
  match xs with
  | [] => Some (a, [])
  | x :: rest =>
      '(a1, x') <- f a x ;;
      '(a2, rest') <- for_each f a1 rest ;;
      Some (a2, x' :: rest')
  end.

(** [std::accumulate(first, last, static_cast<S>(0))]: a left fold *)
Definition accumulate {S : Type} `{Scalar S} (v : list S) : S :=
  fold_left s_add v s_zero.

(** ** Random numbers *)

(** [RandomGenerator<double>]: [dist] is the sequence of numbers the
    generator will draw, [mt] the position in it; [rand] draws one. *)
Record RandomGenerator (S : Type) : Type := mkRandomGenerator {
  dist : nat -> S;
  mt : nat
}.

Definition rand {S : Type} (rg : RandomGenerator S)
  : S * RandomGenerator S :=
  (dist rg (mt rg), mkRandomGenerator (dist rg) (Datatypes.S (mt rg))).

(** ** Activations *)

(** the interface [Activation<S>] with its two virtual methods *)
Record Activation (S : Type) : Type := {
  activation : list S -> list S;
  gradient : list S -> list S
}.

Section Activations.
Context {S : Type} `{Scalar S}.
Local Open Scope scalar_scope.

Definition ReLuActivation : Activation S := {|
  activation input := map (fun x => if s_gt0 x then x else s_zero) input;
  gradient input := map (fun x => if s_gt0 x then s_one else s_zero) input
|}.

Definition sigmoid (x : S) : S := s_one / (s_one + s_exp x).

Definition SigmoidActivation : Activation S := {|
  activation input := map sigmoid input;
  gradient input := map (fun x => sigmoid x / (s_one - sigmoid x)) input
|}.

Definition swish (x : S) : S := x * sigmoid x.

Definition swishGradient (x : S) : S :=
  swish x + sigmoid x * (s_one - swish x).

Definition SwishActivation : Activation S := {|
  activation input := map swish input;
  gradient input := map swishGradient input
|}.

Definition softmax (input : list S) : list S :=
  let input1 := map s_exp input in
  let sum := accumulate input1 in
  map (fun x => x / sum) input1.

Definition SoftmaxActivation : Activation S := {|
  activation := softmax;
  gradient input := input (* dummy *)
|}.

(** [enum class ActivationType] *)
Inductive ActivationType : Type := RELU | SIGMOID | SWISH | SOFTMAX.

(** the [switch] of the constructor of [Layer] *)
Definition make_activation (t : ActivationType) : Activation S :=
  match t with
  | RELU => ReLuActivation
  | SIGMOID => SigmoidActivation
  | SWISH => SwishActivation
  | SOFTMAX => SoftmaxActivation
  end.

End Activations.

(** ** Layer *)

(** [size_t] arithmetic: [_sampleCount++] wraps around at [2^64] *)
Definition size_max : N := 2 ^ 64.
Definition size_succ (n : N) : N := ((n + 1) mod size_max)%N.

(** The fields of [struct Layer].  [_inSize] is the augmented input size
    (the constructor stores [inSize + 1]).  [_activation] is the shared
    pointer the constructor sets from the activation type; since the
    constructor only ever builds one of the four classes above, the field
    holds the tag and [make_activation] gives the object. *)
Record Layer (S : Type) : Type := mkLayer {
  _inSize : nat;
  _outSize : nat;
  _sampleCount : N;
  _w : list (list S);
  _w_grad : list (list S);
  _input : list S;
  _u : list S;
  _output : list S;
  _activation : ActivationType
}.

(** the shapes the constructor establishes and every method keeps *)
Definition layer_wf {S : Type} (l : Layer S) : Prop :=
  shape (_inSize l) (_outSize l) (_w l) /\
  shape (_inSize l) (_outSize l) (_w_grad l) /\
  length (_input l) = _inSize l /\
  length (_u l) = _outSize l /\
  length (_output l) = _outSize l.

Section LayerMethods.
Context {S : Type} `{Scalar S}.
Local Open Scope scalar_scope.

(** The constructor [Layer(inSize, outSize, activationType)].  It draws the
    weights from a [RandomGenerator<S> rg(0.0, 1.0)] local to it; here the
    generator is an argument, so that the draws are explicit. *)
Definition Layer_new (inSize outSize : nat) (activationType : ActivationType)
  (rg : RandomGenerator S) : option (Layer S) :=
  let inSize' := (inSize + 1)%nat in
  '(_, w, w_grad) <-
     loop inSize' (fun i '(rg, w, w_grad) =>
       '(rg, row) <-
          loop outSize (fun j '(rg, row) =>
            let '(x, rg) := rand rg in
            row <- vset row j (x / s_of_size (N.of_nat inSize')) ;;
            Some (rg, row)) (rg, repeat s_zero outSize) ;;
       Some (rg, w ++ [row], w_grad ++ [repeat s_zero outSize]))
       (rg, [], []) ;;
  Some (mkLayer inSize' outSize 0%N w w_grad
          (repeat s_zero inSize') (repeat s_zero outSize)
          (repeat s_zero outSize) activationType).

Definition forward (input : list S) (l : Layer S)
  : option (list S * Layer S) :=
  let input' := input ++ [s_one] in
  let u0 := map (fun _ => s_zero) (_u l) in
  u <- loop (_inSize l) (fun i =>
         loop (_outSize l) (fun j u =>
           uj <- vget u j ;;
           xi <- vget input' i ;;
           wij <- mget (_w l) i j ;;
           vset u j (uj + xi * wij))) u0 ;;
  let output := activation (make_activation (_activation l)) u in
  Some (output,
        mkLayer (_inSize l) (_outSize l) (_sampleCount l) (_w l) (_w_grad l)
          input' u output (_activation l)).

Definition calcDelta (nextDelta : list S) (nextW : list (list S))
  (l : Layer S) : option (list S * Layer S) :=
  let delta0 := repeat s_zero (_outSize l) in
  let grad := gradient (make_activation (_activation l)) (_u l) in
  delta <- loop (_outSize l) (fun j delta =>
             row <- vget nextW j ;;
             loop (length row) (fun k delta =>
               dj <- vget delta j ;;
               nk <- vget nextDelta k ;;
               wjk <- mget nextW j k ;;
               gj <- vget grad j ;;
               vset delta j (dj + nk * wjk * gj)) delta) delta0 ;;
  Some (delta, l).

Definition updateGrad (delta : list S) (l : Layer S)
  : option (unit * Layer S) :=
  g <- loop (_inSize l) (fun i =>
         loop (_outSize l) (fun j g =>
           gij <- mget g i j ;;
           xi <- vget (_input l) i ;;
           dj <- vget delta j ;;
           mset g i j (gij + xi * dj))) (_w_grad l) ;;
  Some (tt,
        mkLayer (_inSize l) (_outSize l) (size_succ (_sampleCount l)) (_w l) g
          (_input l) (_u l) (_output l) (_activation l)).

Definition updateParam (learningRate : S) (l : Layer S)
  : option (unit * Layer S) :=
  if (_sampleCount l =? 0)%N then Some (tt, l)
  else
    '(w, g) <- loop (_inSize l) (fun i =>
                 loop (_outSize l) (fun j '(w, g) =>
                   wij <- mget w i j ;;
                   gij <- mget g i j ;;
                   w' <- mset w i j
                           (wij - gij * learningRate
                                  / s_of_size (_sampleCount l)) ;;
                   g' <- mset g i j s_zero ;;
                   Some (w', g'))) (_w l, _w_grad l) ;;
    Some (tt,
          mkLayer (_inSize l) (_outSize l) 0%N w g
            (_input l) (_u l) (_output l) (_activation l)).

End LayerMethods.

(** ** Network *)

Record Network (S : Type) : Type := mkNetwork {
  _verbose : bool;
  _layers : list (Layer S)
}.

(** [v.size() - 1] as an index: for an empty vector the [size_t] subtraction
    wraps around and the index is out of bounds *)
Definition last_index {A : Type} (v : list A) : option nat :=
  match length v with
  | O => None
  | S m => Some m
  end.

Section NetworkMethods.
Context {S : Type} `{Scalar S}.
Local Open Scope scalar_scope.

(** one line written to [std::cout] by [backward]: the index of a layer
    and its delta *)
Definition Line : Type := (nat * list S)%type.

Definition print (verbose : bool) (l : nat) (delta : list S) : list Line :=
  if verbose then [(l, delta)] else [].

(** the constructor [Network(verbose)]: no layer yet *)
Definition Network_new (verbose : bool) : Network S := mkNetwork verbose [].

Definition addLayer (layer : Layer S) (net : Network S)
  : option (unit * Network S) :=
  Some (tt, mkNetwork (_verbose net) (_layers net ++ [layer])).

Definition Network_forward (input : list S) (net : Network S)
  : option (list S * Network S) :=
  '(buffer, layers) <- for_each (fun buffer layer => forward buffer layer)
                         input (_layers net) ;;
  Some (buffer, mkNetwork (_verbose net) layers).

(** [backward] returns the lines it wrote to [std::cout], in order *)
Definition backward (target : list S) (net : Network S)
  : option (list Line * Network S) :=
  last <- last_index (_layers net) ;;
  lastLayer <- vget (_layers net) last ;;
  let y := _output lastLayer in
  delta <- loop (length y) (fun i delta =>
             yi <- vget y i ;;
             ti <- vget target i ;;
             vset delta i (yi - ti)) (repeat s_zero (length target)) ;;
  let out := print (_verbose net) last delta in
  '(_, lastLayer') <- updateGrad delta lastLayer ;;
  layers <- vset (_layers net) last lastLayer' ;;
  '(delta, layers, out) <-
     loop_down last (fun l '(delta, layers, out) =>
       layer <- vget layers l ;;
       next <- vget layers (l + 1) ;;
       '(delta', layer1) <- calcDelta delta (_w next) layer ;;
       '(_, layer2) <- updateGrad delta' layer1 ;;
       layers' <- vset layers l layer2 ;;
       Some (delta', layers', out ++ print (_verbose net) l delta'))
     (delta, layers, out) ;;
  Some (out, mkNetwork (_verbose net) layers).

Definition calcLoss (target : list S) (net : Network S)
  : option (S * Network S) :=
  loss <- loop (length target) (fun i loss =>
            ti <- vget target i ;;
            last <- last_index (_layers net) ;;
            lastLayer <- vget (_layers net) last ;;
            oi <- vget (_output lastLayer) i ;;
            Some (loss - ti * s_log oi)) s_zero ;;
  Some (loss, net).

Definition Network_updateParam (learningRate : S) (net : Network S)
  : option (unit * Network S) :=
  '(_, layers) <- for_each (fun _ layer => updateParam learningRate layer)
                    tt (_layers net) ;;
  Some (tt, mkNetwork (_verbose net) layers).

End NetworkMethods.

(** ** The scalars of the specification: real numbers

    Exact arithmetic: no rounding, [exp] is positive and unbounded, and
    [ln] is the logarithm on the positive numbers only (the value the
    library gives it elsewhere stands for no value of [std::log]: every
    statement that reads a logarithm asks for a positive argument). *)

#[export] Instance R_scalar : Scalar R := {|
  s_zero := 0%R;
  s_one := 1%R;
  s_add := Rplus;
  s_sub := Rminus;
  s_mul := Rmult;
  s_div := Rdiv;
  s_exp := exp;
  s_log := ln;
  s_gt0 := fun x => if Rlt_dec 0 x then true else false;
  s_of_size := fun n => IZR (Z.of_N n)
|}.

(** ** The scalars of the program: double

    [classify_mnist.cpp] instantiates the templates at [double].  Rocq's
    primitive floating-point numbers are the binary64 numbers of IEEE 754
    with round-to-nearest-even, the arithmetic of [double]: sums, products
    and quotients are rounded, overflow gives an infinity, [0 * inf] and
    [inf / inf] give NaN.  [std::exp] and [std::log] belong to the C
    library, not to this repository: they are the parameters [std_exp] and
    [std_log], and a statement that needs one of their values says so. *)

Section Double.
Variables std_exp std_log : float -> float.

(** conversion of a [size_t] to [double]: exact below [2^53], rounded to
    nearest above; from [2^63] on the value is halved with its last bit
    kept sticky, converted and doubled, which rounds the same way *)
Definition size_to_double (n : N) : float :=
  if (n <? 2 ^ 63)%N then PrimFloat.of_uint63 (Uint63.of_Z (Z.of_N n))
  else (PrimFloat.of_uint63
          (Uint63.of_Z (Z.of_N (N.lor (N.shiftr n 1) (N.land n 1))))
        * 2)%float.

Definition double_scalar : Scalar float := {|
  s_zero := 0%float;
  s_one := 1%float;
  s_add := PrimFloat.add;
  s_sub := PrimFloat.sub;
  s_mul := PrimFloat.mul;
  s_div := PrimFloat.div;
  s_exp := std_exp;
  s_log := std_log;
  s_gt0 := fun x => PrimFloat.ltb 0 x;
  s_of_size := size_to_double
|}.

End Double.

(** stand-ins for [std::exp] and [std::log] with the values the statements
    ask for, for running them *)
Definition exp_sample (x : float) : float :=
  if (x <? -746)%float then 0%float
  else if (x <? -37)%float then 0x1p-60%float
  else if (710 <? x)%float then infinity
  else 1%float.

Definition log_sample (x : float) : float :=
  if (x =? 0)%float then neg_infinity else 0%float.

(** * mnist.cpp: the data set

    [MNistDataSet] is not a template: its numbers are [double], taken here as
    real numbers (the values it produces, [k / 256] for a byte [k], 0 and 1,
    are exact in [double]).  An [uint8_t] is a [byte], an [uint32_t] an [N]
    below [2^32].  A [std::ifstream] is the bytes not yet read and its state
    (good, or failed).  The code looks at how the host lays an [uint32_t]
    out in memory; the host is a parameter [little] of the functions that
    do, [true] when the low byte comes first and [false] when the high
    byte does. *)

Definition uint32_mod : N := 2 ^ 32.

(** the value of an [uint32_t] converted to [int]; [None] stands for a
    negative result, which no caller here can use as a size *)
Definition to_int (v : N) : option nat :=
  if (v <? 2 ^ 31)%N then Some (N.to_nat v) else None.

Definition byte_of (v : N) : byte :=
  match Byte.of_N (v mod 256) with
  | Some b => b
  | None => x00
  end.

(** the four bytes of an [uint32_t] in memory, and the [uint32_t] that
    four bytes in memory are *)
Definition store_uint32 (little : bool) (v : N) : list byte :=
  let b k := byte_of (v / 256 ^ k) in
  if little then [b 0; b 1; b 2; b 3]%N else [b 3; b 2; b 1; b 0]%N.

Definition load_uint32 (little : bool) (buf : list byte) : option N :=
  match buf with
  | [a; b; c; d] =>
      let n := Byte.to_N in
      Some (if little
            then n a + 256 * n b + 256 ^ 2 * n c + 256 ^ 3 * n d
            else n d + 256 * n c + 256 ^ 2 * n b + 256 ^ 3 * n a)%N
  | _ => None
  end.

Record ifstream : Type := mkIfstream {
  content : list byte;
  good : bool
}.

(** [ifs.read(buf, n)]: the bytes it stores at the start of [buf], and the
    stream afterwards.  A stream that has failed reads nothing; a stream
    with fewer than [n] bytes left reads them and fails. *)
Definition ifs_read (n : nat) (ifs : ifstream) : list byte * ifstream :=
  if good ifs then
    if n <=? length (content ifs)
    then (firstn n (content ifs), mkIfstream (skipn n (content ifs)) true)
    else (content ifs, mkIfstream [] false)
  else ([], ifs).

Definition isLittleEndian (little : bool) : bool :=
  match store_uint32 little 0x01234567 with
  | b :: _ => (Byte.to_N b =? 0x67)%N
  | [] => false
  end.

(** the loop runs while [2 * pos < width], that is for
    [pos < (width + 1) / 2] *)
Definition swapIfLittleEndian (little : bool) (buf : list byte) (width : nat)
  : option (list byte) :=
  if negb (isLittleEndian little) then Some buf
  else
    loop ((width + 1) / 2) (fun pos buf =>
      let invPos := width - 1 - pos in
      tmp <- vget buf pos ;;
      inv <- vget buf invPos ;;
      buf <- vset buf pos inv ;;
      vset buf invPos tmp) buf.

(** [buf] is not initialised: when the stream gives fewer than four bytes
    the value read from it is indeterminate, [None] here *)
Definition readUInt32 (little : bool) (ifs : ifstream)
  : option (N * ifstream) :=
  let '(buf, ifs) := ifs_read 4 ifs in
  if length buf =? 4 then
    buf <- swapIfLittleEndian little buf 4 ;;
    out <- load_uint32 little buf ;;
    Some (out, ifs)
  else None.

(** [_size] is the [uint32_t] the caller passes for the [int] parameter.
    The vector is zero-initialised, so bytes the stream does not give are
    0.  [&buf[0]] on an empty vector is outside its bounds. *)
Definition readArray (ifs : ifstream) (_size : N)
  : option (list byte * ifstream) :=
  n <- to_int _size ;;
  if n =? 0 then None
  else
    let '(got, ifs) := ifs_read n ifs in
    Some (got ++ repeat x00 (n - length got), ifs).

Record MNistDataSet : Type := mkMNistDataSet {
  _numImages : N;
  _numRows : N;
  _numColumns : N;
  _images : list (list byte);
  _labels : list byte
}.

(** the constructor, from the two files as opened *)
Definition MNistDataSet_new (little : bool) (imageFile labelFile : ifstream)
  : option MNistDataSet :=
  '(magicNumber, ifsLabel) <- readUInt32 little labelFile ;;
  '(numImages, ifsLabel) <- readUInt32 little ifsLabel ;;
  '(labels, ifsLabel) <- readArray ifsLabel numImages ;;
  '(magicNumber, ifsImage) <- readUInt32 little imageFile ;;
  '(numImages, ifsImage) <- readUInt32 little ifsImage ;;
  '(numRows, ifsImage) <- readUInt32 little ifsImage ;;
  '(numColumns, ifsImage) <- readUInt32 little ifsImage ;;
  '(images, ifsImage) <-
     loop (N.to_nat numImages) (fun i '(images, ifsImage) =>
       '(image, ifsImage) <-
          readArray ifsImage ((numRows * numColumns) mod uint32_mod)%N ;;
       Some (images ++ [image], ifsImage)) ([], ifsImage) ;;
  Some (mkMNistDataSet numImages numRows numColumns images labels).

Definition getNumImages (set : MNistDataSet) : N := _numImages set.
Definition getNumRows (set : MNistDataSet) : N := _numRows set.
Definition getNumColumns (set : MNistDataSet) : N := _numColumns set.

Definition getLabel (set : MNistDataSet) (i : nat) : option byte :=
  vget (_labels set) i.

Definition getImage (set : MNistDataSet) (i : nat) : option (list byte) :=
  vget (_images set) i.

(** [(double) b] for an [uint8_t] *)
Definition byte_to_double (b : byte) : R := IZR (Z.of_N (Byte.to_N b)).

Definition getImageDouble (set : MNistDataSet) (i : nat) : option (list R) :=
  let size := N.to_nat ((_numRows set * _numColumns set) mod uint32_mod) in
  loop size (fun p imageDouble =>
    image <- vget (_images set) i ;;
    b <- vget image p ;;
    vset imageDouble p (byte_to_double b / 256)%R) (repeat 0%R size).

Definition getLabelDouble (set : MNistDataSet) (i : nat) : option (list R) :=
  label <- vget (_labels set) i ;;
  vset (repeat 0%R 10) (N.to_nat (Byte.to_N label)) 1%R.

(** * classify_mnist.cpp: one epoch

    [runEpoch] works on [Network<double>]: the network over the real
    numbers.  Its [int] counters are integers (inside the range of [int]).
    What it and [backward] write to [std::cout] is returned as a list.
    A quotient by the number of samples when there is none is not a real
    number: the epoch has no result then. *)

Inductive Printed : Type :=
| DeltaLine (l : nat) (delta : list R)     (* "delta of layer l: ..." *)
| BatchLoss (batchId : Z) (value : R).     (* "batch loss[batchId]: value" *)

(** [std::distance(v.begin(), std::max_element(v.begin(), v.end()))]: the
    index of the first largest entry, 0 for the empty vector *)
Definition max_element (v : list R) : nat :=
  match v with
  | [] => O
  | x :: rest =>
      fst (fst (fold_left
                  (fun '(largest, value, i) y =>
                     if Rlt_dec value y then (i, y, Datatypes.S i)
                     else (largest, value, Datatypes.S i))
                  rest (O, x, 1%nat)))
  end.

(** the local variables of [runEpoch] and the network it works on *)
Record Epoch : Type := mkEpoch {
  e_net : Network R;
  numCorrect : Z;
  numWrong : Z;
  sumLoss : R;
  batchLoss : R;
  batchId : Z;
  cout : list Printed
}.

(** the body of the loop of [runEpoch], for one [sample] *)
Definition runSample (set : MNistDataSet) (train : bool) (learningRate : R)
  (batchSize : Z) (sample : nat) (e : Epoch) : option Epoch :=
  input <- getImageDouble set sample ;;
  '(out, net) <- Network_forward input (e_net e) ;;
  let estimatedLabel := byte_of (N.of_nat (max_element out)) in
  label <- getLabel set sample ;;
  let isCorrect := Byte.eqb estimatedLabel label in
  let numCorrect' := if isCorrect then (numCorrect e + 1)%Z else numCorrect e in
  let numWrong' := if isCorrect then numWrong e else (numWrong e + 1)%Z in
  labelOneHot <- getLabelDouble set sample ;;
  '(sampleLoss, net) <- calcLoss labelOneHot net ;;
  let sumLoss' := (sumLoss e + sampleLoss)%R in
  let batchLoss' := (batchLoss e + sampleLoss)%R in
  if train then
    '(printed, net) <- backward labelOneHot net ;;
    let cout' := cout e ++ map (fun line => DeltaLine (fst line) (snd line))
                               printed in
    (* sample % batchSize, both as unsigned 32-bit numbers *)
    let divisor := (batchSize mod 2 ^ 32)%Z in
    if (divisor =? 0)%Z then None
    else if ((Z.of_nat sample mod divisor =? 0)%Z
             || (N.of_nat sample
                 =? (getNumImages set + uint32_mod - 1) mod uint32_mod)%N)%bool
    then
      '(_, net) <- Network_updateParam learningRate net ;;
      Some (mkEpoch net numCorrect' numWrong' sumLoss' 0%R (batchId e + 1)%Z
              (cout' ++ [BatchLoss (batchId e)
                           (batchLoss' / IZR batchSize)%R]))
    else
      Some (mkEpoch net numCorrect' numWrong' sumLoss' batchLoss' (batchId e)
              cout')
  else
    Some (mkEpoch net numCorrect' numWrong' sumLoss' batchLoss' (batchId e)
            (cout e)).

(** [runEpoch]: the pair it returns, the network and what was written *)
Definition runEpoch (net : Network R) (set : MNistDataSet) (train : bool)
  (learningRate : R) (batchSize : Z)
  : option ((R * R) * Network R * list Printed) :=
  e <- loop (N.to_nat (getNumImages set))
         (runSample set train learningRate batchSize)
         (mkEpoch net 0%Z 0%Z 0%R 0%R 0%Z []) ;;
  let total := (numCorrect e + numWrong e)%Z in
  if (total =? 0)%Z then None
  else
    let meanLoss := (sumLoss e / IZR total)%R in
    let errorRate := (IZR (numWrong e) / IZR total)%R in
    Some ((meanLoss, errorRate), e_net e, cout e).

(** the network [main] builds for a data set; each layer draws from a
    generator of its own *)
Definition main_network (set : MNistDataSet) (rg1 rg2 : RandomGenerator R)
  : option (Network R) :=
  let net := Network_new false in
  layer1 <- Layer_new
              (N.to_nat ((getNumRows set * getNumColumns set) mod uint32_mod))
              300 RELU rg1 ;;
  '(_, net) <- addLayer layer1 net ;;
  layer2 <- Layer_new 300 10 SOFTMAX rg2 ;;
  '(_, net) <- addLayer layer2 net ;;
  Some net.

(** * Vocabulary of the statements *)

Section Vocabulary.
Context {S : Type} `{Scalar S}.
Local Open Scope scalar_scope.

(** entries of vectors and matrices, for stating results inside the bounds *)
Definition vnth (v : list S) (i : nat) : S := nth i v s_zero.
Definition mnth (m : list (list S)) (i j : nat) : S :=
  nth j (nth i m []) s_zero.

(** the pre-activation of output unit [j]: the sum, in the order of the
    loop, of [augmentedInput[i] * weights[i][j]] *)
Definition preActivation (w : list (list S)) (input' : list S) (rows j : nat)
  : S :=
  accumulate (map (fun i => vnth input' i * mnth w i j) (seq 0 rows)).

(** what the inner loop of [calcDelta] adds to [delta[j]], in its order *)
Definition backprop (nextDelta : list S) (nextW : list (list S))
  (grad : list S) (j : nat) (cols : nat) (start : S) : S :=
  fold_left
    (fun acc k => acc + vnth nextDelta k * mnth nextW j k * vnth grad j)
    (seq 0 cols) start.

(** the output size of each layer, plus the bias row, is the augmented input
    size of the layer after it *)
Fixpoint chained (layers : list (Layer S)) : Prop :=
  match layers with
  | [] => True
  | a :: rest =>
      match rest with
      | [] => True
      | b :: _ => (_outSize a + 1)%nat = _inSize b
      end /\ chained rest
  end.

(** the input has the size the first layer expects *)
Definition input_fits (input : list S) (layers : list (Layer S)) : Prop :=
  match layers with
  | [] => True
  | l :: _ => (length input + 1)%nat = _inSize l
  end.

(** the output size of the last layer, [d] when there is no layer *)
Definition last_outSize (layers : list (Layer S)) (d : nat) : nat :=
  fold_left (fun _ l => _outSize l) layers d.

(** The calls of one backward pass, from the last layer to the first:
    [backprop_calls dlast layers deltas layers'] holds when [updateGrad] was
    called on the last layer with [dlast], and on every layer before it with
    the delta that [calcDelta] returned for it from the delta and the weights
    of the layer after it; [deltas] lists the deltas and [layers'] the
    layers the calls of [updateGrad] returned, both in the order of
    [layers]. *)
Inductive backprop_calls (dlast : list S)
  : list (Layer S) -> list (list S) -> list (Layer S) -> Prop :=
| calls_last (l l' : Layer S) :
    updateGrad dlast l = Some (tt, l') ->
    backprop_calls dlast [l] [dlast] [l']
| calls_before (l next l' : Layer S) (rest rest' : list (Layer S))
    (d dnext : list S) (ds : list (list S)) :
    backprop_calls dlast (next :: rest) (dnext :: ds) rest' ->
    calcDelta dnext (_w next) l = Some (d, l) ->
    updateGrad d l = Some (tt, l') ->
    backprop_calls dlast (l :: next :: rest) (d :: dnext :: ds) (l' :: rest').

(** the lines [backward] writes when verbose: one per layer, last layer
    first; [start] is the index of the first layer of [deltas] *)
Definition lines (verbose : bool) (start : nat) (deltas : list (list S))
  : list Line :=
  if verbose then rev (combine (seq start (length deltas)) deltas) else [].

End Vocabulary.

(** [n] calls of [updateGrad] with the same [delta], no [forward] in
    between (so the cached [_input] is the same for each) *)
Definition updateGrad_times (n : nat) (delta : list R) (l : Layer R)
  : option (Layer R) :=
  loop n (fun _ l => '(_, l') <- updateGrad delta l ;; Some l') l.


(** the calls one layer receives during a mini-batch: for each sample,
    [forward] on the input of the layer and [updateGrad] with its delta *)
Fixpoint accumulate_batch {S : Type} `{Scalar S}
  (samples : list (list S * list S)) (l : Layer S) : option (Layer S) :=
  match samples with
  | [] => Some l
  | (x, d) :: rest =>
      '(_, l1) <- forward x l ;;
      '(_, l2) <- updateGrad d l1 ;;
      accumulate_batch rest l2
  end.

(** two states of a layer that differ at most in the accumulator and in
    the sample count *)
Definition same_but_gradient {S : Type} (l l' : Layer S) : Prop :=
  _inSize l' = _inSize l /\ _outSize l' = _outSize l /\ _w l' = _w l /\
  _input l' = _input l /\ _u l' = _u l /\ _output l' = _output l /\
  _activation l' = _activation l.

(** the files the constructor of [MNistDataSet] is written for: a value
    as four bytes, high byte first; a label file (magic number, count,
    labels); an image file (magic number, count, rows, columns, images) *)
Definition be32 (v : N) : list byte :=
  [byte_of (v / 256 ^ 3); byte_of (v / 256 ^ 2); byte_of (v / 256);
   byte_of v]%N.

Definition label_file (magic : N) (labels : list byte) : list byte :=
  be32 magic ++ be32 (N.of_nat (length labels)) ++ labels.

Definition image_file (magic rows cols : N) (images : list (list byte))
  : list byte :=
  be32 magic ++ be32 (N.of_nat (length images)) ++ be32 rows ++ be32 cols
  ++ concat images.

(** a data set whose vectors hold what its sizes announce, with labels
    below 10 *)
Definition dataset_ok (set : MNistDataSet) : Prop :=
  (_numImages set < 2 ^ 31)%N /\
  length (_images set) = N.to_nat (_numImages set) /\
  length (_labels set) = N.to_nat (_numImages set) /\
  Forall (fun image =>
            N.to_nat ((_numRows set * _numColumns set) mod uint32_mod)
            <= length image) (_images set) /\
  Forall (fun label => (Byte.to_N label < 10)%N) (_labels set).

(** a network for the vectors of a data set: image vectors in, ten numbers
    out *)
Definition net_fits (set : MNistDataSet) (layers : list (Layer R)) : Prop :=
  Forall layer_wf layers /\
  chained layers /\
  (exists first rest,
     layers = first :: rest /\
     _inSize first
     = (N.to_nat ((_numRows set * _numColumns set) mod uint32_mod) + 1)%nat) /\
  (exists front lastLayer,
     layers = front ++ [lastLayer] /\ _outSize lastLayer = 10%nat).

(** what training changes in a layer *)
Definition trained (l : Layer R) : list (list R) * list (list R) * N :=
  (_w l, _w_grad l, _sampleCount l).

(** the value [calcLoss] returns for a target, from the output the last
    layer holds *)
Definition cross_entropy (output target : list R) : R :=
  (- accumulate (map (fun i => vnth target i * ln (vnth output i))
                     (seq 0 (length target))))%R.

(** ** A small network, for running the methods *)

Section Samples.
Local Open Scope R_scope.

(** a generator whose every draw is 1/2 *)
Definition halves : RandomGenerator R := mkRandomGenerator (fun _ => 1 / 2) 0.

(** one input feature, two units, Sigmoid *)
Definition sample_hidden : Layer R :=
  mkLayer 2 2 0%N [[1; 2]; [3; 4]] [[0; 0]; [0; 0]]
    [0; 0] [0; 0] [0; 0] SIGMOID.

(** two input features, two units, Softmax *)
Definition sample_output : Layer R :=
  mkLayer 3 2 0%N [[1; 0]; [0; 1]; [1; 1]] [[0; 0]; [0; 0]; [0; 0]]
    [0; 0; 0] [0; 0] [0; 0] SOFTMAX.

Definition sample_net : Network R :=
  mkNetwork true [sample_hidden; sample_output].

(** the layer [sample_hidden] and the network [sample_net] as [forward] on
    the input [[5]] leaves them *)
Definition sample_hidden_run : Layer R :=
  match forward [5] sample_hidden with
  | Some (_, l) => l
  | None => sample_hidden
  end.

Definition sample_net_run : Network R :=
  match Network_forward [5] sample_net with
  | Some (_, net) => net
  | None => sample_net
  end.

(** two images of one pixel, with the labels 3 and 7 *)
Definition sample_set : MNistDataSet :=
  mkMNistDataSet 2 1 1 [[x80]; [x10]] [x03; x07].

(** one Softmax layer from one pixel to ten numbers *)
Definition sample_classifier : Network R :=
  mkNetwork false
    [mkLayer 2 10 0%N (repeat (repeat (1 / 10) 10) 2)
       (repeat (repeat 0 10) 2) [0; 0] (repeat 0 10) (repeat 0 10) SOFTMAX].

End Samples.

(** * Verification *)

Unset Implicit Arguments.

(** ** Checked indexing *)

Lemma bind_some {A B : Type} (m : option A) (k : A -> option B) (b : B) :
  bind m k = Some b -> exists a, m = Some a /\ k a = Some b.
Proof.
  destruct m as [a|]; simpl; intros E; [exists a; auto | discriminate].
Qed.

Lemma vget_some {A : Type} (v : list A) (i : nat) :
  i < length v -> exists x, vget v i = Some x.
Proof.
  intros Hi. unfold vget. destruct (nth_error v i) as [x|] eqn:E.
  - now exists x.
  - apply nth_error_None in E. lia.
Qed.

Lemma vget_lt {A : Type} (v : list A) (i : nat) (x : A) :
  vget v i = Some x -> i < length v.
Proof.
  intros E. apply nth_error_Some. unfold vget in E. congruence.
Qed.

Lemma vget_nth {A : Type} (v : list A) (i : nat) (d : A) :
  i < length v -> vget v i = Some (nth i v d).
Proof. intros Hi. unfold vget. now apply nth_error_nth'. Qed.

Lemma replace_nth_length {A : Type} (v : list A) (i : nat) (x : A) :
  length (replace_nth v i x) = length v.
Proof.
  revert i. induction v as [|h t IH]; intros [|i]; simpl; auto.
Qed.

Lemma replace_nth_same {A : Type} (v : list A) (i : nat) (x : A) :
  i < length v -> nth_error (replace_nth v i x) i = Some x.
Proof.
  revert i. induction v as [|h t IH]; intros [|i]; simpl; intros Hi;
    try lia; auto. apply IH. lia.
Qed.

Lemma replace_nth_other {A : Type} (v : list A) (i k : nat) (x : A) :
  k <> i -> nth_error (replace_nth v i x) k = nth_error v k.
Proof.
  revert i k. induction v as [|h t IH]; intros [|i] [|k]; simpl; intros Hk;
    try congruence; auto.
Qed.

Lemma vset_some {A : Type} (v : list A) (i : nat) (x : A) :
  i < length v -> vset v i x = Some (replace_nth v i x).
Proof.
  intros Hi. unfold vset. apply Nat.ltb_lt in Hi. now rewrite Hi.
Qed.

Lemma vset_inv {A : Type} (v v' : list A) (i : nat) (x : A) :
  vset v i x = Some v' -> i < length v /\ v' = replace_nth v i x.
Proof.
  unfold vset. destruct (i <? length v) eqn:E; intros Ev; [|discriminate].
  apply Nat.ltb_lt in E. split; congruence.
Qed.

Lemma vset_length {A : Type} (v v' : list A) (i : nat) (x : A) :
  vset v i x = Some v' -> length v' = length v.
Proof.
  intros Ev. apply vset_inv in Ev as [_ ->]. apply replace_nth_length.
Qed.

Lemma vget_vset_same {A : Type} (v v' : list A) (i : nat) (x : A) :
  vset v i x = Some v' -> vget v' i = Some x.
Proof.
  intros Ev. apply vset_inv in Ev as [Hi ->]. now apply replace_nth_same.
Qed.

Lemma vget_vset_other {A : Type} (v v' : list A) (i k : nat) (x : A) :
  vset v i x = Some v' -> k <> i -> vget v' k = vget v k.
Proof.
  intros Ev Hk. apply vset_inv in Ev as [Hi ->]. now apply replace_nth_other.
Qed.

Lemma vget_ext {A : Type} (v v' : list A) :
  (forall k, vget v k = vget v' k) -> v = v'.
Proof.
  revert v'. induction v as [|h t IH]; intros [|h' t'] E; auto.
  - specialize (E 0). discriminate.
  - specialize (E 0). discriminate.
  - f_equal.
    + specialize (E 0). simpl in E. congruence.
    + apply IH. intros k. apply (E (S k)).
Qed.

Lemma shape_row {A : Type} (rows cols : nat) (m : list (list A)) (i : nat)
  (row : list A) :
  shape rows cols m -> vget m i = Some row -> length row = cols.
Proof.
  intros [_ Hall] E. rewrite Forall_forall in Hall. apply Hall.
  eapply nth_error_In. exact E.
Qed.

Lemma mget_some {A : Type} (rows cols : nat) (m : list (list A)) (i j : nat) :
  shape rows cols m -> i < rows -> j < cols -> exists x, mget m i j = Some x.
Proof.
  intros Hs Hi Hj. destruct (vget_some m i) as [row Er].
  { destruct Hs as [-> _]. exact Hi. }
  unfold mget. rewrite Er. simpl. apply vget_some.
  now rewrite (shape_row _ _ _ _ _ Hs Er).
Qed.

Lemma mget_nth {A : Type} (rows cols : nat) (m : list (list A)) (i j : nat)
  (d : A) :
  shape rows cols m -> i < rows -> j < cols ->
  mget m i j = Some (nth j (nth i m []) d).
Proof.
  intros Hs Hi Hj. pose proof Hs as [Hl _].
  unfold mget. rewrite (vget_nth m i []) by lia. simpl.
  apply vget_nth.
  rewrite (shape_row _ _ _ _ _ Hs (vget_nth m i [] ltac:(lia))). exact Hj.
Qed.

Lemma mset_shape {A : Type} (rows cols : nat) (m m' : list (list A))
  (i j : nat) (x : A) :
  shape rows cols m -> mset m i j x = Some m' -> shape rows cols m'.
Proof.
  intros Hs Em. unfold mset in Em.
  apply bind_some in Em as (row & Er & Em).
  apply bind_some in Em as (row' & Er' & Em).
  pose proof (shape_row _ _ _ _ _ Hs Er) as Hrow.
  apply vset_length in Er'.
  apply vset_inv in Em as [Hi ->].
  destruct Hs as [Hl Hall]. split.
  - now rewrite replace_nth_length.
  - rewrite Forall_forall in *. intros r Hin.
    apply In_nth_error in Hin as [k Ek].
    destruct (Nat.eq_dec k i) as [->|Hk].
    + rewrite replace_nth_same in Ek by exact Hi. congruence.
    + rewrite replace_nth_other in Ek by exact Hk.
      apply Hall. eapply nth_error_In. exact Ek.
Qed.

Lemma mset_some {A : Type} (m : list (list A)) (i j : nat) (c x : A) :
  mget m i j = Some c -> exists m', mset m i j x = Some m'.
Proof.
  intros Eg. unfold mget in Eg. apply bind_some in Eg as (row & Er & Eg).
  unfold mset. rewrite Er. simpl.
  rewrite (vset_some row j x (vget_lt _ _ _ Eg)). simpl.
  rewrite (vset_some m i _ (vget_lt _ _ _ Er)). eauto.
Qed.

Lemma mget_mset_same {A : Type} (m m' : list (list A)) (i j : nat) (x : A) :
  mset m i j x = Some m' -> mget m' i j = Some x.
Proof.
  intros Em. unfold mset in Em.
  apply bind_some in Em as (row & Er & Em).
  apply bind_some in Em as (row' & Er' & Em).
  unfold mget. rewrite (vget_vset_same _ _ _ _ Em). simpl.
  exact (vget_vset_same _ _ _ _ Er').
Qed.

Lemma mget_mset_other {A : Type} (m m' : list (list A)) (i j a b : nat)
  (x : A) :
  mset m i j x = Some m' -> a <> i \/ b <> j -> mget m' a b = mget m a b.
Proof.
  intros Em Hab. unfold mset in Em.
  apply bind_some in Em as (row & Er & Em).
  apply bind_some in Em as (row' & Er' & Em).
  unfold mget. destruct (Nat.eq_dec a i) as [->|Ha].
  - rewrite (vget_vset_same _ _ _ _ Em), Er. simpl.
    apply (vget_vset_other _ _ _ _ _ Er'). destruct Hab; congruence.
  - now rewrite (vget_vset_other _ _ _ _ _ Em Ha).
Qed.

Lemma matrix_ext {A : Type} (rows cols : nat) (m m' : list (list A)) :
  shape rows cols m -> shape rows cols m' ->
  (forall i j, i < rows -> j < cols -> mget m i j = mget m' i j) ->
  m = m'.
Proof.
  intros Hs Hs' E. apply vget_ext. intros i.
  destruct (vget m i) as [row|] eqn:Er.
  - pose proof (vget_lt _ _ _ Er) as Hi.
    destruct (vget_some m' i) as [row' Er'].
    { destruct Hs as [Hl _], Hs' as [Hl' _]. lia. }
    rewrite Er'. f_equal. apply vget_ext. intros j.
    destruct (Nat.lt_ge_cases j cols) as [Hj|Hj].
    + assert (Hi' : i < rows) by (destruct Hs as [Hl _]; lia).
      specialize (E i j Hi' Hj). unfold mget in E.
      rewrite Er, Er' in E. exact E.
    + pose proof (shape_row _ _ _ _ _ Hs Er). pose proof (shape_row _ _ _ _ _ Hs' Er').
      unfold vget.
      rewrite (proj2 (nth_error_None row j)) by lia.
      rewrite (proj2 (nth_error_None row' j)) by lia. reflexivity.
  - unfold vget in *. apply nth_error_None in Er.
    symmetry. apply nth_error_None.
    destruct Hs as [Hl _], Hs' as [Hl' _]. lia.
Qed.

(** ** Rules for loops *)

Section LoopRules.
Context {St : Type}.

(** total correctness of an upward loop from an invariant *)
Lemma loop_inv (Inv : nat -> St -> Prop) (n : nat)
  (body : nat -> St -> option St) (s : St) :
  Inv 0 s ->
  (forall i t, i < n -> Inv i t -> exists t', body i t = Some t' /\ Inv (S i) t') ->
  exists s', loop n body s = Some s' /\ Inv n s'.
Proof.
  intros H0 Hstep. induction n as [|n IH].
  - exists s. split; [reflexivity | exact H0].
  - destruct IH as (t & Et & Ht).
    { intros i t Hi. apply Hstep. lia. }
    destruct (Hstep n t ltac:(lia) Ht) as (t' & Et' & Ht').
    exists t'. simpl. rewrite Et. simpl. auto.
Qed.

(** total correctness of a downward loop from an invariant *)
Lemma loop_down_inv (Inv : nat -> St -> Prop) (n : nat)
  (body : nat -> St -> option St) (s : St) :
  Inv n s ->
  (forall i t, i < n -> Inv (S i) t -> exists t', body i t = Some t' /\ Inv i t') ->
  exists s', loop_down n body s = Some s' /\ Inv 0 s'.
Proof.
  revert s. induction n as [|n IH]; intros s Hn Hstep.
  - exists s. split; [reflexivity | exact Hn].
  - destruct (Hstep n s ltac:(lia) Hn) as (t & Et & Ht).
    destruct (IH t Ht) as (t' & Et' & Ht').
    { intros i u Hi. apply Hstep. lia. }
    exists t'. simpl. rewrite Et. simpl. auto.
Qed.

(** what a loop keeps when every iteration keeps it *)
Lemma loop_keeps (P : St -> Prop) (n : nat) (body : nat -> St -> option St)
  (s s' : St) :
  (forall i t t', body i t = Some t' -> P t -> P t') ->
  loop n body s = Some s' -> P s -> P s'.
Proof.
  intros Hstep. revert s'. induction n as [|n IH]; simpl; intros s' E Hs.
  - congruence.
  - apply bind_some in E as (t & Et & E). eapply Hstep; eauto.
Qed.

Lemma loop_down_keeps (P : St -> Prop) (n : nat)
  (body : nat -> St -> option St) (s s' : St) :
  (forall i t t', body i t = Some t' -> P t -> P t') ->
  loop_down n body s = Some s' -> P s -> P s'.
Proof.
  intros Hstep. revert s. induction n as [|n IH]; simpl; intros s E Hs.
  - congruence.
  - apply bind_some in E as (t & Et & E). eapply IH; eauto.
Qed.

(** A loop whose [j]-th iteration replaces the content [c] of cell [j] by
    [F j c] and touches no other cell. *)
Lemma sweep1 {C : Type} (rd : St -> nat -> option C) (P : St -> Prop)
  (F : nat -> C -> C) (n : nat) (body : nat -> St -> option St) :
  (forall j t c, j < n -> P t -> rd t j = Some c ->
     exists t', body j t = Some t' /\ P t' /\ rd t' j = Some (F j c) /\
                forall k, k <> j -> rd t' k = rd t k) ->
  forall s, P s -> (forall j, j < n -> rd s j <> None) ->
  exists s', loop n body s = Some s' /\ P s' /\
    forall k, rd s' k = if k <? n then option_map (F k) (rd s k) else rd s k.
Proof.
  intros Hbody s Hs Hdef.
  destruct (loop_inv
    (fun m t => P t /\ forall k, rd t k =
       if k <? m then option_map (F k) (rd s k) else rd s k) n body s)
    as (s' & E & HP & Hrd).
  - split; [exact Hs | intros k; reflexivity].
  - intros i t Hi [HP Hrd].
    destruct (rd s i) as [c|] eqn:Ec; [|now destruct (Hdef i Hi)].
    assert (Et : rd t i = Some c).
    { rewrite Hrd, Nat.ltb_irrefl. exact Ec. }
    destruct (Hbody i t c Hi HP Et) as (t' & Eb & HP' & Hsame & Hother).
    exists t'. split; [exact Eb|]. split; [exact HP'|].
    intros k. destruct (Nat.eq_dec k i) as [->|Hk].
    + rewrite Hsame, Ec. now rewrite (proj2 (Nat.ltb_lt i (S i))) by lia.
    + rewrite (Hother k Hk), Hrd.
      destruct (k <? i) eqn:E1, (k <? S i) eqn:E2; auto;
        apply Nat.ltb_lt in E1 || apply Nat.ltb_ge in E1;
        apply Nat.ltb_lt in E2 || apply Nat.ltb_ge in E2; lia.
  - exists s'. auto.
Qed.

(** The same for two nested loops over the cells [(i, j)] of a grid. *)
Lemma sweep2 {C : Type} (rd : St -> nat -> nat -> option C) (P : St -> Prop)
  (F : nat -> nat -> C -> C) (rows cols : nat)
  (body : nat -> nat -> St -> option St) :
  (forall i j t c, i < rows -> j < cols -> P t -> rd t i j = Some c ->
     exists t', body i j t = Some t' /\ P t' /\ rd t' i j = Some (F i j c) /\
                forall a b, a <> i \/ b <> j -> rd t' a b = rd t a b) ->
  forall s, P s -> (forall i j, i < rows -> j < cols -> rd s i j <> None) ->
  exists s', loop rows (fun i => loop cols (body i)) s = Some s' /\ P s' /\
    forall a b, rd s' a b =
      if (a <? rows) && (b <? cols) then option_map (F a b) (rd s a b)
      else rd s a b.
Proof.
  intros Hbody s Hs Hdef.
  destruct (loop_inv
    (fun m t => P t /\ forall a b, rd t a b =
       if (a <? m) && (b <? cols) then option_map (F a b) (rd s a b)
       else rd s a b) rows (fun i => loop cols (body i)) s)
    as (s' & E & HP & Hrd).
  - split; [exact Hs | intros a b; reflexivity].
  - intros i t Hi [HP Hrd].
    destruct (sweep1 (fun u b => rd u i b)
      (fun u => P u /\ forall a b, a <> i -> rd u a b = rd t a b)
      (F i) cols (body i)) with (s := t) as (t' & Et' & [HP' Hfr] & Hrow).
    + intros j u c Hj [HPu Hfru] Ec.
      destruct (Hbody i j u c Hi Hj HPu Ec) as (u' & Eb & HPu' & Hsame & Hoth).
      exists u'. split; [exact Eb|]. split; [|split; [exact Hsame|]].
      * split; [exact HPu'|].
        intros a b Ha. rewrite Hoth by auto. now apply Hfru.
      * intros k Hk. apply Hoth. auto.
    + split; [exact HP | reflexivity].
    + intros j Hj. rewrite Hrd, Nat.ltb_irrefl. simpl. now apply Hdef.
    + exists t'. split; [exact Et'|]. split; [exact HP'|].
      intros a b. destruct (Nat.eq_dec a i) as [->|Ha].
      * rewrite Hrow, Hrd, Nat.ltb_irrefl.
        rewrite (proj2 (Nat.ltb_lt i (S i))) by lia. reflexivity.
      * rewrite (Hfr a b Ha), Hrd.
        destruct (a <? i) eqn:E1, (a <? S i) eqn:E2; auto;
          apply Nat.ltb_lt in E1 || apply Nat.ltb_ge in E1;
          apply Nat.ltb_lt in E2 || apply Nat.ltb_ge in E2; lia.
  - exists s'. auto.
Qed.

End LoopRules.

(** ** Layer: what each method computes *)

Section LayerSpecs.
Context {S : Type} `{Scalar S}.
Local Open Scope scalar_scope.

Lemma vget_vnth (v : list S) (i : nat) :
  i < length v -> vget v i = Some (vnth v i).
Proof. apply vget_nth. Qed.

Lemma mget_mnth (rows cols : nat) (m : list (list S)) (i j : nat) :
  shape rows cols m -> i < rows -> j < cols -> mget m i j = Some (mnth m i j).
Proof. apply mget_nth. Qed.

(** [updateGrad] on a layer of the right shape: it returns, adds the outer
    product of the cached input and [delta] to the accumulator, counts one
    sample, and changes nothing else. *)
Lemma updateGrad_spec (delta : list S) (l : Layer S) :
  shape (_inSize l) (_outSize l) (_w_grad l) ->
  _inSize l <= length (_input l) ->
  _outSize l <= length delta ->
  exists g,
    updateGrad delta l =
      Some (tt, mkLayer (_inSize l) (_outSize l) (size_succ (_sampleCount l))
                  (_w l) g (_input l) (_u l) (_output l) (_activation l)) /\
    shape (_inSize l) (_outSize l) g /\
    forall i j, i < _inSize l -> j < _outSize l ->
      mget g i j =
        Some (mnth (_w_grad l) i j + vnth (_input l) i * vnth delta j).
Proof.
  intros Hs Hin Hd.
  destruct (sweep2 (St := list (list S)) mget
    (shape (_inSize l) (_outSize l))
    (fun i j c => c + vnth (_input l) i * vnth delta j)
    (_inSize l) (_outSize l)
    (fun i j g =>
       gij <- mget g i j ;;
       xi <- vget (_input l) i ;;
       dj <- vget delta j ;;
       mset g i j (gij + xi * dj)))
    with (s := _w_grad l) as (g & Eg & Hg & Hrd).
  - intros i j t c Hi Hj Ht Ec. rewrite Ec. simpl.
    rewrite (vget_vnth (_input l) i) by lia. simpl.
    rewrite (vget_vnth delta j) by lia. simpl.
    destruct (mset_some t i j c (c + vnth (_input l) i * vnth delta j) Ec)
      as [t' Et'].
    exists t'. split; [exact Et'|]. split; [|split].
    + eapply mset_shape; eauto.
    + eapply mget_mset_same; eauto.
    + intros a b Hab. eapply mget_mset_other; eauto.
  - exact Hs.
  - intros i j Hi Hj. destruct (mget_some _ _ _ i j Hs Hi Hj) as [x Ex].
    congruence.
  - exists g. unfold updateGrad. rewrite Eg. simpl.
    split; [reflexivity|]. split; [exact Hg|].
    intros i j Hi Hj. rewrite Hrd.
    rewrite (proj2 (Nat.ltb_lt i _) Hi), (proj2 (Nat.ltb_lt j _) Hj). simpl.
    now rewrite (mget_mnth _ _ _ i j Hs Hi Hj).
Qed.

Lemma updateParam_noop (learningRate : S) (l : Layer S) :
  _sampleCount l = 0%N -> updateParam learningRate l = Some (tt, l).
Proof. intros E. unfold updateParam. now rewrite E. Qed.

(** [updateParam] with samples accumulated, in the order of operations of
    the code: [w - g * learningRate / count]. *)
Lemma updateParam_step (learningRate : S) (l : Layer S) :
  _sampleCount l <> 0%N ->
  shape (_inSize l) (_outSize l) (_w l) ->
  shape (_inSize l) (_outSize l) (_w_grad l) ->
  exists w g,
    updateParam learningRate l =
      Some (tt, mkLayer (_inSize l) (_outSize l) 0%N w g
                  (_input l) (_u l) (_output l) (_activation l)) /\
    shape (_inSize l) (_outSize l) w /\
    shape (_inSize l) (_outSize l) g /\
    forall i j, i < _inSize l -> j < _outSize l ->
      mget w i j =
        Some (mnth (_w l) i j
              - mnth (_w_grad l) i j * learningRate
                / s_of_size (_sampleCount l)) /\
      mget g i j = Some s_zero.
Proof.
  intros Hc Hw Hg.
  destruct (sweep2 (St := list (list S) * list (list S))
    (fun t i j => wij <- mget (fst t) i j ;; gij <- mget (snd t) i j ;;
                  Some (wij, gij))
    (fun t => shape (_inSize l) (_outSize l) (fst t) /\
              shape (_inSize l) (_outSize l) (snd t))
    (fun i j c => (fst c - snd c * learningRate / s_of_size (_sampleCount l),
                   s_zero))
    (_inSize l) (_outSize l)
    (fun i j '(w, g) =>
       wij <- mget w i j ;;
       gij <- mget g i j ;;
       w' <- mset w i j
               (wij - gij * learningRate / s_of_size (_sampleCount l)) ;;
       g' <- mset g i j s_zero ;;
       Some (w', g')))
    with (s := (_w l, _w_grad l)) as ([w g] & E & [Hw' Hg'] & Hrd).
  - intros i j [w g] [wc gc] Hi Hj [Hsw Hsg] Ec. simpl in *.
    apply bind_some in Ec as (wc' & Ew & Ec).
    apply bind_some in Ec as (gc' & Eg & Ec).
    injection Ec as -> ->.
    rewrite Ew, Eg. simpl.
    destruct (mset_some w i j wc
      (wc - gc * learningRate / s_of_size (_sampleCount l)) Ew) as [w' Ew'].
    destruct (mset_some g i j gc s_zero Eg) as [g' Eg'].
    rewrite Ew', Eg'. simpl.
    exists (w', g'). split; [reflexivity|]. split; [|split].
    + split; simpl; [exact (mset_shape _ _ _ _ _ _ _ Hsw Ew')
                    | exact (mset_shape _ _ _ _ _ _ _ Hsg Eg')].
    + simpl. rewrite (mget_mset_same _ _ _ _ _ Ew').
      rewrite (mget_mset_same _ _ _ _ _ Eg'). reflexivity.
    + intros a b Hab. simpl.
      rewrite (mget_mset_other _ _ _ _ _ _ _ Ew' Hab).
      rewrite (mget_mset_other _ _ _ _ _ _ _ Eg' Hab). reflexivity.
  - split; assumption.
  - intros i j Hi Hj. simpl.
    rewrite (mget_mnth _ _ _ i j Hw Hi Hj), (mget_mnth _ _ _ i j Hg Hi Hj).
    discriminate.
  - simpl in Hw', Hg'. exists w, g. unfold updateParam.
    destruct (N.eqb_spec (_sampleCount l) 0) as [E0|_]; [contradiction|].
    rewrite E. simpl. split; [reflexivity|]. split; [exact Hw'|].
    split; [exact Hg'|].
    intros i j Hi Hj. specialize (Hrd i j). simpl in Hrd.
    rewrite (proj2 (Nat.ltb_lt i _) Hi), (proj2 (Nat.ltb_lt j _) Hj) in Hrd.
    rewrite (mget_mnth _ _ _ i j Hw Hi Hj), (mget_mnth _ _ _ i j Hg Hi Hj)
      in Hrd. simpl in Hrd.
    destruct (mget_some _ _ _ i j Hw' Hi Hj) as [x Ex].
    destruct (mget_some _ _ _ i j Hg' Hi Hj) as [y Ey].
    rewrite Ex, Ey in Hrd. simpl in Hrd. injection Hrd as -> ->.
    rewrite Ex, Ey. auto.
Qed.

Lemma accumulate_snoc (v : list S) (x : S) :
  accumulate (v ++ [x]) = accumulate v + x.
Proof. unfold accumulate. now rewrite fold_left_app. Qed.

Lemma accumulate_seq_S (f : nat -> S) (n : nat) :
  accumulate (map f (seq 0 (Datatypes.S n)))
  = accumulate (map f (seq 0 n)) + f n.
Proof. rewrite seq_S, map_app. cbn [map Nat.add]. apply accumulate_snoc. Qed.

Lemma forward_spec (input : list S) (l : Layer S) :
  shape (_inSize l) (_outSize l) (_w l) ->
  length (_u l) = _outSize l ->
  (length input + 1)%nat = _inSize l ->
  exists u,
    forward input l =
      Some (activation (make_activation (_activation l)) u,
            mkLayer (_inSize l) (_outSize l) (_sampleCount l) (_w l)
              (_w_grad l) (input ++ [s_one]) u
              (activation (make_activation (_activation l)) u)
              (_activation l)) /\
    length u = _outSize l /\
    forall j, j < _outSize l ->
      vget u j = Some (preActivation (_w l) (input ++ [s_one]) (_inSize l) j).
Proof.
  intros Hw Hu Hin.
  assert (Hlen : length (input ++ [s_one]) = _inSize l).
  { rewrite length_app. simpl. exact Hin. }
  destruct (loop_inv
    (fun i u => length u = _outSize l /\
       forall j, j < _outSize l ->
         vget u j = Some (preActivation (_w l) (input ++ [s_one]) i j))
    (_inSize l)
    (fun i =>
       loop (_outSize l) (fun j u =>
         uj <- vget u j ;;
         xi <- vget (input ++ [s_one]) i ;;
         wij <- mget (_w l) i j ;;
         vset u j (uj + xi * wij)))
    (map (fun _ => s_zero) (_u l))) as (u & Eu & Hlu & Hval).
  - split; [now rewrite length_map|].
    intros j Hj. unfold vget. rewrite nth_error_map.
    destruct (vget_some (_u l) j ltac:(lia)) as [x Ex].
    unfold vget in Ex. rewrite Ex. reflexivity.
  - intros i t Hi [Hlt Hvt].
    destruct (sweep1 (St := list S) vget (fun v => length v = _outSize l)
      (fun j c => c + vnth (input ++ [s_one]) i * mnth (_w l) i j)
      (_outSize l)
      (fun j u =>
         uj <- vget u j ;;
         xi <- vget (input ++ [s_one]) i ;;
         wij <- mget (_w l) i j ;;
         vset u j (uj + xi * wij)))
      with (s := t) as (t' & Et' & Hlt' & Hrd).
    + intros j v c Hj Hlv Ec. rewrite Ec. simpl.
      rewrite (vget_vnth (input ++ [s_one]) i) by lia. simpl.
      rewrite (mget_mnth _ _ _ i j Hw Hi Hj). simpl.
      rewrite vset_some by lia.
      eexists. split; [reflexivity|]. split; [|split].
      * now rewrite replace_nth_length.
      * apply replace_nth_same. lia.
      * intros k Hk. now apply replace_nth_other.
    + exact Hlt.
    + intros j Hj. rewrite (Hvt j Hj). discriminate.
    + exists t'. split; [exact Et'|]. split; [exact Hlt'|].
      intros j Hj. rewrite Hrd, (proj2 (Nat.ltb_lt j _) Hj), (Hvt j Hj).
      simpl. unfold preActivation. now rewrite accumulate_seq_S.
  - exists u. unfold forward. rewrite Eu. simpl. auto.
Qed.

Lemma activation_length (t : ActivationType) (v : list S) :
  length (activation (make_activation t) v) = length v.
Proof.
  destruct t; simpl; unfold softmax; now rewrite ?length_map.
Qed.

Lemma gradient_length (t : ActivationType) (v : list S) :
  length (gradient (make_activation t) v) = length v.
Proof. destruct t; simpl; now rewrite ?length_map. Qed.

Lemma backprop_S nextDelta nextW grad j cols start :
  backprop nextDelta nextW grad j (Datatypes.S cols) start
  = backprop nextDelta nextW grad j cols start
    + vnth nextDelta cols * mnth nextW j cols * vnth grad j.
Proof. unfold backprop. now rewrite seq_S, fold_left_app. Qed.

Lemma calcDelta_spec (nextDelta : list S) (nextW : list (list S))
  (l : Layer S) :
  length (_u l) = _outSize l ->
  _outSize l <= length nextW ->
  Forall (fun row => length row <= length nextDelta) nextW ->
  exists delta,
    calcDelta nextDelta nextW l = Some (delta, l) /\
    length delta = _outSize l /\
    forall j, j < _outSize l ->
      vget delta j =
        Some (backprop nextDelta nextW
                (gradient (make_activation (_activation l)) (_u l)) j
                (length (nth j nextW [])) s_zero).
Proof.
  intros Hu Hrows Hcols.
  set (grad := gradient (make_activation (_activation l)) (_u l)).
  assert (Hgrad : length grad = _outSize l).
  { unfold grad. now rewrite gradient_length. }
  destruct (sweep1 (St := list S) vget (fun v => length v = _outSize l)
    (fun j c => backprop nextDelta nextW grad j (length (nth j nextW [])) c)
    (_outSize l)
    (fun j delta =>
       row <- vget nextW j ;;
       loop (length row) (fun k delta =>
         dj <- vget delta j ;;
         nk <- vget nextDelta k ;;
         wjk <- mget nextW j k ;;
         gj <- vget grad j ;;
         vset delta j (dj + nk * wjk * gj)) delta))
    with (s := repeat s_zero (_outSize l)) as (delta & Ed & Hld & Hrd).
  - intros j t c Hj Hlt Ec.
    rewrite (vget_nth nextW j []) by lia. simpl.
    assert (Hrow : length (nth j nextW []) <= length nextDelta).
    { rewrite Forall_forall in Hcols. apply Hcols. apply nth_In. lia. }
    destruct (loop_inv
      (fun k d => length d = _outSize l /\
         vget d j = Some (backprop nextDelta nextW grad j k c) /\
         forall b, b <> j -> vget d b = vget t b)
      (length (nth j nextW []))
      (fun k delta =>
         dj <- vget delta j ;;
         nk <- vget nextDelta k ;;
         wjk <- mget nextW j k ;;
         gj <- vget grad j ;;
         vset delta j (dj + nk * wjk * gj)) t)
      as (t' & Et' & Hlt' & Hj' & Hoth).
    + repeat split; auto.
    + intros k d Hk (Hld & Hdj & Hdo). rewrite Hdj. simpl.
      rewrite (vget_vnth nextDelta k) by lia. simpl.
      unfold mget. rewrite (vget_nth nextW j []) by lia. simpl.
      rewrite (vget_nth (nth j nextW []) k s_zero) by lia. simpl.
      rewrite (vget_vnth grad j) by lia. simpl.
      rewrite vset_some by lia.
      eexists. split; [reflexivity|]. split; [|split].
      * now rewrite replace_nth_length.
      * unfold vget. rewrite replace_nth_same by lia.
        now rewrite backprop_S.
      * intros b Hb. unfold vget. rewrite replace_nth_other by exact Hb.
        now apply Hdo.
    + exists t'. auto.
  - apply repeat_length.
  - intros j Hj. rewrite (vget_nth _ j s_zero); [discriminate|].
    rewrite repeat_length. exact Hj.
  - exists delta. unfold calcDelta. fold grad. rewrite Ed. simpl.
    split; [reflexivity|]. split; [exact Hld|].
    intros j Hj. rewrite Hrd, (proj2 (Nat.ltb_lt j _) Hj).
    rewrite (vget_nth _ j s_zero) by (now rewrite repeat_length).
    simpl. rewrite nth_repeat. reflexivity.
Qed.

Lemma shape_snoc (rows cols : nat) (m : list (list S)) (row : list S) :
  shape rows cols m -> length row = cols ->
  shape (Datatypes.S rows) cols (m ++ [row]).
Proof.
  intros [Hl Hall] Hrow. split.
  - rewrite length_app. simpl. lia.
  - apply Forall_app. split; [exact Hall | now constructor].
Qed.

Lemma shape_repeat (rows cols : nat) (x : S) :
  shape rows cols (repeat (repeat x cols) rows).
Proof.
  split; [apply repeat_length|]. apply Forall_forall. intros r Hr.
  apply repeat_spec in Hr as ->. apply repeat_length.
Qed.

(** the constructor returns a layer of the shape [layer_wf], with a zero
    accumulator and no sample counted *)
Lemma Layer_new_spec (inSize outSize : nat) (activationType : ActivationType)
  (rg : RandomGenerator S) :
  exists l,
    Layer_new inSize outSize activationType rg = Some l /\
    layer_wf l /\
    _inSize l = (inSize + 1)%nat /\ _outSize l = outSize /\
    _activation l = activationType /\
    _sampleCount l = 0%N /\
    _w_grad l = repeat (repeat s_zero outSize) (inSize + 1).
Proof.
  destruct (loop_inv
    (fun k (t : RandomGenerator S * list (list S) * list (list S)) =>
       shape k outSize (snd (fst t)) /\
       snd t = repeat (repeat s_zero outSize) k)
    (inSize + 1)
    (fun i '(rg, w, w_grad) =>
       '(rg, row) <-
          loop outSize (fun j '(rg, row) =>
            let '(x, rg) := rand rg in
            row <- vset row j (x / s_of_size (N.of_nat (inSize + 1))) ;;
            Some (rg, row)) (rg, repeat s_zero outSize) ;;
       Some (rg, w ++ [row], w_grad ++ [repeat s_zero outSize]))
    (rg, [], [])) as ([[rg' w] g] & E & Hw & Hg).
  - split; [split; [reflexivity | constructor] | reflexivity].
  - intros i [[rg0 w0] g0] Hi [Hw0 Hg0]. simpl in Hw0, Hg0.
    destruct (loop_inv
      (fun j (t : RandomGenerator S * list S) => length (snd t) = outSize)
      outSize
      (fun j '(rg, row) =>
         let '(x, rg) := rand rg in
         row <- vset row j (x / s_of_size (N.of_nat (inSize + 1))) ;;
         Some (rg, row)) (rg0, repeat s_zero outSize))
      as ([rg1 row] & Erow & Hrow).
    + apply repeat_length.
    + intros j [rg2 row2] Hj Hlen. simpl in Hlen. unfold rand.
      rewrite vset_some by lia. cbn [bind].
      eexists. split; [reflexivity|]. simpl. now rewrite replace_nth_length.
    + simpl in Hrow. rewrite Erow. cbn [bind].
      eexists. split; [reflexivity|]. simpl. split.
      * now apply shape_snoc.
      * rewrite Hg0. symmetry. apply repeat_cons.
  - simpl in Hw, Hg. subst g.
    eexists. unfold Layer_new. rewrite E. cbn [bind].
    split; [reflexivity|]. simpl.
    split; [|repeat split].
    unfold layer_wf. simpl. rewrite !repeat_length.
    split; [exact Hw|]. split; [apply shape_repeat|]. auto.
Qed.

(** the methods that write to a layer keep its shape *)
Lemma updateGrad_wf (delta : list S) (l : Layer S) :
  layer_wf l -> length delta = _outSize l ->
  exists l', updateGrad delta l = Some (tt, l') /\ layer_wf l'.
Proof.
  intros (Hw & Hg & Hi & Hu & Ho) Hd.
  destruct (updateGrad_spec delta l Hg) as (g & E & Hg' & _); [lia | lia |].
  eexists. split; [exact E|]. unfold layer_wf. simpl. auto.
Qed.

Lemma updateParam_wf (learningRate : S) (l : Layer S) :
  layer_wf l ->
  exists l', updateParam learningRate l = Some (tt, l') /\ layer_wf l'.
Proof.
  intros Hwf. destruct (N.eq_dec (_sampleCount l) 0) as [E0|Hc].
  - exists l. split; [now apply updateParam_noop | exact Hwf].
  - destruct Hwf as (Hw & Hg & Hi & Hu & Ho).
    destruct (updateParam_step learningRate l Hc Hw Hg)
      as (w & g & E & Hw' & Hg' & _).
    eexists. split; [exact E|]. unfold layer_wf. simpl. auto.
Qed.

End LayerSpecs.

(** ** Claims about one layer *)

Section LayerClaims.
Context {S : Type} `{Scalar S}.
Local Open Scope scalar_scope.

(** C1. On an input of length [inputSize] (so that the augmented input has
    [_inSize] entries), [Layer::forward] returns; the layer then holds the
    input with a trailing 1 as [_input], the sums
    [sum_i augmentedInput[i] * weights[i][j]] as [_u], and the activation of
    [_u] as [_output], which is also the value returned; that value has
    [_outSize] entries.  The layer keeps its shape. *)
Theorem forward_computes (input : list S) (l : Layer S) :
  layer_wf l ->
  (length input + 1)%nat = _inSize l ->
  exists out l',
    forward input l = Some (out, l') /\
    _input l' = input ++ [s_one] /\
    length (_u l') = _outSize l /\
    (forall j, j < _outSize l ->
       vget (_u l') j =
         Some (accumulate
                 (map (fun i => vnth (input ++ [s_one]) i * mnth (_w l) i j)
                      (seq 0 (_inSize l))))) /\
    _output l' = activation (make_activation (_activation l)) (_u l') /\
    out = _output l' /\
    length out = _outSize l /\
    layer_wf l'.
Proof.
  intros (Hw & Hg & Hi & Hu & Ho) Hin.
  destruct (forward_spec input l Hw Hu Hin) as (u & E & Hlu & Hval).
  eexists. eexists. split; [exact E|]. simpl.
  assert (Hout : length (activation (make_activation (_activation l)) u)
                 = _outSize l) by now rewrite activation_length.
  repeat (split; [solve [auto]|]).
  unfold layer_wf. simpl. rewrite length_app. simpl. auto.
Qed.

(** the gradient of the Sigmoid activation, entry by entry, with [sigmoid]
    written out *)
Lemma sigmoid_gradient_pointwise (input : list S) :
  length (gradient (make_activation SIGMOID) input) = length input /\
  forall i x, vget input i = Some x ->
    vget (gradient (make_activation SIGMOID) input) i =
      Some (s_one / (s_one + s_exp x)
            / (s_one - s_one / (s_one + s_exp x))).
Proof.
  split.
  - apply gradient_length.
  - intros i x E. simpl. unfold vget in *. rewrite nth_error_map, E.
    reflexivity.
Qed.

End LayerClaims.

(** ** The last element of a vector *)

Lemma last_index_snoc {A : Type} (front : list A) (x : A) :
  last_index (front ++ [x]) = Some (length front).
Proof.
  unfold last_index. rewrite length_app. simpl.
  now rewrite Nat.add_1_r.
Qed.

Lemma vget_snoc {A : Type} (front : list A) (x : A) :
  vget (front ++ [x]) (length front) = Some x.
Proof.
  unfold vget. rewrite nth_error_app2 by lia.
  now rewrite Nat.sub_diag.
Qed.

(** ** Network: the backward pass *)

Section BackwardPass.
Context {S : Type} `{Scalar S}.
Local Open Scope scalar_scope.

Lemma updateGrad_keeps (delta : list S) (l l' : Layer S) (u : unit) :
  updateGrad delta l = Some (u, l') ->
  _inSize l' = _inSize l /\ _outSize l' = _outSize l /\ _w l' = _w l /\
  _input l' = _input l /\ _u l' = _u l /\ _output l' = _output l /\
  _activation l' = _activation l /\
  _sampleCount l' = size_succ (_sampleCount l).
Proof.
  unfold updateGrad. intros E. apply bind_some in E as (g & _ & E).
  injection E as _ <-. simpl. repeat split.
Qed.

Lemma calcDelta_keeps (nextDelta : list S) (nextW : list (list S))
  (l l' : Layer S) (delta : list S) :
  calcDelta nextDelta nextW l = Some (delta, l') -> l' = l.
Proof.
  unfold calcDelta. intros E. apply bind_some in E as (d & _ & E).
  now injection E as _ <-.
Qed.

Lemma forward_keeps (input : list S) (l l' : Layer S) (out : list S) :
  forward input l = Some (out, l') ->
  _inSize l' = _inSize l /\ _outSize l' = _outSize l /\ _w l' = _w l /\
  _w_grad l' = _w_grad l /\ _sampleCount l' = _sampleCount l /\
  _activation l' = _activation l.
Proof.
  unfold forward. intros E. apply bind_some in E as (u & _ & E).
  injection E as _ <-. simpl. repeat split.
Qed.

Lemma chained_app_r (a b : list (Layer S)) : chained (a ++ b) -> chained b.
Proof.
  induction a as [|x a IH]; simpl; [auto|]. intros [_ Hc]. auto.
Qed.

Lemma backprop_calls_head (dlast : list S) (next : Layer S)
  (rest rest' : list (Layer S)) (ds : list (list S)) :
  backprop_calls dlast (next :: rest) ds rest' ->
  exists d ds' next' tl,
    ds = d :: ds' /\ rest' = next' :: tl /\
    updateGrad d next = Some (tt, next') /\
    length tl = length rest /\ length ds' = length rest.
Proof.
  revert next ds rest'. induction rest as [|b rest IH]; intros next ds rest' Hc.
  - inversion Hc; subst. do 4 eexists. repeat split; eauto.
  - inversion Hc; subst.
    match goal with
    | Hr : backprop_calls _ (b :: rest) _ _ |- _ =>
        destruct (IH _ _ _ Hr) as (d' & ds' & n' & tl & E1 & E2 & _ & L1 & L2)
    end.
    subst. do 4 eexists. repeat split; eauto; simpl; congruence.
Qed.

Lemma vget_app_mid {A : Type} (pre suf : list A) (x : A) :
  vget (pre ++ x :: suf) (length pre) = Some x.
Proof. induction pre as [|a pre IH]; simpl; auto. Qed.

Lemma vget_app_next {A : Type} (pre suf : list A) (x y : A) :
  vget (pre ++ x :: y :: suf) (length pre + 1) = Some y.
Proof. induction pre as [|a pre IH]; simpl; auto. Qed.

Lemma vset_app_mid {A : Type} (pre suf : list A) (x z : A) :
  vset (pre ++ x :: suf) (length pre) z = Some (pre ++ z :: suf).
Proof.
  rewrite vset_some by (rewrite length_app; simpl; lia). f_equal.
  induction pre as [|a pre IH]; simpl; [reflexivity | now rewrite IH].
Qed.

Lemma snoc_of_length {A : Type} (v : list A) (n : nat) :
  length v = Datatypes.S n -> exists v' x, v = v' ++ [x] /\ length v' = n.
Proof.
  intros Hl. destruct (exists_last (l := v)) as (v' & x & ->).
  { destruct v; [discriminate | congruence]. }
  exists v', x. split; [reflexivity|].
  rewrite length_app in Hl. simpl in Hl. lia.
Qed.

(** the first loop of [backward]: the delta of the output layer *)
Lemma output_delta_spec (y target : list S) :
  length y = length target ->
  exists dlast,
    loop (length y) (fun i delta =>
        yi <- vget y i ;;
        ti <- vget target i ;;
        vset delta i (yi - ti)) (repeat s_zero (length target))
    = Some dlast /\
    length dlast = length target /\
    forall i, i < length target ->
      vget dlast i = Some (vnth y i - vnth target i).
Proof.
  intros Hlen.
  destruct (sweep1 (St := list S) vget (fun v => length v = length target)
    (fun i _ => vnth y i - vnth target i) (length y)
    (fun i delta =>
        yi <- vget y i ;;
        ti <- vget target i ;;
        vset delta i (yi - ti)))
    with (s := repeat s_zero (length target)) as (d & E & Hl & Hrd).
  - intros j t c Hj Hlt Ec.
    rewrite (vget_vnth y j Hj). simpl.
    rewrite (vget_vnth target j) by lia. simpl.
    rewrite vset_some by lia.
    eexists. split; [reflexivity|]. split; [|split].
    + now rewrite replace_nth_length.
    + apply replace_nth_same. lia.
    + intros k Hk. now apply replace_nth_other.
  - apply repeat_length.
  - intros j Hj. rewrite (vget_nth _ j s_zero); [discriminate|].
    rewrite repeat_length. lia.
  - exists d. split; [exact E|]. split; [exact Hl|].
    intros i Hi. rewrite Hrd.
    rewrite (proj2 (Nat.ltb_lt i _)) by lia.
    rewrite (vget_nth _ i s_zero) by (rewrite repeat_length; lia).
    reflexivity.
Qed.

Lemma lines_step (verbose : bool) (i : nat) (d : list S)
  (ds : list (list S)) :
  lines verbose (Datatypes.S i) ds ++ print verbose i d
  = lines verbose i (d :: ds).
Proof. unfold lines, print. destruct verbose; reflexivity. Qed.

Lemma backward_calls (target : list S) (net : Network S)
  (front : list (Layer S)) (lastLayer : Layer S) :
  _layers net = front ++ [lastLayer] ->
  Forall layer_wf (_layers net) ->
  chained (_layers net) ->
  length target = _outSize lastLayer ->
  exists dlast deltas layers',
    backward target net =
      Some (lines (_verbose net) 0 deltas,
            mkNetwork (_verbose net) layers') /\
    length dlast = length target /\
    (forall i, i < length target ->
       vget dlast i = Some (vnth (_output lastLayer) i - vnth target i)) /\
    backprop_calls dlast (_layers net) deltas layers' /\
    Forall2 (fun l d => length d = _outSize l) (_layers net) deltas.
Proof.
  intros Hnet Hwf Hch Htarget.
  assert (Hlast : layer_wf lastLayer).
  { rewrite Hnet in Hwf. apply Forall_app in Hwf as [_ Hl].
    now inversion Hl. }
  destruct Hlast as (Hw & Hg & Hi & Hu & Ho).
  destruct (output_delta_spec (_output lastLayer) target)
    as (dlast & Ed & Hld & Hvd); [lia|].
  destruct (updateGrad_spec dlast lastLayer Hg) as (g & Eg & _);
    [lia | lia |].
  match type of Eg with _ = Some (tt, ?x) => set (lastLayer' := x) in * end.
  destruct (loop_down_inv
    (fun m t =>
       let '(delta, cur, out) := t in
       exists pre suf ds rest',
         _layers net = pre ++ suf /\ length pre = m /\
         backprop_calls dlast suf (delta :: ds) rest' /\
         cur = pre ++ rest' /\
         Forall2 (fun l d => length d = _outSize l) suf (delta :: ds) /\
         out = lines (_verbose net) m (delta :: ds))
    (length front)
    (fun l '(delta, layers, out) =>
       layer <- vget layers l ;;
       next <- vget layers (l + 1) ;;
       '(delta', layer1) <- calcDelta delta (_w next) layer ;;
       '(_, layer2) <- updateGrad delta' layer1 ;;
       layers' <- vset layers l layer2 ;;
       Some (delta', layers', out ++ print (_verbose net) l delta'))
    (dlast, front ++ [lastLayer'],
     print (_verbose net) (length front) dlast))
    as ([[delta cur] out] & Eloop & Hfinal).
  - exists front, [lastLayer], [], [lastLayer'].
    split; [exact Hnet|]. split; [reflexivity|].
    split; [now constructor|]. split; [reflexivity|].
    split; [constructor; [lia | constructor]|].
    unfold lines, print. destruct (_verbose net); reflexivity.
  - intros i [[delta cur] out] Hlt
      (pre & suf & ds & rest' & Hsplit & Hpre & Hcalls & Hcur & Hlens & Hout).
    destruct (snoc_of_length pre i Hpre) as (pre' & li & -> & Hpre').
    destruct suf as [|next rest]; [inversion Hcalls|].
    destruct (backprop_calls_head _ _ _ _ _ Hcalls)
      as (d0 & ds0 & next' & tl & Eds & -> & Enext & Htl & _).
    injection Eds as <- <-.
    rewrite <- app_assoc in Hsplit, Hcur. simpl in Hsplit, Hcur.
    rewrite Hsplit in Hwf, Hch.
    apply Forall_app in Hwf as [_ Hwf].
    inversion Hwf as [|? ? Hwfi Hwf']; subst.
    inversion Hwf' as [|? ? Hwfn _]; subst.
    apply chained_app_r in Hch. simpl in Hch. destruct Hch as [Hio _].
    destruct Hwfi as (Hwi & Hgi & Hii & Hui & Hoi).
    destruct Hwfn as (Hwn & _).
    inversion Hlens as [|? ? ? ? Hdn _]; subst.
    destruct (updateGrad_keeps _ _ _ _ Enext) as (_ & _ & Ewn & _).
    destruct (calcDelta_spec delta (_w next) li Hui) as (d & Ecd & Hlen & _).
    { destruct Hwn as [Hrows _]. lia. }
    { destruct Hwn as [_ Hall]. eapply Forall_impl; [|exact Hall].
      simpl. intros row ->. lia. }
    destruct (updateGrad_spec d li Hgi) as (g2 & Eug & _); [lia | lia |].
    match type of Eug with _ = Some (tt, ?x) => set (l2 := x) in * end.
    rewrite vget_app_mid. cbn [bind].
    rewrite vget_app_next. cbn [bind].
    rewrite Ewn, Ecd. cbn [bind]. rewrite Eug. cbn [bind].
    rewrite vset_app_mid. cbn [bind].
    eexists. split; [reflexivity|].
    exists pre', (li :: next :: rest), (delta :: ds), (l2 :: next' :: tl).
    split; [exact Hsplit|]. split; [reflexivity|].
    split; [eapply calls_before; eauto|]. split; [reflexivity|].
    split; [constructor; auto|].
    apply lines_step.
  - destruct Hfinal
      as (pre & suf & ds & rest' & Hsplit & Hpre & Hcalls & Hcur & Hlens & Hout).
    destruct pre; [|discriminate]. simpl in Hsplit, Hcur. subst suf cur out.
    exists dlast, (delta :: ds), rest'.
    split; [|split; [exact Hld|split; [|split]]].
    + unfold backward. rewrite Hnet, last_index_snoc. cbn [bind].
      rewrite vget_snoc. cbn [bind]. rewrite Ed. cbn [bind].
      rewrite Eg. cbn [bind].
      replace (vset (front ++ [lastLayer]) (length front) lastLayer')
        with (Some (front ++ [lastLayer'])) by (now rewrite vset_app_mid).
      cbn [bind]. rewrite Eloop. reflexivity.
    + intros i Hi'. now apply Hvd.
    + exact Hcalls.
    + exact Hlens.
Qed.

Lemma updateGrad_contrib (d : list S) (l l' : Layer S) :
  layer_wf l -> length d = _outSize l ->
  updateGrad d l = Some (tt, l') ->
  _sampleCount l' = size_succ (_sampleCount l) /\
  forall i j, i < _inSize l -> j < _outSize l ->
    mget (_w_grad l') i j =
      Some (mnth (_w_grad l) i j + vnth (_input l) i * vnth d j).
Proof.
  intros (Hw & Hg & Hi & Hu & Ho) Hd E.
  destruct (updateGrad_spec d l Hg) as (g & E' & _ & Hval); [lia | lia |].
  rewrite E' in E. injection E as <-. simpl. auto.
Qed.

Lemma backprop_calls_length (dlast : list S) (ls ls' : list (Layer S))
  (ds : list (list S)) :
  backprop_calls dlast ls ds ls' -> length ls' = length ls.
Proof. induction 1; simpl in *; congruence. Qed.

Lemma backprop_calls_contrib (dlast : list S) (ls ls' : list (Layer S))
  (ds : list (list S)) :
  backprop_calls dlast ls ds ls' ->
  Forall layer_wf ls ->
  Forall2 (fun l d => length d = _outSize l) ls ds ->
  forall k l d, vget ls k = Some l -> vget ds k = Some d ->
    exists l',
      vget ls' k = Some l' /\
      updateGrad d l = Some (tt, l') /\
      _sampleCount l' = size_succ (_sampleCount l) /\
      forall i j, i < _inSize l -> j < _outSize l ->
        mget (_w_grad l') i j =
          Some (mnth (_w_grad l) i j + vnth (_input l) i * vnth d j).
Proof.
  induction 1 as [l l' Eug | l next l' rest rest' d dnext ds Hcalls IH Ecd Eug];
    intros Hwf Hlens k lk dk Elk Edk.
  - destruct k as [|k]; [|destruct k; discriminate].
    simpl in Elk, Edk. injection Elk as <-. injection Edk as <-.
    inversion Hwf as [|? ? Hwfl _]; subst.
    inversion Hlens as [|? ? ? ? Hlen _]; subst.
    exists l'. split; [reflexivity|]. split; [exact Eug|].
    now apply updateGrad_contrib.
  - inversion Hwf as [|? ? Hwfl Hwf']; subst.
    inversion Hlens as [|? ? ? ? Hlen Hlens']; subst.
    destruct k as [|k].
    + simpl in Elk, Edk. injection Elk as <-. injection Edk as <-.
      exists l'. split; [reflexivity|]. split; [exact Eug|].
      now apply updateGrad_contrib.
    + apply (IH Hwf' Hlens' k lk dk); assumption.
Qed.

(** C2. On a network of well-shaped, chained layers and a target as long as
    the output of the last layer, [Network::backward] returns, and its
    effect is that of these calls, in this order: [updateGrad] on the last
    layer with the delta [lastOutput[i] - target[i]]; then, for each layer
    from the second-to-last down to the first, [calcDelta] with the delta
    just computed and the weights of the layer after it, and [updateGrad]
    with the result.  So every layer has one more sample counted and its
    accumulator has received one outer product of its cached input and its
    delta.  When verbose, the lines written name the layers from the last
    to the first. *)
Theorem backward_reverse_order (target : list S) (net : Network S)
  (front : list (Layer S)) (lastLayer : Layer S) :
  _layers net = front ++ [lastLayer] ->
  Forall layer_wf (_layers net) ->
  chained (_layers net) ->
  length target = _outSize lastLayer ->
  exists dlast deltas layers',
    backward target net =
      Some (lines (_verbose net) 0 deltas,
            mkNetwork (_verbose net) layers') /\
    length dlast = length target /\
    (forall i, i < length target ->
       vget dlast i = Some (vnth (_output lastLayer) i - vnth target i)) /\
    backprop_calls dlast (_layers net) deltas layers' /\
    length deltas = length (_layers net) /\
    length layers' = length (_layers net) /\
    forall k l d, vget (_layers net) k = Some l -> vget deltas k = Some d ->
      exists l',
        vget layers' k = Some l' /\
        updateGrad d l = Some (tt, l') /\
        _sampleCount l' = size_succ (_sampleCount l) /\
        forall i j, i < _inSize l -> j < _outSize l ->
          mget (_w_grad l') i j =
            Some (mnth (_w_grad l) i j + vnth (_input l) i * vnth d j).
Proof.
  intros Hnet Hwf Hch Htarget.
  destruct (backward_calls target net front lastLayer Hnet Hwf Hch Htarget)
    as (dlast & deltas & layers' & E & Hld & Hvd & Hcalls & Hlens).
  exists dlast, deltas, layers'.
  split; [exact E|]. split; [exact Hld|]. split; [exact Hvd|].
  split; [exact Hcalls|].
  split; [symmetry; eapply Forall2_length; exact Hlens|].
  split; [eapply backprop_calls_length; exact Hcalls|].
  now apply (backprop_calls_contrib dlast).
Qed.

End BackwardPass.

(** ** Network: the forward pass *)

Section ForwardPass.
Context {S : Type} `{Scalar S}.

(** [Network::forward] on chained layers returns, the result has the output
    size of the last layer, and the layers keep their shapes and sizes *)
Lemma Network_forward_spec (input : list S) (net : Network S) :
  Forall layer_wf (_layers net) ->
  chained (_layers net) ->
  input_fits input (_layers net) ->
  exists out net',
    Network_forward input net = Some (out, net') /\
    length out = last_outSize (_layers net) (length input) /\
    Forall layer_wf (_layers net') /\
    chained (_layers net') /\
    _verbose net' = _verbose net.
Proof.
  intros Hwf Hch Hfit.
  assert (Hfe : exists out layers',
    for_each (fun buffer layer => forward buffer layer) input (_layers net)
      = Some (out, layers') /\
    length out = last_outSize (_layers net) (length input) /\
    Forall layer_wf layers' /\
    map (@_inSize S) layers' = map (@_inSize S) (_layers net) /\
    map (@_outSize S) layers' = map (@_outSize S) (_layers net)).
  { revert input Hfit.
    induction (_layers net) as [|a rest IH]; intros input Hfit.
    - exists input, []. repeat split; constructor.
    - inversion Hwf as [|? ? Hwfa Hwfr]; subst.
      destruct Hch as [Hab Hchr]. simpl in Hfit.
      destruct Hwfa as (Hw & Hg & Hi & Hu & Ho).
      destruct (forward_spec input a Hw Hu Hfit) as (u & E & Hlu & _).
      match type of E with _ = Some (?o, ?x) =>
        set (out1 := o) in *; set (a' := x) in * end.
      assert (Hout1 : length out1 = _outSize a).
      { unfold out1. now rewrite activation_length. }
      destruct (IH Hwfr Hchr out1) as (out & rest' & Er & Hlo & Hwf' & Hin & Hos).
      { destruct rest as [|b rest]; simpl; [exact I | lia]. }
      exists out, (a' :: rest'). simpl. rewrite E. cbn [bind].
      rewrite Er. cbn [bind].
      split; [reflexivity|]. split; [|split; [|split]].
      + unfold last_outSize in *. simpl. rewrite Hlo.
        destruct rest; simpl; [lia | reflexivity].
      + constructor; [|exact Hwf'].
        unfold layer_wf, a'. simpl. rewrite length_app. simpl.
        repeat split; try apply Hw; try apply Hg; auto.
      + now rewrite Hin.
      + now rewrite Hos. }
  destruct Hfe as (out & layers' & E & Hlo & Hwf' & Hin & Hos).
  exists out, (mkNetwork (_verbose net) layers').
  unfold Network_forward. rewrite E. cbn [bind].
  split; [reflexivity|]. split; [exact Hlo|]. split; [exact Hwf'|].
  split; [|reflexivity]. simpl.
  clear E Hlo Hwf' Hwf Hfit. revert layers' Hin Hos.
  induction (_layers net) as [|a rest IH]; intros [|a' rest'] Hin Hos;
    try discriminate; simpl; auto.
  destruct Hch as [Hab Hchr]. injection Hin as Hia Hin.
  injection Hos as Hoa Hos. split; [|now apply IH].
  destruct rest as [|b rest], rest' as [|b' rest'']; try discriminate; auto.
  injection Hin as Hib _. congruence.
Qed.

End ForwardPass.

(** ** Network: what leaves the weights alone *)

Section Frames.
Context {S : Type} `{Scalar S}.

Lemma for_each_keeps {A X B : Type} (f : A -> X -> option (A * X))
  (g : X -> B) :
  (forall a x a1 x', f a x = Some (a1, x') -> g x' = g x) ->
  forall xs a a' xs',
    for_each f a xs = Some (a', xs') -> map g xs' = map g xs.
Proof.
  intros Hf. induction xs as [|x xs IH]; simpl; intros a a' xs' E.
  - now injection E as _ <-.
  - apply bind_some in E as ([a1 x'] & Ef & E).
    apply bind_some in E as ([a2 rest'] & Er & E).
    injection E as _ <-. simpl. f_equal; eauto.
Qed.

Lemma vset_keeps {A B : Type} (g : A -> B) (v v' : list A) (i : nat)
  (x y : A) :
  vget v i = Some y -> g x = g y -> vset v i x = Some v' ->
  map g v' = map g v.
Proof.
  intros Ey Eg Ev. apply vset_inv in Ev as [_ ->].
  revert i Ey. induction v as [|h t IH]; intros [|i] Ey; simpl in *;
    try discriminate.
  - injection Ey as ->. now rewrite Eg.
  - f_equal. now apply IH.
Qed.

Lemma backward_keeps_weights (target : list S) (net net' : Network S)
  (out : list Line) :
  backward target net = Some (out, net') ->
  map (@_w S) (_layers net') = map (@_w S) (_layers net).
Proof.
  unfold backward. intros E.
  apply bind_some in E as (last & _ & E).
  apply bind_some in E as (lastLayer & Elast & E).
  apply bind_some in E as (delta & _ & E).
  apply bind_some in E as ([u lastLayer'] & Eug & E).
  apply bind_some in E as (layers & Evs & E).
  apply bind_some in E as ([[delta' layers'] out'] & Eloop & E).
  injection E as _ <-. simpl.
  apply (loop_down_keeps
    (fun t => map (@_w S) (snd (fst t)) = map (@_w S) (_layers net)))
    in Eloop; [exact Eloop | |].
  - intros l [[d ls] o] [[d' ls'] o'] Eb Hkeep. simpl in *.
    apply bind_some in Eb as (layer & Elayer & Eb).
    apply bind_some in Eb as (next & _ & Eb).
    apply bind_some in Eb as ([d1 layer1] & Ecd & Eb).
    apply bind_some in Eb as ([u2 layer2] & Eug2 & Eb).
    apply bind_some in Eb as (ls2 & Evs2 & Eb).
    injection Eb as _ <- _.
    apply calcDelta_keeps in Ecd as ->.
    destruct (updateGrad_keeps _ _ _ _ Eug2) as (_ & _ & Ew & _).
    rewrite <- Hkeep. eapply vset_keeps; eauto.
  - simpl. destruct (updateGrad_keeps _ _ _ _ Eug) as (_ & _ & Ew & _).
    eapply vset_keeps; eauto.
Qed.

(** C9. [Layer::forward], [Layer::calcDelta], [Layer::updateGrad],
    [Network::forward], [Network::backward] and [Network::calcLoss] leave
    the weight matrix of every layer as it was. *)
Theorem weights_unchanged :
  (forall input (l l' : Layer S) out,
     forward input l = Some (out, l') -> _w l' = _w l) /\
  (forall nextDelta nextW (l l' : Layer S) delta,
     calcDelta nextDelta nextW l = Some (delta, l') -> _w l' = _w l) /\
  (forall delta (l l' : Layer S) u,
     updateGrad delta l = Some (u, l') -> _w l' = _w l) /\
  (forall input (net net' : Network S) out,
     Network_forward input net = Some (out, net') ->
     map (@_w S) (_layers net') = map (@_w S) (_layers net)) /\
  (forall target (net net' : Network S) out,
     backward target net = Some (out, net') ->
     map (@_w S) (_layers net') = map (@_w S) (_layers net)) /\
  (forall target (net net' : Network S) loss,
     calcLoss target net = Some (loss, net') ->
     map (@_w S) (_layers net') = map (@_w S) (_layers net)).
Proof.
  split; [|split; [|split; [|split; [|split]]]].
  - intros input l l' out E. now destruct (forward_keeps _ _ _ _ E) as (_ & _ & Ew & _).
  - intros nd nw l l' d E. now apply calcDelta_keeps in E as ->.
  - intros d l l' u E. now destruct (updateGrad_keeps _ _ _ _ E) as (_ & _ & Ew & _).
  - intros input net net' out E. unfold Network_forward in E.
    apply bind_some in E as ([buffer layers] & Efe & E).
    injection E as _ <-. simpl.
    eapply for_each_keeps; [|exact Efe].
    intros a x a1 x' Ef. now destruct (forward_keeps _ _ _ _ Ef) as (_ & _ & Ew & _).
  - intros target net net' out. apply backward_keeps_weights.
  - intros target net net' loss E. unfold calcLoss in E.
    apply bind_some in E as (x & _ & E). now injection E as _ <-.
Qed.

(** C10. On a network to which no layer has been added, [Network::forward]
    returns its input, whatever the input, and leaves the network as it
    is. *)
Theorem forward_no_layers (net : Network S) (input : list S) :
  _layers net = [] ->
  Network_forward input net = Some (input, net).
Proof.
  intros Hempty. destruct net as [verbose layers]. simpl in Hempty.
  subst layers. reflexivity.
Qed.

End Frames.

(** ** The loss, for every scalar type *)

Section LossFold.
Context {S : Type} `{Scalar S}.
Local Open Scope scalar_scope.

(** [calcLoss] is the loop of the code: starting from 0, each index
    subtracts [target[i] * log(output[i])] *)
Lemma calcLoss_fold (target : list S) (net : Network S)
  (front : list (Layer S)) (lastLayer : Layer S) :
  _layers net = front ++ [lastLayer] ->
  length target <= length (_output lastLayer) ->
  calcLoss target net =
    Some (fold_left
            (fun loss i =>
               loss - vnth target i * s_log (vnth (_output lastLayer) i))
            (seq 0 (length target)) s_zero,
          net).
Proof.
  intros Hnet Hlen.
  destruct (loop_inv
    (fun i loss => loss =
       fold_left
         (fun loss i =>
            loss - vnth target i * s_log (vnth (_output lastLayer) i))
         (seq 0 i) s_zero)
    (length target)
    (fun i loss =>
       ti <- vget target i ;;
       last <- last_index (_layers net) ;;
       lastLayer <- vget (_layers net) last ;;
       oi <- vget (_output lastLayer) i ;;
       Some (loss - ti * s_log oi)) s_zero)
    as (loss & E & Hloss).
  - reflexivity.
  - intros i t Hi ->. rewrite seq_S, fold_left_app. cbn [fold_left Nat.add].
    rewrite (vget_vnth target i Hi). cbn [bind].
    rewrite Hnet, last_index_snoc. cbn [bind]. rewrite vget_snoc. cbn [bind].
    rewrite (vget_vnth (_output lastLayer) i) by lia. cbn [bind].
    eexists. split; reflexivity.
  - unfold calcLoss. rewrite E. cbn [bind]. now rewrite Hloss.
Qed.

(** Softmax, entry by entry *)
Lemma softmax_map (input : list S) :
  softmax input
  = map (fun x => s_exp x / accumulate (map s_exp input)) input.
Proof. unfold softmax. now rewrite map_map. Qed.

End LossFold.

(** ** Claims of real arithmetic *)

Section RealClaims.
Local Open Scope R_scope.

Lemma accumulate_R (v : list R) (c : R) :
  fold_left Rplus v c = c + accumulate v.
Proof.
  unfold accumulate. simpl. revert c.
  induction v as [|x v IH]; intros c; simpl.
  - lra.
  - rewrite IH, (IH (0 + x)). lra.
Qed.

Lemma accumulate_cons (x : R) (v : list R) :
  accumulate (x :: v) = x + accumulate v.
Proof.
  unfold accumulate at 1. simpl. rewrite accumulate_R. lra.
Qed.

Lemma accumulate_nil : accumulate (@nil R) = 0.
Proof. reflexivity. Qed.

Lemma accumulate_app (v1 v2 : list R) :
  accumulate (v1 ++ v2) = accumulate v1 + accumulate v2.
Proof.
  induction v1 as [|x v1 IH]; simpl.
  - rewrite accumulate_nil. lra.
  - rewrite !accumulate_cons, IH. lra.
Qed.



(** C4. [Layer::updateParam] with no sample accumulated returns the layer
    as it is.  With [N > 0] samples accumulated it returns a layer whose
    weights are [w[i][j] - learningRate * w_grad[i][j] / N], whose
    accumulator entries are all zero and whose sample count is zero. *)
Theorem updateParam_formula (learningRate : R) (l : Layer R) :
  (_sampleCount l = 0%N -> updateParam learningRate l = Some (tt, l)) /\
  (_sampleCount l <> 0%N -> layer_wf l ->
   exists l',
     updateParam learningRate l = Some (tt, l') /\
     (forall i j, (i < _inSize l)%nat -> (j < _outSize l)%nat ->
        mget (_w l') i j =
          Some (mnth (_w l) i j
                - learningRate * mnth (_w_grad l) i j
                  / IZR (Z.of_N (_sampleCount l))) /\
        mget (_w_grad l') i j = Some 0) /\
     _sampleCount l' = 0%N /\
     layer_wf l').
Proof.
  split; [apply updateParam_noop|].
  intros Hc (Hw & Hg & Hi & Hu & Ho).
  destruct (updateParam_step learningRate l Hc Hw Hg)
    as (w & g & E & Hw' & Hg' & Hval).
  eexists. split; [exact E|]. simpl. split; [|split; [reflexivity|]].
  - intros i j Hi' Hj'. destruct (Hval i j Hi' Hj') as [Ew Eg].
    split; [|exact Eg]. rewrite Ew. simpl. f_equal.
    unfold Rdiv. lra.
  - unfold layer_wf. simpl. auto.
Qed.

(** C5. The gradient of the Sigmoid activation is, elementwise,
    [sigmoid(x) / (1 - sigmoid(x))] with [sigmoid(x) = 1 / (1 + exp(x))];
    this is not the textbook [sigmoid(x) * (1 - sigmoid(x))]: at [x = 0] the
    code gives 1 where the textbook formula gives 1/4. *)
Theorem sigmoid_gradient_formula :
  (forall (S : Type) (H : Scalar S) (input : list S),
     length (gradient (make_activation SIGMOID) input) = length input /\
     forall i x, vget input i = Some x ->
       vget (gradient (make_activation SIGMOID) input) i =
         Some (sigmoid x / (s_one - sigmoid x))%sc /\
       sigmoid x = (s_one / (s_one + s_exp x))%sc) /\
  gradient (make_activation SIGMOID) [0] = [1] /\
  sigmoid 0 * (1 - sigmoid 0) = 1 / 4.
Proof.
  split; [|split].
  - intros S H input.
    destruct (sigmoid_gradient_pointwise input) as [Hl Hv].
    split; [exact Hl|]. intros i x E. split; [|reflexivity].
    now rewrite (Hv i x E).
  - simpl. unfold sigmoid. simpl. rewrite exp_0. f_equal. lra.
  - unfold sigmoid. simpl. rewrite exp_0. lra.
Qed.

(** *** Softmax *)

Lemma accumulate_nonneg (v : list R) :
  Forall (fun x => 0 < x) v -> 0 <= accumulate v.
Proof.
  induction 1 as [|x v Hx _ IH].
  - rewrite accumulate_nil. lra.
  - rewrite accumulate_cons. lra.
Qed.

Lemma accumulate_pos (v : list R) :
  Forall (fun x => 0 < x) v -> v <> [] -> 0 < accumulate v.
Proof.
  intros Hall Hne. destruct Hall as [|x v Hx Hv]; [congruence|].
  rewrite accumulate_cons. pose proof (accumulate_nonneg v Hv). lra.
Qed.

Lemma accumulate_scale (v : list R) (s : R) :
  accumulate (map (fun x => x / s) v) = accumulate v / s.
Proof.
  induction v as [|x v IH]; simpl.
  - rewrite accumulate_nil. unfold Rdiv. lra.
  - rewrite !accumulate_cons, IH. unfold Rdiv. lra.
Qed.

Lemma accumulate_bounds (v : list R) (x : R) :
  Forall (fun x => 0 < x) v -> In x v ->
  x <= accumulate v /\ ((2 <= length v)%nat -> x < accumulate v).
Proof.
  intros Hall Hin. apply in_split in Hin as (v1 & v2 & ->).
  apply Forall_app in Hall as [H1 H2]. inversion H2 as [|? ? Hx H2']; subst.
  rewrite accumulate_app, accumulate_cons.
  pose proof (accumulate_nonneg v1 H1). pose proof (accumulate_nonneg v2 H2').
  split; [lra|]. intros Hlen. rewrite length_app in Hlen. simpl in Hlen.
  destruct v1 as [|a v1].
  - destruct v2 as [|b v2]; [simpl in Hlen; lia|].
    pose proof (accumulate_pos (b :: v2) H2' ltac:(discriminate)). lra.
  - pose proof (accumulate_pos (a :: v1) H1 ltac:(discriminate)). lra.
Qed.

Lemma exp_all_pos (input : list R) : Forall (fun x => 0 < x) (map exp input).
Proof.
  apply Forall_forall. intros y Hy. apply in_map_iff in Hy as (x & <- & _).
  apply exp_pos.
Qed.

Lemma softmax_entry (input : list R) (i : nat) (x : R) :
  vget input i = Some x ->
  vget (softmax input) i = Some (exp x / accumulate (map exp input)).
Proof.
  intros Ex. unfold softmax. cbn [s_exp s_div R_scalar]. unfold vget in *.
  rewrite !nth_error_map, Ex. reflexivity.
Qed.

Lemma exp_sum_pos (input : list R) :
  input <> [] -> 0 < accumulate (map exp input).
Proof.
  intros Hne. apply accumulate_pos; [apply exp_all_pos|].
  destruct input; [congruence | discriminate].
Qed.

Lemma loss_fold_R (f : nat -> R) (n : nat) :
  fold_left (fun loss i => loss - f i) (seq 0 n) 0
  = - accumulate (map f (seq 0 n)).
Proof.
  induction n as [|n IH].
  - simpl. rewrite accumulate_nil. lra.
  - rewrite accumulate_seq_S, seq_S, fold_left_app, IH.
    cbn [fold_left Nat.add s_add R_scalar]. lra.
Qed.

(** in exact arithmetic every entry of a Softmax output is positive *)
Lemma softmax_pos (input : list R) (i : nat) :
  (i < length input)%nat -> 0 < vnth (softmax input) i.
Proof.
  intros Hi.
  assert (Hne : input <> []) by (intros ->; simpl in Hi; lia).
  pose proof (softmax_entry input i (vnth input i) (vget_vnth input i Hi))
    as Es.
  unfold vnth at 1. rewrite (nth_error_nth _ _ _ Es).
  apply Rdiv_lt_0_compat; [apply exp_pos | now apply exp_sum_pos].
Qed.

(** C7 as stated fails on the one-element vector [[0]], whose softmax is
    [[1]] (not strictly below 1), and on the empty vector, whose softmax is
    empty and sums to 0. *)
Lemma softmax_bounds_fail :
  ~ (accumulate (softmax [0]) = 1 /\
     forall y, In y (softmax [0]) -> 0 < y < 1) /\
  ~ (accumulate (softmax (@nil R)) = 1 /\
     forall y, In y (softmax (@nil R)) -> 0 < y < 1).
Proof.
  split.
  - intros [_ Hall]. specialize (Hall 1). unfold softmax in Hall.
    simpl in Hall. rewrite exp_0 in Hall.
    assert (Hin : 1 / accumulate [1] = 1 \/ False).
    { left. rewrite accumulate_cons, accumulate_nil. lra. }
    specialize (Hall Hin). lra.
  - intros [Hsum _]. unfold softmax in Hsum. simpl in Hsum.
    rewrite accumulate_nil in Hsum. lra.
Qed.

(** Over the real numbers, where [exp] neither underflows nor overflows and
    nothing is rounded: on a non-empty vector the Softmax sums to 1 and
    every element is positive and at most 1; on a vector of at least two
    elements every element is strictly between 0 and 1. *)
Lemma softmax_real_bounds (input : list R) :
  activation (make_activation SOFTMAX) input =
    map (fun x => exp x / accumulate (map exp input)) input /\
  (input <> [] ->
   accumulate (activation (make_activation SOFTMAX) input) = 1 /\
   forall y, In y (activation (make_activation SOFTMAX) input) ->
     0 < y <= 1) /\
  ((2 <= length input)%nat ->
   forall y, In y (activation (make_activation SOFTMAX) input) -> 0 < y < 1).
Proof.
  simpl. unfold softmax. simpl.
  pose proof (exp_all_pos input) as Hpos.
  assert (Hsum : input <> [] -> 0 < accumulate (map exp input)).
  { intros Hne. apply accumulate_pos; [exact Hpos|].
    destruct input; [congruence | discriminate]. }
  assert (Hel : forall y,
    In y (map (fun x => x / accumulate (map exp input)) (map exp input)) ->
    exists e, In e (map exp input) /\ 0 < e /\
              y = e / accumulate (map exp input)).
  { intros y Hy. apply in_map_iff in Hy as (e & <- & He).
    exists e. split; [exact He|]. split; [|reflexivity].
    rewrite Forall_forall in Hpos. now apply Hpos. }
  split; [now rewrite map_map|]. split.
  - intros Hne. specialize (Hsum Hne). split.
    + rewrite accumulate_scale. now apply Rdiv_diag, Rgt_not_eq.
    + intros y Hy. destruct (Hel y Hy) as (e & He & Hepos & ->).
      destruct (accumulate_bounds _ e Hpos He) as [Hle _].
      split.
      * now apply Rdiv_lt_0_compat.
      * apply Rmult_le_reg_r with (r := accumulate (map exp input));
          [exact Hsum|]. unfold Rdiv. rewrite Rmult_assoc, Rinv_l; lra.
  - intros Hlen y Hy. destruct (Hel y Hy) as (e & He & Hepos & ->).
    assert (Hne : input <> []) by (destruct input; simpl in Hlen; [lia | discriminate]).
    specialize (Hsum Hne).
    destruct (accumulate_bounds _ e Hpos He) as [_ Hlt].
    rewrite length_map in Hlt. specialize (Hlt Hlen).
    split.
    + now apply Rdiv_lt_0_compat.
    + apply Rmult_lt_reg_r with (r := accumulate (map exp input));
        [exact Hsum|]. unfold Rdiv. rewrite Rmult_assoc, Rinv_l; lra.
Qed.

(** C7, amended.  For every scalar type, Softmax returns
    [exp(x_i) / sum_j exp(x_j)] entry by entry, the sum taken over the
    whole vector from left to right starting at 0; the output is as long
    as the input.  Bounds on the entries are not part of it: a vector of
    one element gives 1, the empty vector gives the empty vector, and in
    [double] an entry can be exactly 0, exactly 1 or NaN. *)
Theorem softmax_formula :
  forall (S : Type) (HS : Scalar S) (input : list S),
    activation (make_activation SOFTMAX) input =
      map (fun x => s_div (s_exp x) (accumulate (map s_exp input))) input /\
    length (activation (make_activation SOFTMAX) input) = length input /\
    forall i x,
      vget input i = Some x ->
      vget (activation (make_activation SOFTMAX) input) i =
        Some (s_div (s_exp x) (accumulate (map s_exp input))).
Proof.
  intros S HS input. cbn [activation make_activation SoftmaxActivation].
  rewrite softmax_map. split; [reflexivity|]. split.
  - apply length_map.
  - intros i x Ex. unfold vget in *. now rewrite nth_error_map, Ex.
Qed.

(** *** Loss *)

(** C8.  For a target as long as the output of the last layer,
    [Network::calcLoss] leaves the network as it is and returns, for every
    scalar type, what its loop computes: from 0, minus
    [target[i] * log(output[i])] for each index in turn, where [output] is
    the [_output] the last layer holds.  In real arithmetic, when every
    [output[i]] is positive, so that each logarithm is defined, this is
    [-(sum_i target[i] * ln(output[i]))]. *)
Theorem calcLoss_formula :
  (forall (S : Type) (HS : Scalar S) (target : list S) (net : Network S)
          (front : list (Layer S)) (lastLayer : Layer S),
     _layers net = front ++ [lastLayer] ->
     length target = length (_output lastLayer) ->
     calcLoss target net =
       Some (fold_left
               (fun loss i =>
                  s_sub loss
                    (s_mul (vnth target i)
                           (s_log (vnth (_output lastLayer) i))))
               (seq 0 (length target)) s_zero,
             net)) /\
  (forall (target : list R) (net : Network R)
          (front : list (Layer R)) (lastLayer : Layer R),
     _layers net = front ++ [lastLayer] ->
     length target = length (_output lastLayer) ->
     (forall i, (i < length target)%nat -> 0 < vnth (_output lastLayer) i) ->
     calcLoss target net =
       Some (- accumulate
                 (map (fun i => vnth target i
                                * ln (vnth (_output lastLayer) i))
                      (seq 0 (length target))),
             net)).
Proof.
  split.
  - intros S HS target net front lastLayer Hnet Hlen.
    apply (calcLoss_fold target net front lastLayer Hnet). lia.
  - intros target net front lastLayer Hnet Hlen _.
    rewrite (calcLoss_fold target net front lastLayer Hnet) by lia.
    cbn [s_sub s_mul s_log s_zero R_scalar].
    now rewrite (loss_fold_R
      (fun i => vnth target i * ln (vnth (_output lastLayer) i))).
Qed.

(** *** Accumulating identical samples *)

Lemma size_succ_iter (n : nat) (c : N) :
  Nat.iter n size_succ c = ((c + N.of_nat n) mod size_max)%N ->
  Nat.iter (S n) size_succ c = ((c + N.of_nat (S n)) mod size_max)%N.
Proof.
  intros IH. simpl. rewrite IH. unfold size_succ.
  rewrite N.Div0.add_mod_idemp_l. f_equal. lia.
Qed.

Lemma size_succ_times (n : nat) :
  (N.of_nat n < size_max)%N -> Nat.iter n size_succ 0%N = N.of_nat n.
Proof.
  intros Hn.
  assert (E : forall k c,
    (c < size_max)%N ->
    Nat.iter k size_succ c = ((c + N.of_nat k) mod size_max)%N).
  { induction k as [|k IH]; intros c Hc.
    - simpl. rewrite N.add_0_r. symmetry. now apply N.mod_small.
    - apply size_succ_iter. now apply IH. }
  rewrite E by reflexivity. simpl. now apply N.mod_small.
Qed.

Lemma mnth_of_mget (rows cols : nat) (m : list (list R)) (i j : nat) (x : R) :
  shape rows cols m -> (i < rows)%nat -> (j < cols)%nat ->
  mget m i j = Some x -> mnth m i j = x.
Proof.
  intros Hs Hi Hj E. rewrite (mget_mnth _ _ _ i j Hs Hi Hj) in E. congruence.
Qed.

Lemma updateGrad_times_spec (n : nat) (delta : list R) (l : Layer R) :
  shape (_inSize l) (_outSize l) (_w_grad l) ->
  (_inSize l <= length (_input l))%nat ->
  (_outSize l <= length delta)%nat ->
  exists g,
    updateGrad_times n delta l =
      Some (mkLayer (_inSize l) (_outSize l)
              (Nat.iter n size_succ (_sampleCount l))
              (_w l) g (_input l) (_u l) (_output l) (_activation l)) /\
    shape (_inSize l) (_outSize l) g /\
    forall i j, (i < _inSize l)%nat -> (j < _outSize l)%nat ->
      mget g i j =
        Some (mnth (_w_grad l) i j
              + INR n * (vnth (_input l) i * vnth delta j)).
Proof.
  intros Hs Hin Hd.
  destruct (loop_inv
    (fun k t => exists g,
       t = mkLayer (_inSize l) (_outSize l)
             (Nat.iter k size_succ (_sampleCount l))
             (_w l) g (_input l) (_u l) (_output l) (_activation l) /\
       shape (_inSize l) (_outSize l) g /\
       forall i j, (i < _inSize l)%nat -> (j < _outSize l)%nat ->
         mget g i j =
           Some (mnth (_w_grad l) i j
                 + INR k * (vnth (_input l) i * vnth delta j)))
    n (fun _ l => '(_, l') <- updateGrad delta l ;; Some l') l)
    as (t & E & g & -> & Hg & Hval).
  - exists (_w_grad l). split; [now destruct l|]. split; [exact Hs|].
    intros i j Hi Hj. rewrite (mget_mnth _ _ _ i j Hs Hi Hj). simpl.
    f_equal. lra.
  - intros k t Hk (g & -> & Hg & Hval).
    destruct (updateGrad_spec delta
      (mkLayer (_inSize l) (_outSize l)
         (Nat.iter k size_succ (_sampleCount l))
         (_w l) g (_input l) (_u l) (_output l) (_activation l)))
      as (g' & E' & Hg' & Hval'); simpl; auto.
    cbn [_inSize _outSize _sampleCount _w _w_grad _input _u _output
         _activation] in *.
    rewrite E'. cbn [bind].
    eexists. split; [reflexivity|]. exists g'.
    split; [reflexivity|]. split; [exact Hg'|].
    intros i j Hi Hj. rewrite (Hval' i j Hi Hj).
    rewrite (mnth_of_mget _ _ _ i j _ Hg Hi Hj (Hval i j Hi Hj)).
    change (match k with O => 1 | Datatypes.S _ => INR k + 1 end)
      with (INR (Datatypes.S k)).
    rewrite S_INR. simpl. f_equal. lra.
  - exists g. auto.
Qed.

(** C6 as stated fails on a layer that already holds a sample.  Take the
    layer [Layer(0, 1, SOFTMAX)] whose one weight was drawn as 1/2, after
    [forward] on the empty input and one [updateGrad] with delta [[3]]
    (accumulator 3, one sample).  Two more calls with delta [[1]] and
    [updateParam(1)] give the weight [1/2 - 5/3]; one more call and
    [updateParam(1)] give [1/2 - 4/2]. *)
Lemma identical_samples_fail :
  exists l0 out lf l lN lN' l1 l1',
    Layer_new 0 1 SOFTMAX halves = Some l0 /\
    forward [] l0 = Some (out, lf) /\
    updateGrad [3] lf = Some (tt, l) /\
    updateGrad_times 2 [1] l = Some lN /\
    updateParam 1 lN = Some (tt, lN') /\
    updateGrad [1] l = Some (tt, l1) /\
    updateParam 1 l1 = Some (tt, l1') /\
    _w lN' <> _w l1'.
Proof.
  do 8 eexists.
  do 7 (split; [reflexivity|]).
  simpl. intros E. injection E as E. lra.
Qed.

(** C6, amended.  In real arithmetic: from a layer whose accumulator is
    zero and whose sample count is zero, [N] calls of [updateGrad] with the
    same delta ([1 <= N < 2^64], the range of the [size_t] counter)
    followed by [updateParam] give the same weights as one call followed
    by [updateParam], namely
    [w[i][j] - learningRate * (input[i] * delta[j])].  In [double] the
    mean of [N] equal terms is rounded, and the two can differ in the last
    digit. *)
Theorem identical_samples_mean (n : nat) (delta : list R)
  (learningRate : R) (l : Layer R) :
  layer_wf l ->
  length delta = _outSize l ->
  _sampleCount l = 0%N ->
  (forall i j, (i < _inSize l)%nat -> (j < _outSize l)%nat ->
     mnth (_w_grad l) i j = 0) ->
  (1 <= n)%nat ->
  (N.of_nat n < size_max)%N ->
  exists lN lN' l1 l1',
    updateGrad_times n delta l = Some lN /\
    updateParam learningRate lN = Some (tt, lN') /\
    updateGrad delta l = Some (tt, l1) /\
    updateParam learningRate l1 = Some (tt, l1') /\
    _w lN' = _w l1' /\
    forall i j, (i < _inSize l)%nat -> (j < _outSize l)%nat ->
      mget (_w l1') i j =
        Some (mnth (_w l) i j
              - learningRate * (vnth (_input l) i * vnth delta j)).
Proof.
  intros (Hw & Hg & Hi & Hu & Ho) Hd Hc Hzero Hn Hmax.
  destruct (updateGrad_times_spec n delta l Hg) as (gN & EN & HgN & HvN);
    [lia | lia |].
  destruct (updateGrad_spec delta l Hg) as (g1 & E1 & Hg1 & Hv1);
    [lia | lia |].
  rewrite Hc, size_succ_times in EN by exact Hmax.
  rewrite Hc in E1. change (size_succ 0) with 1%N in E1.
  match type of EN with _ = Some ?x => set (lN := x) in * end.
  match type of E1 with _ = Some (tt, ?x) => set (l1 := x) in * end.
  destruct (updateParam_step learningRate lN) as (wN & gN' & EN' & HwN & _ & HN);
    [simpl; lia | exact Hw | exact HgN |].
  destruct (updateParam_step learningRate l1) as (w1 & g1' & E1' & Hw1 & _ & H1);
    [simpl; lia | exact Hw | exact Hg1 |].
  do 4 eexists.
  split; [exact EN|]. split; [exact EN'|]. split; [exact E1|].
  split; [exact E1'|].
  cbn [_w].
  assert (Hone : forall i j, (i < _inSize l)%nat -> (j < _outSize l)%nat ->
    mget w1 i j =
      Some (mnth (_w l) i j
            - learningRate * (vnth (_input l) i * vnth delta j))).
  { intros i j Hi' Hj'. destruct (H1 i j Hi' Hj') as [-> _]. simpl.
    rewrite (mnth_of_mget _ _ _ i j _ Hg1 Hi' Hj' (Hv1 i j Hi' Hj')).
    rewrite (Hzero i j Hi' Hj'). simpl. f_equal. field. }
  split; [|exact Hone].
  apply (matrix_ext (_inSize l) (_outSize l)); [exact HwN | exact Hw1 |].
  intros i j Hi' Hj'.
  rewrite (Hone i j Hi' Hj').
  destruct (HN i j Hi' Hj') as [-> _].
  simpl.
  rewrite (mnth_of_mget _ _ _ i j _ HgN Hi' Hj' (HvN i j Hi' Hj')).
  rewrite (Hzero i j Hi' Hj'). simpl.
  rewrite nat_N_Z, <- INR_IZR_INZ.
  assert (Hpos : INR n <> 0) by (apply not_0_INR; lia).
  f_equal. field. exact Hpos.
Qed.

End RealClaims.

(** ** The claims on the small network *)

(** Each theorem above that has a premise is applied here to the sample
    layers and network, the premises being checked by evaluation. *)

Section Runs.
Local Open Scope R_scope.

Ltac shapes :=
  unfold layer_wf, shape; simpl; repeat split; repeat constructor.

Lemma forward_computes_witness :
  exists out l',
    forward [5] sample_hidden = Some (out, l') /\ length out = 2%nat.
Proof.
  destruct (forward_computes [5] sample_hidden)
    as (out & l' & E & _ & _ & _ & _ & _ & Hl & _);
    [shapes | reflexivity |].
  exists out, l'. split; assumption.
Defined.

Lemma backward_reverse_order_witness :
  exists out net',
    backward [1; 0] sample_net = Some (out, net') /\
    length (_layers net') = 2%nat.
Proof.
  destruct (backward_reverse_order [1; 0] sample_net
              [sample_hidden] sample_output)
    as (dlast & deltas & layers' & E & _ & _ & _ & _ & Hl & _);
    [reflexivity | repeat constructor; shapes | simpl; auto | reflexivity |].
  eexists. eexists. split; [exact E | exact Hl].
Defined.


Lemma updateParam_formula_witness :
  updateParam (1 / 10) sample_hidden = Some (tt, sample_hidden) /\
  exists l',
    updateParam (1 / 10)
      (mkLayer 2 2 2%N [[1; 2]; [3; 4]] [[1; 1]; [2; 2]]
         [0; 0] [0; 0] [0; 0] SIGMOID) = Some (tt, l') /\
    _sampleCount l' = 0%N.
Proof.
  split.
  - apply (proj1 (updateParam_formula (1 / 10) sample_hidden)). reflexivity.
  - destruct (proj2 (updateParam_formula (1 / 10)
        (mkLayer 2 2 2%N [[1; 2]; [3; 4]] [[1; 1]; [2; 2]]
           [0; 0] [0; 0] [0; 0] SIGMOID)))
      as (l' & E & _ & Hc & _); [discriminate | shapes |].
    exists l'. split; assumption.
Defined.

Lemma sigmoid_gradient_formula_witness :
  vget (gradient (make_activation SIGMOID) [0]) 0
  = Some (sigmoid 0 / (1 - sigmoid 0)).
Proof.
  destruct sigmoid_gradient_formula as [Hg _].
  destruct (Hg R R_scalar [0]) as [_ Hv].
  apply (Hv 0%nat 0). reflexivity.
Defined.

Lemma identical_samples_mean_witness :
  exists out lN lN' l1 l1',
    forward [5] sample_hidden = Some (out, sample_hidden_run) /\
    updateGrad_times 3 [1; 2] sample_hidden_run = Some lN /\
    updateParam (1 / 10) lN = Some (tt, lN') /\
    updateGrad [1; 2] sample_hidden_run = Some (tt, l1) /\
    updateParam (1 / 10) l1 = Some (tt, l1') /\
    _w lN' = _w l1' /\
    mget (_w l1') 0 1 = Some (2 - 1 / 10 * (5 * 2)).
Proof.
  destruct (identical_samples_mean 3 [1; 2] (1 / 10) sample_hidden_run)
    as (lN & lN' & l1 & l1' & EN & EN' & E1 & E1' & Hw & Hv);
    [shapes | reflexivity | reflexivity | | lia | reflexivity |].
  - intros i j Hi Hj. simpl in Hi, Hj.
    destruct i as [|[|i]]; destruct j as [|[|j]]; try lia; reflexivity.
  - eexists. exists lN, lN', l1, l1'.
    split; [reflexivity|].
    do 5 (split; [assumption|]).
    apply (Hv 0%nat 1%nat); simpl; lia.
Defined.

Lemma softmax_formula_witness :
  vget (activation (make_activation SOFTMAX) [0; 1]) 1
  = Some (exp 1 / accumulate (map exp [0; 1])).
Proof.
  destruct (softmax_formula R R_scalar [0; 1]) as (_ & _ & H).
  apply (H 1%nat 1). reflexivity.
Defined.

Lemma calcLoss_formula_witness :
  exists out loss,
    Network_forward [5] sample_net = Some (out, sample_net_run) /\
    calcLoss [1; 0] sample_net_run = Some (loss, sample_net_run).
Proof.
  do 2 eexists. split; [reflexivity|].
  apply (proj2 calcLoss_formula [1; 0] sample_net_run
           [sample_hidden_run]
           (nth 1 (_layers sample_net_run) sample_output));
    [reflexivity | reflexivity |].
  intros i Hi. apply (softmax_pos _ i). exact Hi.
Defined.

Lemma forward_no_layers_witness :
  Network_forward [5; 7] (Network_new true) = Some ([5; 7], Network_new true).
Proof. apply forward_no_layers. reflexivity. Defined.

Lemma weights_unchanged_witness :
  (exists out l',
     forward [5] sample_hidden = Some (out, l') /\
     _w l' = _w sample_hidden) /\
  (exists delta l',
     calcDelta [1; 2] (_w sample_output) sample_hidden = Some (delta, l') /\
     _w l' = _w sample_hidden) /\
  (exists l',
     updateGrad [1; 2] sample_hidden = Some (tt, l') /\
     _w l' = _w sample_hidden) /\
  (exists out net',
     Network_forward [5] sample_net = Some (out, net') /\
     map (@_w R) (_layers net') = map (@_w R) (_layers sample_net)) /\
  (exists out net',
     backward [1; 0] sample_net = Some (out, net') /\
     map (@_w R) (_layers net') = map (@_w R) (_layers sample_net)) /\
  (exists loss net',
     calcLoss [1; 0] sample_net = Some (loss, net') /\
     map (@_w R) (_layers net') = map (@_w R) (_layers sample_net)).
Proof.
  destruct (@weights_unchanged R R_scalar) as (F1 & F2 & F3 & F4 & F5 & F6).
  split; [|split; [|split; [|split; [|split]]]].
  - do 2 eexists. split; [reflexivity|].
    apply (F1 [5] sample_hidden _ _ eq_refl).
  - do 2 eexists. split; [reflexivity|].
    apply (F2 [1; 2] (_w sample_output) sample_hidden _ _ eq_refl).
  - eexists. split; [reflexivity|].
    apply (F3 [1; 2] sample_hidden _ tt eq_refl).
  - do 2 eexists. split; [reflexivity|].
    apply (F4 [5] sample_net _ _ eq_refl).
  - do 2 eexists. split; [reflexivity|].
    apply (F5 [1; 0] sample_net _ _ eq_refl).
  - do 2 eexists. split; [reflexivity|].
    apply (F6 [1; 0] sample_net _ _ eq_refl).
Defined.

End Runs.

(** * Beyond the claims: the rest of the code *)

(** ** Activations *)

Section RealActivations.
Local Open Scope R_scope.

Lemma relu_entry (x : R) :
  (if s_gt0 x then x else 0) = Rmax 0 x /\
  (if s_gt0 x then 1 else 0) * x = Rmax 0 x.
Proof.
  simpl. unfold Rmax. destruct (Rlt_dec 0 x) as [Hx|Hx].
  - destruct (Rle_dec 0 x); lra.
  - destruct (Rle_dec 0 x); lra.
Qed.

(** X1. The ReLU activation returns [max(0, x)] entry by entry and the
    ReLU gradient 1 where the input is positive and 0 elsewhere, at 0 too.
    So no output is negative, applying the activation twice is applying it
    once, and each output is the input times the gradient at that input. *)
Theorem relu_properties (input : list R) :
  activation (make_activation RELU) input = map (Rmax 0) input /\
  gradient (make_activation RELU) input
  = map (fun x => if Rlt_dec 0 x then 1 else 0) input /\
  (forall y, In y (activation (make_activation RELU) input) -> 0 <= y) /\
  activation (make_activation RELU) (activation (make_activation RELU) input)
  = activation (make_activation RELU) input /\
  forall i x,
    vget input i = Some x ->
    vget (gradient (make_activation RELU) input) i
    = Some (if Rlt_dec 0 x then 1 else 0) /\
    vget (activation (make_activation RELU) input) i
    = Some ((if Rlt_dec 0 x then 1 else 0) * x).
Proof.
  assert (E : forall v : list R,
    activation (make_activation RELU) v = map (Rmax 0) v).
  { intros v. simpl. apply map_ext. intros x. apply relu_entry. }
  assert (G : forall v : list R,
    gradient (make_activation RELU) v
    = map (fun x => if Rlt_dec 0 x then 1 else 0) v).
  { intros v. simpl. apply map_ext. intros x.
    destruct (Rlt_dec 0 x); reflexivity. }
  split; [apply E|]. split; [apply G|]. split; [|split].
  - intros y Hy. rewrite E in Hy. apply in_map_iff in Hy as (x & <- & _).
    apply Rmax_l.
  - rewrite !E, map_map. apply map_ext. intros x.
    unfold Rmax. destruct (Rle_dec 0 x) as [Hx|Hx];
      [destruct (Rle_dec 0 x) | destruct (Rle_dec 0 0)]; lra.
  - intros i x Ex. rewrite E, G. unfold vget in *.
    rewrite !nth_error_map, Ex. cbn [option_map]. split; [reflexivity|].
    f_equal. unfold Rmax.
    destruct (Rlt_dec 0 x); destruct (Rle_dec 0 x); lra.
Qed.

Lemma sigmoid_R (x : R) : sigmoid x = / (1 + exp x).
Proof. unfold sigmoid. simpl. unfold Rdiv. lra. Qed.

Lemma sigmoid_bounds (x : R) : 0 < sigmoid x < 1.
Proof.
  rewrite sigmoid_R. pose proof (exp_pos x) as He. split.
  - apply Rinv_0_lt_compat. lra.
  - rewrite <- Rinv_1 at 2. apply Rinv_lt_contravar; lra.
Qed.

Lemma sigmoid_gradient_entry (x : R) :
  sigmoid x / (1 - sigmoid x) = exp (- x).
Proof.
  rewrite sigmoid_R, exp_Ropp. pose proof (exp_pos x). field. split; lra.
Qed.

(** *** Gradients against derivatives *)

Lemma sigmoid_derivative (x : R) :
  derivable_pt_lim sigmoid x (- (sigmoid x * (1 - sigmoid x))).
Proof.
  apply (derivable_pt_lim_ext (fct_cte 1 / (fct_cte 1 + exp))%F).
  - intros y. reflexivity.
  - replace (- (sigmoid x * (1 - sigmoid x)))
      with ((0 * (fct_cte 1 + exp)%F x - (0 + exp x) * fct_cte 1 x)
            / Rsqr ((fct_cte 1 + exp)%F x)).
    + apply derivable_pt_lim_div.
      * apply derivable_pt_lim_const.
      * apply derivable_pt_lim_plus;
          [apply derivable_pt_lim_const | apply derivable_pt_lim_exp].
      * unfold plus_fct, fct_cte. pose proof (exp_pos x). lra.
    + rewrite sigmoid_R. unfold plus_fct, fct_cte, Rsqr.
      pose proof (exp_pos x). field. lra.
Qed.

(** X6. The derivative of the function [sigmoid] of the code at [x] is
    [-(sigmoid(x) * (1 - sigmoid(x)))], a negative number, while the
    Sigmoid gradient returns a positive number at every entry: at no input
    does the gradient return the derivative of the activation. *)
Theorem sigmoid_gradient_not_derivative (x : R) :
  derivable_pt_lim sigmoid x (- (sigmoid x * (1 - sigmoid x))) /\
  - (sigmoid x * (1 - sigmoid x)) < 0 /\
  forall d, derivable_pt_lim sigmoid x d ->
    gradient (make_activation SIGMOID) [x] <> [d].
Proof.
  pose proof (sigmoid_bounds x) as Hs.
  split; [apply sigmoid_derivative|]. split; [nra|].
  intros d Hd E.
  assert (Ed : d = - (sigmoid x * (1 - sigmoid x))).
  { eapply uniqueness_limite; [exact Hd | apply sigmoid_derivative]. }
  injection E as E. change (sigmoid x / (1 - sigmoid x) = d) in E.
  rewrite sigmoid_gradient_entry in E.
  pose proof (exp_pos (- x)). nra.
Qed.

Lemma swish_derivative (x : R) :
  derivable_pt_lim swish x
    (sigmoid x - x * (sigmoid x * (1 - sigmoid x))).
Proof.
  apply (derivable_pt_lim_ext (id * sigmoid)%F).
  - intros y. reflexivity.
  - replace (sigmoid x - x * (sigmoid x * (1 - sigmoid x)))
      with (1 * sigmoid x + id x * - (sigmoid x * (1 - sigmoid x)))
      by (unfold id; ring).
    apply derivable_pt_lim_mult;
      [apply derivable_pt_lim_id | apply sigmoid_derivative].
Qed.

(** X7. The derivative of [swish] at [x] is
    [sigmoid(x) - x * sigmoid(x) * (1 - sigmoid(x))]; [swishGradient]
    returns [sigmoid(x) + x * sigmoid(x) * (1 - sigmoid(x))], which is that
    derivative at [x = 0] and at no other [x]. *)
Theorem swishGradient_against_derivative (x : R) :
  derivable_pt_lim swish x
    (sigmoid x - x * (sigmoid x * (1 - sigmoid x))) /\
  swishGradient x = sigmoid x + x * (sigmoid x * (1 - sigmoid x)) /\
  (derivable_pt_lim swish x (swishGradient x) <-> x = 0).
Proof.
  pose proof (sigmoid_bounds x) as Hs.
  assert (Eg : swishGradient x
               = sigmoid x + x * (sigmoid x * (1 - sigmoid x))).
  { unfold swishGradient, swish. cbn [s_add s_sub s_mul s_one R_scalar].
    ring. }
  split; [apply swish_derivative|]. split; [exact Eg|]. split.
  - intros Hd.
    assert (E : swishGradient x
                = sigmoid x - x * (sigmoid x * (1 - sigmoid x))).
    { eapply uniqueness_limite; [exact Hd | apply swish_derivative]. }
    rewrite Eg in E.
    assert (Hp : 0 < sigmoid x * (1 - sigmoid x)) by nra.
    nra.
  - intros ->. rewrite Eg.
    replace (sigmoid 0 + 0 * (sigmoid 0 * (1 - sigmoid 0)))
      with (sigmoid 0 - 0 * (sigmoid 0 * (1 - sigmoid 0))) by ring.
    apply swish_derivative.
Qed.

Lemma relu_R (x : R) : (if s_gt0 x then x else 0) = Rmax 0 x.
Proof. apply relu_entry. Qed.

(** X8. Away from 0 the ReLU gradient is the derivative of the ReLU
    activation: at [x > 0] the activation has derivative 1 and the gradient
    returns 1, at [x < 0] the activation has derivative 0 and the gradient
    returns 0. *)
Theorem relu_gradient_is_derivative (x : R) :
  x <> 0 ->
  exists g,
    gradient (make_activation RELU) [x] = [g] /\
    derivable_pt_lim (Rmax 0) x g /\
    (forall y, activation (make_activation RELU) [y] = [Rmax 0 y]).
Proof.
  intros Hx.
  assert (Hact : forall y, activation (make_activation RELU) [y] = [Rmax 0 y]).
  { intros y. cbn [activation make_activation ReLuActivation map].
    now rewrite relu_R. }
  cbn [gradient make_activation ReLuActivation map s_gt0 R_scalar].
  destruct (Rlt_dec 0 x) as [Hpos|Hneg].
  - exists 1. split; [reflexivity|]. split; [|exact Hact].
    intros eps Heps. exists (mkposreal x Hpos). simpl.
    intros h Hh Hhd.
    assert (Hxh : 0 < x + h).
    { unfold Rabs in Hhd. destruct (Rcase_abs h); lra. }
    rewrite !Rmax_right by lra.
    replace ((x + h - x) / h - 1) with 0 by (field; exact Hh).
    rewrite Rabs_R0. exact Heps.
  - assert (Hlt : x < 0) by lra.
    assert (Hnx : 0 < - x) by lra.
    exists 0. split; [reflexivity|]. split; [|exact Hact].
    intros eps Heps. exists (mkposreal (- x) Hnx). simpl.
    intros h Hh Hhd.
    assert (Hxh : x + h < 0).
    { unfold Rabs in Hhd. destruct (Rcase_abs h); lra. }
    rewrite !Rmax_left by lra.
    replace ((0 - 0) / h - 0) with 0 by (field; exact Hh).
    rewrite Rabs_R0. exact Heps.
Qed.

End RealActivations.

(** ** The constructor of a layer *)

Section Constructor.
Context {S : Type} `{Scalar S}.
Local Open Scope scalar_scope.

Lemma mget_snoc_old (m : list (list S)) (row : list S) (a b : nat) :
  a < length m -> mget (m ++ [row]) a b = mget m a b.
Proof. intros Ha. unfold mget, vget. now rewrite nth_error_app1. Qed.

Lemma mget_snoc_new (m : list (list S)) (row : list S) (b : nat) :
  mget (m ++ [row]) (length m) b = vget row b.
Proof.
  unfold mget. rewrite (vget_app_mid m [] row). reflexivity.
Qed.

(** the layer the constructor returns, field by field *)
Lemma Layer_new_entries (inSize outSize : nat)
  (activationType : ActivationType) (rg : RandomGenerator S) :
  exists w,
    Layer_new inSize outSize activationType rg
    = Some (mkLayer (inSize + 1) outSize 0%N w
              (repeat (repeat s_zero outSize) (inSize + 1))
              (repeat s_zero (inSize + 1)) (repeat s_zero outSize)
              (repeat s_zero outSize) activationType) /\
    shape (inSize + 1) outSize w /\
    forall i j, i < (inSize + 1)%nat -> j < outSize ->
      mget w i j =
        Some (dist rg (mt rg + i * outSize + j)%nat
              / s_of_size (N.of_nat (inSize + 1))).
Proof.
  set (entry := fun i j =>
    dist rg (mt rg + i * outSize + j)%nat
    / s_of_size (N.of_nat (inSize + 1))).
  destruct (loop_inv
    (fun k (t : RandomGenerator S * list (list S) * list (list S)) =>
       let '(rg', w, g) := t in
       dist rg' = dist rg /\ mt rg' = (mt rg + k * outSize)%nat /\
       shape k outSize w /\
       g = repeat (repeat s_zero outSize) k /\
       forall i j, i < k -> j < outSize -> mget w i j = Some (entry i j))
    (inSize + 1)
    (fun i '(rg, w, w_grad) =>
       '(rg, row) <-
          loop outSize (fun j '(rg, row) =>
            let '(x, rg) := rand rg in
            row <- vset row j (x / s_of_size (N.of_nat (inSize + 1))) ;;
            Some (rg, row)) (rg, repeat s_zero outSize) ;;
       Some (rg, w ++ [row], w_grad ++ [repeat s_zero outSize]))
    (rg, [], [])) as ([[rg' w] g] & E & _ & _ & Hw & Hg & Hval).
  - repeat split; auto; try constructor. intros i j Hi. lia.
  - intros i [[rg0 w0] g0] Hi (Hd0 & Hm0 & Hw0 & Hg0 & Hv0).
    destruct (loop_inv
      (fun j (t : RandomGenerator S * list S) =>
         dist (fst t) = dist rg /\
         mt (fst t) = (mt rg + i * outSize + j)%nat /\
         length (snd t) = outSize /\
         forall b, b < j -> vget (snd t) b = Some (entry i b))
      outSize
      (fun j '(rg, row) =>
         let '(x, rg) := rand rg in
         row <- vset row j (x / s_of_size (N.of_nat (inSize + 1))) ;;
         Some (rg, row)) (rg0, repeat s_zero outSize))
      as ([rg1 row] & Erow & Hd1 & Hm1 & Hlen & Hrow).
    + simpl. repeat split; auto; [lia | apply repeat_length |].
      intros b Hb. lia.
    + intros j [rg2 row2] Hj (Hd2 & Hm2 & Hl2 & Hv2). simpl in *.
      unfold rand. rewrite vset_some by lia. cbn [bind].
      eexists. split; [reflexivity|]. simpl.
      split; [exact Hd2|]. split; [lia|].
      split; [now rewrite replace_nth_length|].
      intros b Hb. unfold vget. destruct (Nat.eq_dec b j) as [->|Hbj].
      * rewrite replace_nth_same by lia. unfold entry.
        now rewrite Hd2, Hm2.
      * rewrite replace_nth_other by exact Hbj. apply Hv2. lia.
    + simpl in Hd1, Hm1, Hlen, Hrow. rewrite Erow. cbn [bind].
      eexists. split; [reflexivity|].
      split; [exact Hd1|]. split; [rewrite Hm1; lia|].
      split; [now apply shape_snoc|].
      split; [rewrite Hg0; symmetry; apply repeat_cons|].
      intros a b Ha Hb. destruct Hw0 as [Hl0 _].
      destruct (Nat.eq_dec a i) as [->|Hai].
      * rewrite <- Hl0 at 1. rewrite mget_snoc_new. now apply Hrow.
      * rewrite mget_snoc_old by lia. apply Hv0; lia.
  - subst g. exists w. unfold Layer_new. rewrite E. cbn [bind].
    split; [reflexivity|]. split; [exact Hw|]. exact Hval.
Qed.

(** X9. The constructor always returns.  The layer has [inSize + 1] rows of
    [outSize] weights and as many zero accumulator entries, zero caches of
    the sizes [inSize + 1], [outSize], [outSize], no sample counted, and
    the activation asked for; the weight [w[i][j]] is the draw number
    [i * outSize + j] of the generator divided by [inSize + 1]. *)
Theorem Layer_new_weights (inSize outSize : nat)
  (activationType : ActivationType) (rg : RandomGenerator S) :
  exists l,
    Layer_new inSize outSize activationType rg = Some l /\
    layer_wf l /\
    _inSize l = (inSize + 1)%nat /\ _outSize l = outSize /\
    _sampleCount l = 0%N /\ _activation l = activationType /\
    _w_grad l = repeat (repeat s_zero outSize) (inSize + 1) /\
    _input l = repeat s_zero (inSize + 1) /\
    _u l = repeat s_zero outSize /\
    _output l = repeat s_zero outSize /\
    forall i j, i < (inSize + 1)%nat -> j < outSize ->
      mget (_w l) i j =
        Some (dist rg (mt rg + i * outSize + j)%nat
              / s_of_size (N.of_nat (inSize + 1))).
Proof.
  destruct (Layer_new_entries inSize outSize activationType rg)
    as (w & E & Hw & Hval).
  eexists. split; [exact E|]. simpl.
  split; [|repeat split; auto].
  unfold layer_wf. simpl. rewrite !repeat_length.
  split; [exact Hw|]. split; [apply shape_repeat|]. auto.
Qed.

End Constructor.

Section ConstructorBounds.
Local Open Scope R_scope.

(** X10. When every draw of the generator lies in [[0, 1)], as those of
    [uniform_real_distribution(0.0, 1.0)] do, every weight of a new layer
    lies in [[0, 1 / (inSize + 1))]. *)
Theorem Layer_new_weight_bounds (inSize outSize : nat)
  (activationType : ActivationType) (rg : RandomGenerator R) :
  (forall n, 0 <= dist rg n < 1) ->
  exists l,
    Layer_new inSize outSize activationType rg = Some l /\
    forall i j, (i < inSize + 1)%nat -> (j < outSize)%nat ->
      exists x, mget (_w l) i j = Some x /\
                0 <= x < 1 / INR (inSize + 1).
Proof.
  intros Hdraw.
  destruct (Layer_new_entries inSize outSize activationType rg)
    as (w & E & Hw & Hval).
  eexists. split; [exact E|]. simpl. intros i j Hi Hj.
  eexists. split; [now apply Hval|].
  cbn [s_div s_of_size R_scalar]. rewrite nat_N_Z, <- INR_IZR_INZ.
  assert (Hpos : 0 < INR (inSize + 1)) by (apply lt_0_INR; lia).
  specialize (Hdraw (mt rg + i * outSize + j)%nat).
  unfold Rdiv. split.
  - apply Rmult_le_pos; [lra|]. left. now apply Rinv_0_lt_compat.
  - apply Rmult_lt_compat_r; [now apply Rinv_0_lt_compat | lra].
Qed.

End ConstructorBounds.

(** ** More about one layer *)

Section LayerExtras.
Context {S : Type} `{Scalar S}.
Local Open Scope scalar_scope.

Lemma loop_fails {St : Type} (n i : nat) (body : nat -> St -> option St)
  (s : St) :
  i < n -> (forall t, body i t = None) -> loop n body s = None.
Proof.
  intros Hi Hfail. induction n as [|n IH]; [lia|]. simpl.
  destruct (Nat.eq_dec i n) as [->|Hne].
  - destruct (loop n body s); simpl; auto.
  - rewrite IH by lia. reflexivity.
Qed.

Lemma map_const_length {A B : Type} (c : B) (v1 v2 : list A) :
  length v1 = length v2 -> map (fun _ => c) v1 = map (fun _ => c) v2.
Proof.
  revert v2. induction v1 as [|a v1 IH]; intros [|b v2] Hl;
    try discriminate; simpl; auto. f_equal. apply IH. now injection Hl.
Qed.

Lemma forward_u_length (input : list S) (l l' : Layer S) (out : list S) :
  forward input l = Some (out, l') -> length (_u l') = length (_u l).
Proof.
  unfold forward. intros E. apply bind_some in E as (u & Eu & E).
  injection E as _ <-. simpl.
  apply (loop_keeps (fun v => length v = length (_u l))) in Eu.
  - exact Eu.
  - intros i t t' Ei Ht.
    apply (loop_keeps (fun v => length v = length (_u l))) in Ei; auto.
    intros j v v' Ej Hv.
    apply bind_some in Ej as (uj & _ & Ej).
    apply bind_some in Ej as (xi & _ & Ej).
    apply bind_some in Ej as (wij & _ & Ej).
    apply vset_length in Ej. congruence.
  - now rewrite length_map.
Qed.

(** X11. What [forward] returns depends on the layer only through its
    sizes, its weights, its activation and the length of [_u]: not on the
    accumulator, the sample count or the cached vectors.  So calling
    [forward] again with the same input returns the same vector and leaves
    the layer as the first call left it. *)
Theorem forward_repeatable (input : list S) :
  (forall l1 l2 : Layer S,
     _inSize l1 = _inSize l2 -> _outSize l1 = _outSize l2 ->
     _w l1 = _w l2 -> _activation l1 = _activation l2 ->
     length (_u l1) = length (_u l2) ->
     option_map fst (forward input l1) = option_map fst (forward input l2)) /\
  (forall (l l' : Layer S) out,
     forward input l = Some (out, l') -> forward input l' = Some (out, l')).
Proof.
  split.
  - intros l1 l2 Hi Ho Hw Ha Hu. unfold forward.
    rewrite Hi, Ho, Hw, Ha, (map_const_length s_zero _ _ Hu).
    destruct (loop _ _ _); reflexivity.
  - intros l l' out E. pose proof (forward_u_length _ _ _ _ E) as Hu.
    unfold forward in *. apply bind_some in E as (u & Eu & E).
    injection E as <- <-. simpl in *.
    rewrite (map_const_length s_zero _ _ Hu), Eu. reflexivity.
Qed.

(** X12. On an input with fewer than [inSize] entries, a layer with at
    least one output unit reads [_input] out of bounds: [forward] has no
    defined result. *)
Theorem forward_short_input (input : list S) (l : Layer S) :
  (length input + 1 < _inSize l)%nat ->
  0 < _outSize l ->
  forward input l = None.
Proof.
  intros Hshort Hout. unfold forward.
  rewrite (loop_fails (_inSize l) (length input + 1)); [reflexivity | lia |].
  intros t. apply (loop_fails (_outSize l) 0); [lia|].
  intros u. destruct (vget u 0); cbn [bind]; [|reflexivity].
  unfold vget at 1.
  rewrite (proj2 (nth_error_None (input ++ [s_one]) (length input + 1)));
    [reflexivity|].
  rewrite length_app. simpl. lia.
Qed.

End LayerExtras.

Section MiniBatch.
Local Open Scope R_scope.

Lemma accumulate_batch_spec (samples : list (list R * list R)) :
  forall l : Layer R,
  layer_wf l ->
  Forall (fun s => (length (fst s) + 1)%nat = _inSize l /\
                   length (snd s) = _outSize l) samples ->
  exists lb,
    accumulate_batch samples l = Some lb /\
    layer_wf lb /\
    _inSize lb = _inSize l /\ _outSize lb = _outSize l /\
    _w lb = _w l /\ _activation lb = _activation l /\
    _sampleCount lb = Nat.iter (length samples) size_succ (_sampleCount l) /\
    forall i j, (i < _inSize l)%nat -> (j < _outSize l)%nat ->
      mget (_w_grad lb) i j =
        Some (mnth (_w_grad l) i j
              + accumulate
                  (map (fun s => vnth (fst s ++ [1]) i * vnth (snd s) j)
                       samples)).
Proof.
  induction samples as [|[x d] rest IH]; intros l Hwf Hall.
  - exists l. simpl. do 7 (split; [solve [auto]|]).
    intros i j Hi Hj. destruct Hwf as (_ & Hg & _).
    rewrite (mget_mnth _ _ _ i j Hg Hi Hj), accumulate_nil.
    f_equal. lra.
  - inversion Hall as [|? ? [Hx Hd] Hall']; subst. simpl in Hx, Hd.
    pose proof Hwf as (Hw & Hg & Hi & Hu & Ho).
    destruct (forward_spec x l Hw Hu Hx) as (u & E1 & Hlu & _).
    match type of E1 with _ = Some (_, ?y) => set (l1 := y) in * end.
    destruct (updateGrad_spec d l1) as (g2 & E2 & Hg2 & Hv2);
      [exact Hg | simpl; rewrite length_app; simpl; lia | simpl; lia |].
    match type of E2 with _ = Some (_, ?y) => set (l2 := y) in * end.
    assert (Hwf2 : layer_wf l2).
    { unfold layer_wf, l2, l1. simpl. rewrite length_app, activation_length.
      simpl. auto. }
    destruct (IH l2 Hwf2) as (lb & Eb & Hwfb & Hib & Hob & Hwb & Hab & Hcb & Hvb).
    { exact Hall'. }
    exists lb. simpl accumulate_batch. rewrite E1. cbn [bind].
    rewrite E2. cbn [bind].
    split; [exact Eb|]. split; [exact Hwfb|].
    split; [exact Hib|]. split; [exact Hob|]. split; [exact Hwb|].
    split; [exact Hab|]. split.
    + rewrite Hcb. simpl length. rewrite Nat.iter_succ_r. reflexivity.
    + intros i j Hi' Hj'. rewrite (Hvb i j Hi' Hj').
      assert (Eg2 : mnth (_w_grad l2) i j
                    = mnth (_w_grad l) i j + vnth (x ++ [1]) i * vnth d j)
        by exact (mnth_of_mget _ _ _ i j _ Hg2 Hi' Hj' (Hv2 i j Hi' Hj')).
      rewrite Eg2. simpl map. rewrite accumulate_cons. simpl. f_equal. lra.
Qed.

(** X13. A mini-batch through one layer.  From a layer with a zero
    accumulator and no sample counted, after [forward] and [updateGrad]
    for each of [N] samples ([1 <= N < 2^64]) and then [updateParam], every
    weight is [w[i][j] - learningRate * (sum over the samples of
    input[i] * delta[j]) / N], where [input] is the sample's input with the
    trailing 1: gradient descent on the mean of the batch. *)
Theorem minibatch_mean (samples : list (list R * list R))
  (learningRate : R) (l : Layer R) :
  layer_wf l ->
  _sampleCount l = 0%N ->
  (forall i j, (i < _inSize l)%nat -> (j < _outSize l)%nat ->
     mnth (_w_grad l) i j = 0) ->
  Forall (fun s => (length (fst s) + 1)%nat = _inSize l /\
                   length (snd s) = _outSize l) samples ->
  samples <> [] ->
  (N.of_nat (length samples) < size_max)%N ->
  exists lb l',
    accumulate_batch samples l = Some lb /\
    updateParam learningRate lb = Some (tt, l') /\
    _sampleCount l' = 0%N /\
    forall i j, (i < _inSize l)%nat -> (j < _outSize l)%nat ->
      mget (_w l') i j =
        Some (mnth (_w l) i j
              - learningRate
                * accumulate
                    (map (fun s => vnth (fst s ++ [1]) i * vnth (snd s) j)
                         samples)
                / INR (length samples)) /\
      mget (_w_grad l') i j = Some 0.
Proof.
  intros Hwf Hc Hzero Hall Hne Hmax.
  destruct (accumulate_batch_spec samples l Hwf Hall)
    as (lb & Eb & Hwfb & Hib & Hob & Hwb & _ & Hcb & Hvb).
  rewrite Hc, size_succ_times in Hcb by exact Hmax.
  assert (Hlen : (0 < length samples)%nat).
  { destruct samples; [congruence | simpl; lia]. }
  destruct Hwfb as (Hw' & Hg' & _).
  destruct (updateParam_step learningRate lb)
    as (w & g & E & _ & _ & Hval); [rewrite Hcb; lia | exact Hw' | exact Hg' |].
  exists lb. eexists. split; [exact Eb|]. split; [exact E|].
  split; [reflexivity|]. simpl.
  intros i j Hi Hj. rewrite <- Hib in Hi. rewrite <- Hob in Hj.
  destruct (Hval i j Hi Hj) as [Ew Eg]. split; [|exact Eg].
  rewrite Ew, Hwb, Hcb. rewrite Hib in Hi. rewrite Hob in Hj.
  rewrite (mnth_of_mget _ _ _ i j _ Hg'
             ltac:(now rewrite Hib) ltac:(now rewrite Hob) (Hvb i j Hi Hj)).
  rewrite (Hzero i j Hi Hj). cbn [s_sub s_mul s_div s_of_size R_scalar].
  rewrite nat_N_Z, <- INR_IZR_INZ. f_equal. unfold Rdiv. lra.
Qed.

End MiniBatch.

(** ** More about the network *)

Section NetworkExtras.
Context {S : Type} `{Scalar S}.
Local Open Scope scalar_scope.

Lemma chained_sizes (ls ls' : list (Layer S)) :
  map (@_inSize S) ls' = map (@_inSize S) ls ->
  map (@_outSize S) ls' = map (@_outSize S) ls ->
  chained ls -> chained ls'.
Proof.
  revert ls'. induction ls as [|a rest IH]; intros [|a' rest'] Hin Hos Hch;
    try discriminate; simpl; auto.
  destruct Hch as [Hab Hchr]. injection Hin as Hia Hin.
  injection Hos as Hoa Hos. split; [|now apply IH].
  destruct rest as [|b rest], rest' as [|b' rest'']; try discriminate; auto.
  injection Hin as Hib _. congruence.
Qed.

Lemma input_fits_sizes (input : list S) (ls ls' : list (Layer S)) :
  map (@_inSize S) ls' = map (@_inSize S) ls ->
  input_fits input ls -> input_fits input ls'.
Proof.
  destruct ls as [|a rest], ls' as [|a' rest']; try discriminate; auto.
  simpl. intros Hin. injection Hin as Hia _. congruence.
Qed.

Lemma map_snoc_last {A B : Type} (f : A -> B) (a b : list A) (x y : A) :
  map f (a ++ [x]) = map f (b ++ [y]) -> f x = f y.
Proof.
  rewrite !map_app. simpl. intros E. now apply app_inj_tail in E as [_ E].
Qed.

Lemma last_outSize_snoc (front : list (Layer S)) (l : Layer S) (d : nat) :
  last_outSize (front ++ [l]) d = _outSize l.
Proof. unfold last_outSize. now rewrite fold_left_app. Qed.

Lemma Network_forward_sizes (input : list S) (net net' : Network S)
  (out : list S) :
  Network_forward input net = Some (out, net') ->
  map (@_inSize S) (_layers net') = map (@_inSize S) (_layers net) /\
  map (@_outSize S) (_layers net') = map (@_outSize S) (_layers net).
Proof.
  unfold Network_forward. intros E.
  apply bind_some in E as ([buffer layers] & Efe & E).
  injection E as _ <-. simpl.
  split; (eapply for_each_keeps; [|exact Efe]);
    intros a x a1 x' Ef; now destruct (forward_keeps _ _ _ _ Ef)
      as (Hi & Ho & _).
Qed.

(** X14. On a network of well-shaped, chained layers and an input of the
    size the first layer expects, [Network::forward] returns a vector that
    has the output size of the last layer; the layers keep their shapes and
    sizes, so the network can be run again. *)
Theorem Network_forward_shape (input : list S) (net : Network S) :
  Forall layer_wf (_layers net) ->
  chained (_layers net) ->
  input_fits input (_layers net) ->
  exists out net',
    Network_forward input net = Some (out, net') /\
    length out = last_outSize (_layers net) (length input) /\
    Forall layer_wf (_layers net') /\
    chained (_layers net') /\
    input_fits input (_layers net') /\
    map (@_inSize S) (_layers net') = map (@_inSize S) (_layers net) /\
    map (@_outSize S) (_layers net') = map (@_outSize S) (_layers net).
Proof.
  intros Hwf Hch Hfit.
  destruct (Network_forward_spec input net Hwf Hch Hfit)
    as (out & net' & E & Hlen & Hwf' & Hch' & _).
  destruct (Network_forward_sizes _ _ _ _ E) as [Hin Hos].
  exists out, net'. repeat (split; [assumption|]).
  split; [now apply (input_fits_sizes input (_layers net))|]. auto.
Qed.

Lemma for_each_app {A X : Type} (f : A -> X -> option (A * X)) (xs ys : list X) :
  forall a,
  for_each f a (xs ++ ys) =
    ('(a1, xs') <- for_each f a xs ;;
     '(a2, ys') <- for_each f a1 ys ;;
     Some (a2, xs' ++ ys')).
Proof.
  induction xs as [|x xs IH]; intros a; simpl.
  - destruct (for_each f a ys) as [[a2 ys']|]; reflexivity.
  - destruct (f a x) as [[a1 x']|]; cbn [bind]; [|reflexivity].
    rewrite IH. destruct (for_each f a1 xs) as [[a2 xs']|]; cbn [bind];
      [|reflexivity].
    destruct (for_each f a2 ys) as [[a3 ys']|]; reflexivity.
Qed.

(** X15. Adding a layer composes the forward passes: [forward] on the
    network with one more layer is [forward] on the network before, then
    [Layer::forward] of the added layer on its result. *)
Theorem forward_after_addLayer (input : list S) (layer : Layer S)
  (net net1 : Network S) :
  addLayer layer net = Some (tt, net1) ->
  Network_forward input net1 =
    ('(out, net') <- Network_forward input net ;;
     '(out', layer') <- forward out layer ;;
     '(_, net'') <- addLayer layer' net' ;;
     Some (out', net'')).
Proof.
  unfold addLayer. intros E. injection E as <-.
  unfold Network_forward. simpl. rewrite for_each_app.
  destruct (for_each _ input (_layers net)) as [[buffer layers]|];
    cbn [bind]; [|reflexivity]. simpl.
  destruct (forward buffer layer) as [[out' layer']|]; reflexivity.
Qed.

Lemma updateGrad_same (d : list S) (l l' : Layer S) :
  updateGrad d l = Some (tt, l') -> same_but_gradient l l'.
Proof.
  intros E. destruct (updateGrad_keeps _ _ _ _ E)
    as (? & ? & ? & ? & ? & ? & ? & _).
  unfold same_but_gradient. repeat split; assumption.
Qed.

Lemma same_but_gradient_sizes (ls ls' : list (Layer S)) :
  Forall2 same_but_gradient ls ls' ->
  map (@_inSize S) ls' = map (@_inSize S) ls /\
  map (@_outSize S) ls' = map (@_outSize S) ls.
Proof.
  induction 1 as [|l l' ls ls' (Hi & Ho & _) _ [IHi IHo]]; simpl; auto.
  split; congruence.
Qed.

Lemma backprop_calls_keeps (dlast : list S) (ls ls' : list (Layer S))
  (ds : list (list S)) :
  backprop_calls dlast ls ds ls' ->
  Forall layer_wf ls ->
  Forall2 (fun l d => length d = _outSize l) ls ds ->
  Forall2 same_but_gradient ls ls' /\ Forall layer_wf ls'.
Proof.
  assert (Hone : forall d (l l' : Layer S),
    layer_wf l -> length d = _outSize l ->
    updateGrad d l = Some (tt, l') -> layer_wf l').
  { intros d l l' Hwf Hd E.
    destruct (updateGrad_wf d l Hwf Hd) as (l2 & E2 & Hwf2). congruence. }
  induction 1 as [l l' Eug | l next l' rest rest' d dnext ds Hcalls IH Ecd Eug];
    intros Hwf Hlens.
  - inversion Hwf as [|? ? Hwfl _]; subst.
    inversion Hlens as [|? ? ? ? Hlen _]; subst.
    split.
    + apply Forall2_cons; [now apply (updateGrad_same dlast) | constructor].
    + apply Forall_cons; [now apply (Hone dlast l) | constructor].
  - inversion Hwf as [|? ? Hwfl Hwf']; subst.
    inversion Hlens as [|? ? ? ? Hlen Hlens']; subst.
    destruct (IH Hwf' Hlens') as [Hsame Hwfr].
    split.
    + apply Forall2_cons; [now apply (updateGrad_same d) | exact Hsame].
    + apply Forall_cons; [now apply (Hone d l) | exact Hwfr].
Qed.

(** X16. On a network of well-shaped, chained layers and a target of the
    size of the last output, [Network::backward] changes, in every layer,
    nothing but the accumulator and the sample count: sizes, weights,
    activation and the vectors cached by [forward] stay, and the layers stay
    well-shaped and chained. *)
Theorem backward_keeps_forward_state (target : list S) (net : Network S)
  (front : list (Layer S)) (lastLayer : Layer S) :
  _layers net = front ++ [lastLayer] ->
  Forall layer_wf (_layers net) ->
  chained (_layers net) ->
  length target = _outSize lastLayer ->
  exists out net',
    backward target net = Some (out, net') /\
    _verbose net' = _verbose net /\
    Forall2 same_but_gradient (_layers net) (_layers net') /\
    Forall layer_wf (_layers net') /\
    chained (_layers net').
Proof.
  intros Hnet Hwf Hch Htarget.
  destruct (backward_calls target net front lastLayer Hnet Hwf Hch Htarget)
    as (dlast & deltas & layers' & E & _ & _ & Hcalls & Hlens).
  destruct (backprop_calls_keeps _ _ _ _ Hcalls Hwf Hlens) as [Hsame Hwf'].
  destruct (same_but_gradient_sizes _ _ Hsame) as [Hin Hos].
  eexists. eexists. split; [exact E|]. simpl.
  split; [reflexivity|]. split; [exact Hsame|]. split; [exact Hwf'|].
  now apply (chained_sizes (_layers net)).
Qed.

Lemma Network_updateParam_spec (learningRate : S) (net : Network S) :
  Forall layer_wf (_layers net) ->
  exists net',
    Network_updateParam learningRate net = Some (tt, net') /\
    _verbose net' = _verbose net /\
    Forall layer_wf (_layers net') /\
    Forall (fun l => _sampleCount l = 0%N) (_layers net') /\
    map (@_inSize S) (_layers net') = map (@_inSize S) (_layers net) /\
    map (@_outSize S) (_layers net') = map (@_outSize S) (_layers net).
Proof.
  intros Hwf.
  assert (Hfe : exists layers',
    for_each (fun _ layer => updateParam learningRate layer) tt (_layers net)
      = Some (tt, layers') /\
    Forall layer_wf layers' /\
    Forall (fun l => _sampleCount l = 0%N) layers' /\
    map (@_inSize S) layers' = map (@_inSize S) (_layers net) /\
    map (@_outSize S) layers' = map (@_outSize S) (_layers net)).
  { induction (_layers net) as [|a rest IH].
    - exists []. repeat split; constructor.
    - inversion Hwf as [|? ? Hwfa Hwfr]; subst.
      destruct (IH Hwfr) as (rest' & Er & Hwf' & Hc' & Hin & Hos).
      destruct (updateParam_wf learningRate a Hwfa) as (a' & Ea & Hwfa').
      exists (a' :: rest'). simpl. rewrite Ea. cbn [bind]. rewrite Er.
      cbn [bind]. split; [reflexivity|].
      assert (Ha' : _sampleCount a' = 0%N /\ _inSize a' = _inSize a /\
                    _outSize a' = _outSize a).
      { unfold updateParam in Ea.
        destruct (N.eqb_spec (_sampleCount a) 0) as [E0|Hc].
        - injection Ea as <-. auto.
        - apply bind_some in Ea as ([w g] & _ & Ea). injection Ea as <-.
          simpl. auto. }
      destruct Ha' as (Hca & Hia & Hoa).
      split; [now constructor|]. split; [now constructor|].
      simpl. split; congruence. }
  destruct Hfe as (layers' & E & Hwf' & Hc' & Hin & Hos).
  exists (mkNetwork (_verbose net) layers').
  unfold Network_updateParam. rewrite E. cbn [bind]. simpl.
  repeat split; assumption.
Qed.

(** X17. On a network of well-shaped layers [Network::updateParam] returns;
    afterwards no layer has a sample counted, the layers have their shapes
    and sizes, and a further [Network::updateParam], with any learning
    rate, changes nothing. *)
Theorem Network_updateParam_resets (rate1 rate2 : S) (net : Network S) :
  Forall layer_wf (_layers net) ->
  exists net',
    Network_updateParam rate1 net = Some (tt, net') /\
    Forall (fun l => _sampleCount l = 0%N) (_layers net') /\
    Forall layer_wf (_layers net') /\
    map (@_inSize S) (_layers net') = map (@_inSize S) (_layers net) /\
    map (@_outSize S) (_layers net') = map (@_outSize S) (_layers net) /\
    Network_updateParam rate2 net' = Some (tt, net').
Proof.
  intros Hwf.
  destruct (Network_updateParam_spec rate1 net Hwf)
    as (net' & E & Hv & Hwf' & Hc & Hin & Hos).
  exists net'. repeat (split; [assumption|]).
  unfold Network_updateParam. destruct net' as [v layers']. simpl in *.
  assert (Hfe : for_each (fun _ layer => updateParam rate2 layer) tt layers'
                = Some (tt, layers')).
  { clear - Hc. induction layers' as [|a rest IH]; [reflexivity|].
    inversion Hc as [|? ? Ha Hr]; subst. simpl.
    rewrite (updateParam_noop rate2 a Ha). cbn [bind].
    rewrite (IH Hr). reflexivity. }
  rewrite Hfe. reflexivity.
Qed.

Lemma calcLoss_returns (target : list S) (net : Network S)
  (front : list (Layer S)) (lastLayer : Layer S) :
  _layers net = front ++ [lastLayer] ->
  length target <= length (_output lastLayer) ->
  exists loss, calcLoss target net = Some (loss, net).
Proof.
  intros Hnet Hlen.
  destruct (loop_inv (fun _ (_ : S) => True) (length target)
    (fun i loss =>
       ti <- vget target i ;;
       last <- last_index (_layers net) ;;
       lastLayer <- vget (_layers net) last ;;
       oi <- vget (_output lastLayer) i ;;
       Some (loss - ti * s_log oi)) s_zero) as (loss & E & _).
  - exact I.
  - intros i t Hi _. rewrite (vget_vnth target i Hi). cbn [bind].
    rewrite Hnet, last_index_snoc. cbn [bind]. rewrite vget_snoc. cbn [bind].
    rewrite (vget_vnth (_output lastLayer) i) by lia. cbn [bind].
    eexists. split; [reflexivity | exact I].
  - exists loss. unfold calcLoss. rewrite E. reflexivity.
Qed.

(** X18. One training step is always defined and can be repeated.  On a
    network of well-shaped, chained layers, an input of the size the first
    layer expects and a target of the size of the last output, the calls
    [forward], [calcLoss], [backward] and [updateParam] made in this order
    all return; the output has the size of the last layer; afterwards the
    layers are well-shaped and chained with the sizes they had, and no
    sample is left counted. *)
Theorem training_step (input target : list S) (learningRate : S)
  (net : Network S) (front : list (Layer S)) (lastLayer : Layer S) :
  _layers net = front ++ [lastLayer] ->
  Forall layer_wf (_layers net) ->
  chained (_layers net) ->
  input_fits input (_layers net) ->
  length target = _outSize lastLayer ->
  exists out net1 loss printed net2 net3,
    Network_forward input net = Some (out, net1) /\
    calcLoss target net1 = Some (loss, net1) /\
    backward target net1 = Some (printed, net2) /\
    Network_updateParam learningRate net2 = Some (tt, net3) /\
    length out = _outSize lastLayer /\
    Forall layer_wf (_layers net3) /\
    chained (_layers net3) /\
    input_fits input (_layers net3) /\
    map (@_inSize S) (_layers net3) = map (@_inSize S) (_layers net) /\
    map (@_outSize S) (_layers net3) = map (@_outSize S) (_layers net) /\
    Forall (fun l => _sampleCount l = 0%N) (_layers net3).
Proof.
  intros Hnet Hwf Hch Hfit Htarget.
  destruct (Network_forward_spec input net Hwf Hch Hfit)
    as (out & net1 & E1 & Hlen & Hwf1 & Hch1 & _).
  destruct (Network_forward_sizes _ _ _ _ E1) as [Hin1 Hos1].
  rewrite Hnet, last_outSize_snoc in Hlen.
  assert (Hlast1 : exists front1 last1, _layers net1 = front1 ++ [last1]).
  { destruct (exists_last (l := _layers net1)) as (f1 & l1 & E).
    - intros E. rewrite E, Hnet, map_app in Hin1. simpl in Hin1.
      now destruct (map (@_inSize S) front).
    - now exists f1, l1. }
  destruct Hlast1 as (front1 & last1 & Hnet1).
  assert (Hout1 : _outSize last1 = _outSize lastLayer).
  { rewrite Hnet1, Hnet in Hos1. now apply map_snoc_last in Hos1. }
  assert (Hwfl1 : layer_wf last1).
  { rewrite Hnet1 in Hwf1. apply Forall_app in Hwf1 as [_ Hl].
    now inversion Hl. }
  destruct (calcLoss_returns target net1 front1 last1 Hnet1) as [loss E2].
  { destruct Hwfl1 as (_ & _ & _ & _ & Ho). lia. }
  destruct (backward_calls target net1 front1 last1 Hnet1 Hwf1 Hch1)
    as (dlast & deltas & layers2 & E3 & _ & _ & Hcalls & Hlens); [lia|].
  destruct (backprop_calls_keeps _ _ _ _ Hcalls Hwf1 Hlens) as [Hsame Hwf2].
  destruct (same_but_gradient_sizes _ _ Hsame) as [Hin2 Hos2].
  destruct (Network_updateParam_spec learningRate
              (mkNetwork (_verbose net1) layers2) Hwf2)
    as (net3 & E4 & _ & Hwf3 & Hc3 & Hin3 & Hos3).
  simpl in Hin3, Hos3.
  assert (Hin : map (@_inSize S) (_layers net3) = map (@_inSize S) (_layers net))
    by congruence.
  assert (Hos : map (@_outSize S) (_layers net3) = map (@_outSize S) (_layers net))
    by congruence.
  exists out, net1, loss. eexists. eexists. exists net3.
  split; [exact E1|]. split; [exact E2|]. split; [exact E3|].
  split; [exact E4|]. split; [exact Hlen|]. split; [exact Hwf3|].
  split; [now apply (chained_sizes (_layers net))|].
  split; [now apply (input_fits_sizes input (_layers net))|]. auto.
Qed.

(** X19. [Network::backward] has no defined result on a network without
    layers (it indexes [_layers] at [size() - 1]) or when the target is
    shorter than the output of the last layer (it reads [target] and writes
    [delta] past their ends). *)
Theorem backward_out_of_bounds (target : list S) (net : Network S) :
  (_layers net = [] -> backward target net = None) /\
  (forall front lastLayer,
     _layers net = front ++ [lastLayer] ->
     length target < length (_output lastLayer) ->
     backward target net = None).
Proof.
  split.
  - intros E. unfold backward. now rewrite E.
  - intros front lastLayer Hnet Hshort. unfold backward.
    rewrite Hnet, last_index_snoc. cbn [bind]. rewrite vget_snoc. cbn [bind].
    rewrite (loop_fails (length (_output lastLayer)) (length target));
      [reflexivity | exact Hshort |].
    intros delta. rewrite (vget_vnth (_output lastLayer) _ Hshort).
    cbn [bind]. unfold vget.
    now rewrite (proj2 (nth_error_None target (length target))) by lia.
Qed.

(** X20. [Network::calcLoss] on an empty target returns 0 on any network,
    even one without layers; on a non-empty target it has no defined result
    when the network has no layer or when the target is longer than the
    output of the last layer. *)
Theorem calcLoss_bounds (target : list S) (net : Network S) :
  (target = [] -> calcLoss target net = Some (s_zero, net)) /\
  (target <> [] -> _layers net = [] -> calcLoss target net = None) /\
  (forall front lastLayer,
     _layers net = front ++ [lastLayer] ->
     length (_output lastLayer) < length target ->
     calcLoss target net = None).
Proof.
  split; [|split].
  - intros ->. reflexivity.
  - intros Hne E. unfold calcLoss.
    rewrite (loop_fails (length target) 0); [reflexivity | |].
    + destruct target; [congruence | simpl; lia].
    + intros loss. rewrite E. destruct (vget target 0); reflexivity.
  - intros front lastLayer Hnet Hlong. unfold calcLoss.
    rewrite (loop_fails (length target) (length (_output lastLayer)));
      [reflexivity | exact Hlong |].
    intros loss. rewrite (vget_vnth target _ Hlong). cbn [bind].
    rewrite Hnet, last_index_snoc. cbn [bind]. rewrite vget_snoc. cbn [bind].
    unfold vget.
    now rewrite (proj2 (nth_error_None (_output lastLayer) _)) by lia.
Qed.

End NetworkExtras.

Section LossExtras.
Local Open Scope R_scope.

Lemma calcLoss_sum (target : list R) (net : Network R)
  (front : list (Layer R)) (lastLayer : Layer R) :
  _layers net = front ++ [lastLayer] ->
  (length target <= length (_output lastLayer))%nat ->
  calcLoss target net =
    Some (- accumulate
              (map (fun i => vnth target i * ln (vnth (_output lastLayer) i))
                   (seq 0 (length target))),
          net).
Proof.
  intros Hnet Hlen.
  destruct (loop_inv
    (fun i loss => loss =
       - accumulate
           (map (fun i => vnth target i * ln (vnth (_output lastLayer) i))
                (seq 0 i)))
    (length target)
    (fun i loss =>
       ti <- vget target i ;;
       last <- last_index (_layers net) ;;
       lastLayer <- vget (_layers net) last ;;
       oi <- vget (_output lastLayer) i ;;
       Some (s_sub loss (s_mul ti (s_log oi)))) s_zero)
    as (loss & E & Hloss).
  - simpl. rewrite accumulate_nil. lra.
  - intros i t Hi ->. rewrite accumulate_seq_S.
    rewrite (vget_vnth target i Hi). cbn [bind].
    rewrite Hnet, last_index_snoc. cbn [bind]. rewrite vget_snoc. cbn [bind].
    rewrite (vget_vnth (_output lastLayer) i) by lia. cbn [bind].
    eexists. split; [reflexivity|]. simpl. lra.
  - unfold calcLoss. rewrite E. simpl. now rewrite Hloss.
Qed.

Lemma accumulate_single (f : nat -> R) (k n : nat) :
  (forall i, (i < n)%nat -> i <> k -> f i = 0) ->
  accumulate (map f (seq 0 n)) = if (k <? n)%nat then f k else 0.
Proof.
  intros Hzero. induction n as [|n IH].
  - simpl. apply accumulate_nil.
  - rewrite accumulate_seq_S, IH by (intros i Hi; apply Hzero; lia).
    cbn [s_add R_scalar].
    destruct (Nat.ltb_spec k n) as [Hk|Hk];
      destruct (Nat.ltb_spec k (Datatypes.S n)) as [Hk'|Hk']; try lia.
    + rewrite (Hzero n) by lia. lra.
    + assert (k = n) by lia. subst. lra.
    + rewrite (Hzero n) by lia. lra.
Qed.

(** X21. For a one-hot target, 1 at index [k] and 0 elsewhere, and an
    output of the last layer whose entries are all positive, so that every
    logarithm is a number, [Network::calcLoss] returns [- ln(output[k])]:
    the loss looks at the true class only. *)
Theorem calcLoss_one_hot (target : list R) (k : nat) (net : Network R)
  (front : list (Layer R)) (lastLayer : Layer R) :
  _layers net = front ++ [lastLayer] ->
  (length target <= length (_output lastLayer))%nat ->
  (forall i, (i < length target)%nat -> 0 < vnth (_output lastLayer) i) ->
  (k < length target)%nat ->
  vget target k = Some 1 ->
  (forall i, (i < length target)%nat -> i <> k -> vget target i = Some 0) ->
  calcLoss target net = Some (- ln (vnth (_output lastLayer) k), net).
Proof.
  intros Hnet Hlen _ Hk Eone Ezero.
  rewrite (calcLoss_sum target net front lastLayer Hnet Hlen).
  rewrite (accumulate_single _ k).
  - rewrite (proj2 (Nat.ltb_lt _ _) Hk).
    rewrite (vget_vnth target k Hk) in Eone. injection Eone as ->.
    do 2 f_equal. lra.
  - intros i Hi Hik. specialize (Ezero i Hi Hik).
    rewrite (vget_vnth target i Hi) in Ezero. injection Ezero as ->. lra.
Qed.

End LossExtras.

(** ** mnist.cpp: reading the files *)

Section Endianness.

Lemma isLittleEndian_host (little : bool) : isLittleEndian little = little.
Proof. destruct little; reflexivity. Qed.

Lemma half_bounds (w : nat) : 2 * ((w + 1) / 2) <= w + 1 < 2 * ((w + 1) / 2) + 2.
Proof.
  pose proof (Nat.div_mod_eq (w + 1) 2) as E.
  pose proof (Nat.mod_upper_bound (w + 1) 2 ltac:(lia)). lia.
Qed.

Lemma swap_loop (buf : list byte) (width : nat) :
  width <= length buf ->
  loop ((width + 1) / 2) (fun pos buf =>
      let invPos := width - 1 - pos in
      tmp <- vget buf pos ;;
      inv <- vget buf invPos ;;
      buf <- vset buf pos inv ;;
      vset buf invPos tmp) buf
  = Some (rev (firstn width buf) ++ skipn width buf).
Proof.
  intros Hw. pose proof (half_bounds width) as Hh.
  set (h := (width + 1) / 2) in *.
  destruct (loop_inv
    (fun k b => length b = length buf /\
       forall i, vget b i =
         if (i <? k) || ((width - k <=? i) && (i <? width))
         then vget buf (width - 1 - i) else vget buf i)
    h
    (fun pos buf =>
      let invPos := width - 1 - pos in
      tmp <- vget buf pos ;;
      inv <- vget buf invPos ;;
      buf <- vset buf pos inv ;;
      vset buf invPos tmp) buf) as (b & E & Hlen & Hval).
  - split; [reflexivity|]. intros i.
    destruct (Nat.ltb_spec i 0), (Nat.leb_spec (width - 0) i),
      (Nat.ltb_spec i width); simpl; try reflexivity; lia.
  - intros k t Hk [Hlt Hvt]. cbv zeta.
    assert (Ek : vget t k = vget buf k).
    { rewrite Hvt. destruct (Nat.ltb_spec k k), (Nat.leb_spec (width - k) k),
        (Nat.ltb_spec k width); simpl; try reflexivity; lia. }
    assert (Ei : vget t (width - 1 - k) = vget buf (width - 1 - k)).
    { rewrite Hvt. destruct (Nat.ltb_spec (width - 1 - k) k),
        (Nat.leb_spec (width - k) (width - 1 - k)),
        (Nat.ltb_spec (width - 1 - k) width); simpl; try reflexivity; lia. }
    destruct (vget_some buf k ltac:(lia)) as [x Ex].
    destruct (vget_some buf (width - 1 - k) ltac:(lia)) as [y Ey].
    rewrite Ek, Ex, Ei, Ey. cbn [bind].
    rewrite vset_some by lia. cbn [bind].
    rewrite vset_some by (rewrite replace_nth_length; lia).
    eexists. split; [reflexivity|]. split.
    + now rewrite !replace_nth_length.
    + intros i. unfold vget.
      destruct (Nat.eq_dec i (width - 1 - k)) as [->|Hi1].
      * rewrite replace_nth_same by (rewrite replace_nth_length; lia).
        replace (width - 1 - (width - 1 - k)) with k by lia.
        destruct (Nat.ltb_spec (width - 1 - k) (S k)),
          (Nat.leb_spec (width - S k) (width - 1 - k)),
          (Nat.ltb_spec (width - 1 - k) width); simpl;
          try (symmetry; exact Ex); lia.
      * rewrite replace_nth_other by exact Hi1.
        destruct (Nat.eq_dec i k) as [->|Hi2].
        -- rewrite replace_nth_same by lia.
           destruct (Nat.ltb_spec k (S k)); simpl;
             [symmetry; exact Ey | lia].
        -- rewrite replace_nth_other by exact Hi2.
           fold (vget t i). rewrite Hvt.
           destruct (Nat.ltb_spec i k), (Nat.ltb_spec i (S k)),
             (Nat.leb_spec (width - k) i), (Nat.leb_spec (width - S k) i),
             (Nat.ltb_spec i width); simpl; try reflexivity; lia.
  - rewrite E. f_equal. apply vget_ext. intros i. rewrite Hval.
    unfold vget.
    destruct (Nat.lt_ge_cases i width) as [Hi|Hi].
    + rewrite nth_error_app1 by (rewrite length_rev, length_firstn; lia).
      rewrite nth_error_rev, length_firstn, nth_error_firstn.
      replace (Nat.min width (length buf)) with width by lia.
      rewrite (proj2 (Nat.ltb_lt i width) Hi).
      rewrite (proj2 (Nat.ltb_lt (width - S i) width)) by lia.
      replace (width - S i) with (width - 1 - i) by lia.
      destruct (Nat.ltb_spec i h), (Nat.leb_spec (width - h) i); simpl;
        try reflexivity; lia.
    + rewrite nth_error_app2 by (rewrite length_rev, length_firstn; lia).
      rewrite length_rev, length_firstn, nth_error_skipn.
      replace (Nat.min width (length buf)) with width by lia.
      replace (width + (i - width)) with i by lia.
      destruct (Nat.ltb_spec i h), (Nat.ltb_spec i width); simpl;
        try rewrite Bool.andb_false_r; try reflexivity; lia.
Qed.

Lemma firstn_exact {A : Type} (a b : list A) (n : nat) :
  length a = n -> firstn n (a ++ b) = a.
Proof.
  intros <-. induction a as [|x a IH]; simpl; [now destruct b | now rewrite IH].
Qed.

Lemma skipn_exact {A : Type} (a b : list A) (n : nat) :
  length a = n -> skipn n (a ++ b) = b.
Proof. intros <-. induction a as [|x a IH]; simpl; auto. Qed.

(** X22. On a host that stores the low byte first, [swapIfLittleEndian]
    reverses the first [width] bytes of the buffer and leaves the rest;
    on a host that stores the high byte first it leaves the buffer as it
    is.  On either host, swapping twice gives the buffer back. *)
Theorem swapIfLittleEndian_reverses (little : bool) (buf : list byte)
  (width : nat) :
  width <= length buf ->
  swapIfLittleEndian little buf width
  = Some (if little then rev (firstn width buf) ++ skipn width buf else buf) /\
  (buf' <- swapIfLittleEndian little buf width ;;
   swapIfLittleEndian little buf' width) = Some buf.
Proof.
  intros Hw.
  assert (E : forall b, width <= length b ->
    swapIfLittleEndian little b width
    = Some (if little then rev (firstn width b) ++ skipn width b else b)).
  { intros b Hb. unfold swapIfLittleEndian. rewrite isLittleEndian_host.
    destruct little; simpl; [now apply swap_loop | reflexivity]. }
  split; [now apply E|]. rewrite (E buf Hw). cbn [bind].
  destruct little; [|now apply E].
  assert (Hl : length (firstn width buf) = width)
    by (rewrite length_firstn; lia).
  rewrite E by (rewrite length_app, length_rev, Hl; lia).
  f_equal.
  rewrite <- (length_rev (firstn width buf)) in Hl.
  rewrite (firstn_exact _ _ _ Hl), (skipn_exact _ _ _ Hl), rev_involutive.
  apply firstn_skipn.
Qed.

End Endianness.

Section Reading.

Lemma to_N_byte_of (v : N) : Byte.to_N (byte_of v) = (v mod 256)%N.
Proof.
  unfold byte_of.
  pose proof (Byte.to_of_N_option_map (v mod 256)) as E.
  assert (Hlt : (v mod 256 < 256)%N) by (apply N.mod_lt; lia).
  destruct (N.leb_spec (v mod 256) 255) as [_|Hgt]; [|lia].
  destruct (Byte.of_N (v mod 256)) as [b|]; simpl in E; congruence.
Qed.

Lemma readUInt32_bytes (little : bool) (a b c d : byte) (rest : list byte) :
  readUInt32 little (mkIfstream (a :: b :: c :: d :: rest) true) =
    Some (Byte.to_N d + 256 * Byte.to_N c + 256 ^ 2 * Byte.to_N b
          + 256 ^ 3 * Byte.to_N a, mkIfstream rest true)%N.
Proof. destruct little; reflexivity. Qed.

(** X23. [readUInt32] takes the next four bytes of the stream and returns
    the number they spell with the high byte first, the same on a host of
    either byte order; the number is below [2^32].  When the stream has
    failed or has fewer than four bytes left the result is not defined. *)
Theorem readUInt32_big_endian (little : bool) (ifs : ifstream) :
  (forall a b c d rest,
     ifs = mkIfstream (a :: b :: c :: d :: rest) true ->
     readUInt32 little ifs =
       Some (Byte.to_N d + 256 * Byte.to_N c + 256 ^ 2 * Byte.to_N b
             + 256 ^ 3 * Byte.to_N a, mkIfstream rest true)%N /\
     (Byte.to_N d + 256 * Byte.to_N c + 256 ^ 2 * Byte.to_N b
      + 256 ^ 3 * Byte.to_N a < uint32_mod)%N) /\
  (good ifs = false \/ length (content ifs) < 4 ->
   readUInt32 little ifs = None).
Proof.
  split.
  - intros a b c d rest ->. split.
    + apply readUInt32_bytes.
    + pose proof (Byte.to_N_bounded a). pose proof (Byte.to_N_bounded b).
      pose proof (Byte.to_N_bounded c). pose proof (Byte.to_N_bounded d).
      unfold uint32_mod.
      change (2 ^ 32)%N with 4294967296%N.
      change (256 ^ 2)%N with 65536%N. change (256 ^ 3)%N with 16777216%N.
      lia.
  - intros [Hbad|Hshort]; unfold readUInt32, ifs_read.
    + rewrite Hbad. reflexivity.
    + destruct (good ifs); [|reflexivity].
      destruct (Nat.leb_spec 4 (length (content ifs))) as [Hge|_]; [lia|].
      destruct (Nat.eqb_spec (length (content ifs)) 4); [lia | reflexivity].
Qed.

Lemma digits_256 (v : N) :
  (v < 4294967296 ->
   v mod 256 + 256 * ((v / 256) mod 256) + 65536 * ((v / 65536) mod 256)
   + 16777216 * ((v / 16777216) mod 256) = v)%N.
Proof.
  intros Hv.
  replace (v / 65536)%N with (v / 256 / 256)%N
    by (now rewrite N.Div0.div_div).
  replace (v / 16777216)%N with (v / 256 / 256 / 256)%N
    by (now rewrite !N.Div0.div_div).
  pose proof (N.div_mod v 256 ltac:(lia)) as E0.
  pose proof (N.mod_lt v 256 ltac:(lia)) as B0.
  remember (v mod 256)%N as r0. remember (v / 256)%N as q1.
  pose proof (N.div_mod q1 256 ltac:(lia)) as E1.
  pose proof (N.mod_lt q1 256 ltac:(lia)) as B1.
  remember (q1 mod 256)%N as r1. remember (q1 / 256)%N as q2.
  pose proof (N.div_mod q2 256 ltac:(lia)) as E2.
  pose proof (N.mod_lt q2 256 ltac:(lia)) as B2.
  remember (q2 mod 256)%N as r2. remember (q2 / 256)%N as q3.
  pose proof (N.div_mod q3 256 ltac:(lia)) as E3.
  pose proof (N.mod_lt q3 256 ltac:(lia)) as B3.
  remember (q3 mod 256)%N as r3. remember (q3 / 256)%N as q4.
  clear Heqr0 Heqq1 Heqr1 Heqq2 Heqr2 Heqq3 Heqr3 Heqq4.
  lia.
Qed.

Lemma readUInt32_be32 (little : bool) (v : N) (rest : list byte) :
  (v < uint32_mod)%N ->
  readUInt32 little (mkIfstream (be32 v ++ rest) true)
  = Some (v, mkIfstream rest true).
Proof.
  intros Hv. unfold be32. cbn [app]. rewrite readUInt32_bytes.
  rewrite !to_N_byte_of. do 2 f_equal.
  change (256 ^ 2)%N with 65536%N. change (256 ^ 3)%N with 16777216%N.
  now apply digits_256.
Qed.

Lemma readArray_exact (data rest : list byte) :
  data <> [] ->
  (N.of_nat (length data) < 2 ^ 31)%N ->
  readArray (mkIfstream (data ++ rest) true) (N.of_nat (length data))
  = Some (data, mkIfstream rest true).
Proof.
  intros Hne Hlen. unfold readArray, to_int.
  rewrite (proj2 (N.ltb_lt _ _) Hlen). cbn [bind]. rewrite Nat2N.id.
  destruct (Nat.eqb_spec (length data) 0) as [E0|_].
  - destruct data; [congruence | discriminate].
  - unfold ifs_read. cbn [good content].
    rewrite (proj2 (Nat.leb_le _ _)) by (rewrite length_app; lia).
    rewrite (firstn_exact data rest _ eq_refl).
    rewrite (skipn_exact data rest _ eq_refl).
    now rewrite Nat.sub_diag, app_nil_r.
Qed.

(** X24. The constructor reads back a data set written in the layout it
    is written for, on a host of either byte order: from a label file
    (magic number, count, labels) and an image file (magic number, count,
    rows, columns, images of [rows * columns] bytes), with any magic
    numbers and any bytes after the data, it returns the labels, the
    images, the sizes and the count of the image file. *)
Theorem MNistDataSet_reads_back (little : bool) (magic1 magic2 rows cols : N)
  (labels : list byte) (images : list (list byte)) (more1 more2 : list byte) :
  (magic1 < uint32_mod)%N -> (magic2 < uint32_mod)%N ->
  (rows < uint32_mod)%N -> (cols < uint32_mod)%N ->
  labels <> [] ->
  (N.of_nat (length labels) < 2 ^ 31)%N ->
  (N.of_nat (length images) < 2 ^ 31)%N ->
  (0 < rows * cols < 2 ^ 31)%N ->
  Forall (fun image => N.of_nat (length image) = (rows * cols)%N) images ->
  MNistDataSet_new little
    (mkIfstream (image_file magic2 rows cols images ++ more2) true)
    (mkIfstream (label_file magic1 labels ++ more1) true)
  = Some (mkMNistDataSet (N.of_nat (length images)) rows cols images labels).
Proof.
  intros Hm1 Hm2 Hr Hc Hne Hnl Hni Hsize Hall.
  unfold MNistDataSet_new, label_file, image_file.
  rewrite <- !app_assoc.
  rewrite (readUInt32_be32 little magic1) by exact Hm1. cbn [bind].
  rewrite (readUInt32_be32 little (N.of_nat (length labels)))
    by (unfold uint32_mod; change (2 ^ 32)%N with 4294967296%N;
        change (2 ^ 31)%N with 2147483648%N in Hnl; lia).
  cbn [bind]. rewrite (readArray_exact labels more1 Hne Hnl). cbn [bind].
  rewrite (readUInt32_be32 little magic2) by exact Hm2. cbn [bind].
  rewrite (readUInt32_be32 little (N.of_nat (length images)))
    by (unfold uint32_mod; change (2 ^ 32)%N with 4294967296%N;
        change (2 ^ 31)%N with 2147483648%N in Hni; lia).
  cbn [bind].
  rewrite (readUInt32_be32 little rows) by exact Hr. cbn [bind].
  rewrite (readUInt32_be32 little cols) by exact Hc. cbn [bind].
  assert (Hmod : ((rows * cols) mod uint32_mod = rows * cols)%N).
  { apply N.mod_small. unfold uint32_mod.
    change (2 ^ 32)%N with 4294967296%N.
    change (2 ^ 31)%N with 2147483648%N in Hsize. lia. }
  rewrite Hmod, Nat2N.id.
  destruct (loop_inv
    (fun k (t : list (list byte) * ifstream) =>
       t = (firstn k images,
            mkIfstream (concat (skipn k images) ++ more2) true))
    (length images)
    (fun i '(images, ifsImage) =>
       '(image, ifsImage) <- readArray ifsImage (rows * cols)%N ;;
       Some (images ++ [image], ifsImage))
    ([], mkIfstream (concat images ++ more2) true)) as (t & E & ->).
  - reflexivity.
  - intros k t Hk ->.
    destruct (nth_error images k) as [image|] eqn:Ek;
      [|apply nth_error_None in Ek; lia].
    assert (Hlen : N.of_nat (length image) = (rows * cols)%N).
    { rewrite Forall_forall in Hall. apply Hall.
      eapply nth_error_In; exact Ek. }
    assert (Esk : skipn k images = image :: skipn (Datatypes.S k) images).
    { clear - Ek. revert k Ek.
      induction images as [|x xs IH]; intros [|k] Ek; try discriminate.
      - simpl in Ek. now injection Ek as ->.
      - simpl in Ek. simpl. now apply IH. }
    assert (Efn : firstn (Datatypes.S k) images = firstn k images ++ [image]).
    { clear - Ek. revert k Ek.
      induction images as [|x xs IH]; intros [|k] Ek; try discriminate.
      - simpl in Ek. now injection Ek as ->.
      - simpl in Ek. simpl. f_equal. now apply IH. }
    rewrite Esk. cbn [concat]. rewrite <- app_assoc, <- Hlen.
    rewrite readArray_exact.
    + cbn [bind]. eexists. split; [reflexivity|]. now rewrite Efn.
    + intros ->. simpl in Hlen. lia.
    + rewrite Hlen. lia.
  - rewrite E. cbn [bind]. rewrite firstn_all. reflexivity.
Qed.

End Reading.

(** ** mnist.cpp: the vectors handed to the network *)

Section DataSetVectors.
Local Open Scope R_scope.

Lemma byte_to_double_range (b : byte) : 0 <= byte_to_double b / 256 < 1.
Proof.
  unfold byte_to_double. pose proof (Byte.to_N_bounded b) as Hb.
  assert (H0 : 0 <= IZR (Z.of_N (Byte.to_N b))) by (apply IZR_le; lia).
  assert (H1 : IZR (Z.of_N (Byte.to_N b)) <= 255) by (apply IZR_le; lia).
  lra.
Qed.

Lemma getImageDouble_returns (set : MNistDataSet) (i : nat)
  (image : list byte) :
  vget (_images set) i = Some image ->
  (N.to_nat ((_numRows set * _numColumns set) mod uint32_mod)
   <= length image)%nat ->
  exists v,
    getImageDouble set i = Some v /\
    length v = N.to_nat ((_numRows set * _numColumns set) mod uint32_mod).
Proof.
  intros Ei Hlen.
  set (size := N.to_nat ((_numRows set * _numColumns set) mod uint32_mod))
    in *.
  destruct (loop_inv (fun _ (v : list R) => length v = size) size
    (fun p imageDouble =>
       image <- vget (_images set) i ;;
       b <- vget image p ;;
       vset imageDouble p (byte_to_double b / 256)) (repeat 0 size))
    as (v & E & Hl).
  - apply repeat_length.
  - intros p t Hp Hlt. rewrite Ei. cbn [bind].
    rewrite (vget_nth image p x00) by lia. cbn [bind].
    rewrite vset_some by lia.
    eexists. split; [reflexivity|]. now rewrite replace_nth_length.
  - exists v. split; [exact E | exact Hl].
Qed.

Lemma getLabelDouble_returns (set : MNistDataSet) (i : nat) (label : byte) :
  vget (_labels set) i = Some label ->
  (Byte.to_N label < 10)%N ->
  exists v, getLabelDouble set i = Some v /\ length v = 10%nat.
Proof.
  intros El Hl. unfold getLabelDouble. rewrite El. cbn [bind].
  rewrite vset_some by (rewrite repeat_length; lia).
  eexists. split; [reflexivity|].
  now rewrite replace_nth_length, repeat_length.
Qed.

(** X25. When image [i] exists and has the [rows * columns] bytes the data
    set announces, [getImageDouble] returns a vector of that many numbers,
    the byte of each pixel divided by 256: every entry is at least 0 and
    below 1. *)
Theorem getImageDouble_normalised (set : MNistDataSet) (i : nat)
  (image : list byte) :
  vget (_images set) i = Some image ->
  (N.to_nat ((_numRows set * _numColumns set) mod uint32_mod)
   <= length image)%nat ->
  exists v,
    getImageDouble set i = Some v /\
    length v = N.to_nat ((_numRows set * _numColumns set) mod uint32_mod) /\
    forall p, (p < length v)%nat ->
      exists b x, vget image p = Some b /\ vget v p = Some x /\
                  x = byte_to_double b / 256 /\ 0 <= x < 1.
Proof.
  intros Ei Hlen.
  set (size := N.to_nat ((_numRows set * _numColumns set) mod uint32_mod))
    in *.
  destruct (sweep1 (St := list R) vget (fun v => length v = size)
    (fun p _ => byte_to_double (nth p image x00) / 256) size
    (fun p imageDouble =>
       image <- vget (_images set) i ;;
       b <- vget image p ;;
       vset imageDouble p (byte_to_double b / 256)))
    with (s := repeat 0 size) as (v & E & Hl & Hrd).
  - intros p t c Hp Hlt Ec. rewrite Ei. cbn [bind].
    rewrite (vget_nth image p x00) by lia. cbn [bind].
    rewrite vset_some by lia.
    eexists. split; [reflexivity|]. split; [|split].
    + now rewrite replace_nth_length.
    + apply replace_nth_same. lia.
    + intros k Hk. now apply replace_nth_other.
  - apply repeat_length.
  - intros p Hp. rewrite (vget_nth _ p 0); [discriminate|].
    now rewrite repeat_length.
  - exists v. split; [exact E|]. split; [exact Hl|].
    intros p Hp. rewrite Hl in Hp.
    exists (nth p image x00), (byte_to_double (nth p image x00) / 256).
    split; [apply vget_nth; lia|]. split.
    + rewrite Hrd, (proj2 (Nat.ltb_lt p size) Hp).
      rewrite (vget_nth _ p 0) by (now rewrite repeat_length). reflexivity.
    + split; [reflexivity | apply byte_to_double_range].
Qed.

(** X26. [getLabelDouble] returns the one-hot vector of the label when the
    label is below 10: ten entries, 1 at the index of the label and 0
    elsewhere.  For a label of 10 or more, or an index with no label, it
    writes or reads out of bounds. *)
Theorem getLabelDouble_one_hot (set : MNistDataSet) (i : nat) :
  (forall label,
     getLabel set i = Some label ->
     (Byte.to_N label < 10)%N ->
     exists v,
       getLabelDouble set i = Some v /\
       length v = 10%nat /\
       vget v (N.to_nat (Byte.to_N label)) = Some 1 /\
       forall j, (j < 10)%nat -> j <> N.to_nat (Byte.to_N label) ->
         vget v j = Some 0) /\
  (forall label,
     getLabel set i = Some label ->
     (10 <= Byte.to_N label)%N ->
     getLabelDouble set i = None) /\
  (getLabel set i = None -> getLabelDouble set i = None).
Proof.
  unfold getLabel, getLabelDouble. split; [|split].
  - intros label El Hl. rewrite El. cbn [bind].
    rewrite vset_some by (rewrite repeat_length; lia).
    eexists. split; [reflexivity|]. split; [|split].
    + now rewrite replace_nth_length, repeat_length.
    + apply replace_nth_same. rewrite repeat_length. lia.
    + intros j Hj Hne. unfold vget. rewrite replace_nth_other by exact Hne.
      rewrite nth_error_repeat by exact Hj. reflexivity.
  - intros label El Hl. rewrite El. cbn [bind]. unfold vset.
    destruct (Nat.ltb_spec (N.to_nat (Byte.to_N label))
                (length (repeat 0 10))) as [Hlt|_]; [|reflexivity].
    rewrite repeat_length in Hlt. lia.
  - intros El. now rewrite El.
Qed.

End DataSetVectors.

(** ** classify_mnist.cpp: one epoch *)

Section EpochProofs.
Local Open Scope R_scope.

Lemma Network_forward_trained (input : list R) (net net' : Network R)
  (out : list R) :
  Network_forward input net = Some (out, net') ->
  map trained (_layers net') = map trained (_layers net) /\
  _verbose net' = _verbose net.
Proof.
  unfold Network_forward. intros E.
  apply bind_some in E as ([buffer layers] & Efe & E).
  injection E as _ <-. simpl. split; [|reflexivity].
  eapply for_each_keeps; [|exact Efe].
  intros a x a1 x' Ef.
  destruct (forward_keeps _ _ _ _ Ef) as (_ & _ & Hw & Hg & Hc & _).
  unfold trained. congruence.
Qed.

Lemma calcLoss_same_net (target : list R) (net net' : Network R) (loss : R) :
  calcLoss target net = Some (loss, net') -> net' = net.
Proof.
  unfold calcLoss. intros E. apply bind_some in E as (x & _ & E).
  now injection E as _ <-.
Qed.

(** X27. An epoch run with [train = false], when it returns, has left the
    weights, the accumulators and the sample counts of every layer as they
    were, and has written nothing. *)
Theorem runEpoch_test_changes_nothing (net : Network R)
  (set : MNistDataSet) (learningRate : R) (batchSize : Z) :
  match runEpoch net set false learningRate batchSize with
  | Some (_, net', printed) =>
      map trained (_layers net') = map trained (_layers net) /\
      _verbose net' = _verbose net /\
      printed = []
  | None => True
  end.
Proof.
  destruct (runEpoch net set false learningRate batchSize)
    as [[[result net'] printed]|] eqn:E; [|exact I].
  unfold runEpoch in E. apply bind_some in E as (e & Eloop & E).
  destruct (Z.eqb_spec (numCorrect e + numWrong e) 0); [discriminate|].
  injection E as _ <- <-.
  apply (loop_keeps (fun e =>
    map trained (_layers (e_net e)) = map trained (_layers net) /\
    _verbose (e_net e) = _verbose net /\ cout e = [])) in Eloop;
    [exact Eloop | | simpl; auto].
  intros i t t' Ei (Ht & Hv & Hc). unfold runSample in Ei.
  apply bind_some in Ei as (input & _ & Ei).
  apply bind_some in Ei as ([out net1] & Ef & Ei).
  apply bind_some in Ei as (label & _ & Ei).
  apply bind_some in Ei as (oneHot & _ & Ei).
  apply bind_some in Ei as ([loss net2] & El & Ei).
  injection Ei as <-. simpl.
  apply calcLoss_same_net in El as ->.
  destruct (Network_forward_trained _ _ _ _ Ef) as [Ht1 Hv1].
  repeat split; congruence.
Qed.

Lemma net_fits_sizes (set : MNistDataSet) (ls ls' : list (Layer R)) :
  net_fits set ls ->
  Forall layer_wf ls' ->
  map (@_inSize R) ls' = map (@_inSize R) ls ->
  map (@_outSize R) ls' = map (@_outSize R) ls ->
  net_fits set ls'.
Proof.
  intros (Hwf & Hch & (first & rest & -> & Hin) & (front & lastLayer & E & Hout))
    Hwf' Hi Ho.
  split; [exact Hwf'|]. split; [now apply (chained_sizes (first :: rest))|].
  split.
  - destruct ls' as [|first' rest']; [discriminate|].
    exists first', rest'. split; [reflexivity|].
    simpl in Hi. injection Hi as Hi _. congruence.
  - destruct (exists_last (l := ls')) as (front' & last' & E').
    { intros ->. discriminate. }
    exists front', last'. split; [exact E'|].
    rewrite E', E in Ho. apply map_snoc_last in Ho. congruence.
Qed.

Lemma runSample_returns (set : MNistDataSet) (train : bool)
  (learningRate : R) (batchSize : Z) (sample : nat) (e : Epoch) :
  dataset_ok set ->
  (sample < N.to_nat (_numImages set))%nat ->
  (1 <= batchSize < 2 ^ 31)%Z ->
  net_fits set (_layers (e_net e)) ->
  exists e',
    runSample set train learningRate batchSize sample e = Some e' /\
    net_fits set (_layers (e_net e')) /\
    (numCorrect e' + numWrong e' = numCorrect e + numWrong e + 1)%Z /\
    (numCorrect e <= numCorrect e')%Z /\ (numWrong e <= numWrong e')%Z /\
    (train = true ->
     N.of_nat sample = (_numImages set - 1)%N ->
     Forall (fun l => _sampleCount l = 0%N) (_layers (e_net e'))).
Proof.
  intros (Hn & Hli & Hll & Himg & Hlab) Hs Hb Hfit.
  pose proof Hfit as
    (Hwf & Hch & (first & rest & Efirst & Hin) & (front & lastLayer & Elast & Hout)).
  destruct (vget_some (_images set) sample ltac:(lia)) as [image Ei].
  destruct (vget_some (_labels set) sample ltac:(lia)) as [label El].
  assert (Himage : (N.to_nat ((_numRows set * _numColumns set) mod uint32_mod)
                    <= length image)%nat).
  { rewrite Forall_forall in Himg. apply Himg. eapply nth_error_In; exact Ei. }
  assert (Hlabel : (Byte.to_N label < 10)%N).
  { rewrite Forall_forall in Hlab. apply Hlab. eapply nth_error_In; exact El. }
  destruct (getImageDouble_returns set sample image Ei Himage) as (input & Einput & Hlen).
  destruct (getLabelDouble_returns set sample label El Hlabel) as (oneHot & Ehot & Hhot).
  destruct (Network_forward_spec input (e_net e) Hwf Hch)
    as (out & net1 & E1 & _ & Hwf1 & Hch1 & _).
  { rewrite Efirst. simpl. lia. }
  destruct (Network_forward_sizes _ _ _ _ E1) as [Hin1 Hos1].
  pose proof (net_fits_sizes set _ _ Hfit Hwf1 Hin1 Hos1) as Hfit1.
  destruct Hfit1 as (_ & _ & _ & (front1 & last1 & Elast1 & Hout1)).
  assert (Hwfl1 : layer_wf last1).
  { rewrite Elast1 in Hwf1. apply Forall_app in Hwf1 as [_ Hl].
    now inversion Hl. }
  destruct (calcLoss_returns oneHot net1 front1 last1 Elast1) as [loss E2].
  { destruct Hwfl1 as (_ & _ & _ & _ & Ho). lia. }
  unfold runSample. rewrite Einput. cbn [bind]. rewrite E1. cbn [bind].
  unfold getLabel. rewrite El. cbn [bind]. rewrite Ehot. cbn [bind].
  rewrite E2. cbn [bind].
  destruct train.
  - destruct (backward_calls oneHot net1 front1 last1 Elast1 Hwf1 Hch1)
      as (dlast & deltas & layers2 & E3 & _ & _ & Hcalls & Hlens); [lia|].
    destruct (backprop_calls_keeps _ _ _ _ Hcalls Hwf1 Hlens) as [Hsame Hwf2].
    destruct (same_but_gradient_sizes _ _ Hsame) as [Hin2 Hos2].
    rewrite E3. cbn [bind].
    assert (Hdiv : (batchSize mod 2 ^ 32 = batchSize)%Z).
    { apply Z.mod_small. change (2 ^ 31)%Z with 2147483648%Z in Hb.
      change (2 ^ 32)%Z with 4294967296%Z. lia. }
    rewrite Hdiv. destruct (Z.eqb_spec batchSize 0) as [E0|_]; [lia|].
    assert (Hlastsample :
      ((getNumImages set + uint32_mod - 1) mod uint32_mod
       = _numImages set - 1)%N).
    { unfold getNumImages, uint32_mod.
      change (2 ^ 31)%N with 2147483648%N in Hn.
      change (2 ^ 32)%N with 4294967296%N.
      replace (_numImages set + 4294967296 - 1)%N
        with ((_numImages set - 1) + 1 * 4294967296)%N by lia.
      rewrite N.Div0.mod_add. apply N.mod_small. lia. }
    rewrite Hlastsample.
    assert (Hfit2 : net_fits set layers2).
    { apply (net_fits_sizes set (_layers (e_net e))); auto; congruence. }
    destruct ((Z.of_nat sample mod batchSize =? 0)%Z
              || (N.of_nat sample =? _numImages set - 1)%N)%bool eqn:Eupd.
    + destruct (Network_updateParam_spec learningRate
                  (mkNetwork (_verbose net1) layers2) Hwf2)
        as (net3 & E4 & _ & Hwf3 & Hc3 & Hin3 & Hos3).
      rewrite E4. cbn [bind]. simpl in Hin3, Hos3.
      eexists. split; [reflexivity|]. simpl.
      split; [apply (net_fits_sizes set layers2); auto|].
      split; [destruct (Byte.eqb _ _); lia|].
      split; [destruct (Byte.eqb _ _); lia|].
      split; [destruct (Byte.eqb _ _); lia|]. auto.
    + eexists. split; [reflexivity|]. simpl.
      split; [exact Hfit2|].
      split; [destruct (Byte.eqb _ _); lia|].
      split; [destruct (Byte.eqb _ _); lia|].
      split; [destruct (Byte.eqb _ _); lia|].
      intros _ Hlast. apply Bool.orb_false_iff in Eupd as [_ Eupd].
      apply N.eqb_neq in Eupd. contradiction.
  - eexists. split; [reflexivity|]. simpl.
    split; [apply (net_fits_sizes set (_layers (e_net e))); auto|].
    split; [destruct (Byte.eqb _ _); lia|].
    split; [destruct (Byte.eqb _ _); lia|].
    split; [destruct (Byte.eqb _ _); lia|]. discriminate.
Qed.

(** X28. On a data set that holds what its sizes announce (at least one
    image, labels below 10) and a network that takes its image vectors and
    returns ten numbers, [runEpoch] with a batch size from 1 to [2^31 - 1]
    returns, in either mode.  The error rate it returns lies between 0 and
    1; the network still fits the data set, so the next epoch is defined
    too; and after a training epoch no layer has a sample left counted:
    the last sample always triggers [updateParam]. *)
Theorem runEpoch_returns (net : Network R) (set : MNistDataSet)
  (train : bool) (learningRate : R) (batchSize : Z) :
  dataset_ok set ->
  (1 <= _numImages set)%N ->
  (1 <= batchSize < 2 ^ 31)%Z ->
  net_fits set (_layers net) ->
  exists meanLoss errorRate net' printed,
    runEpoch net set train learningRate batchSize
    = Some ((meanLoss, errorRate), net', printed) /\
    0 <= errorRate <= 1 /\
    net_fits set (_layers net') /\
    (train = true -> Forall (fun l => _sampleCount l = 0%N) (_layers net')).
Proof.
  intros Hset Hn Hb Hfit.
  set (n := N.to_nat (_numImages set)).
  destruct (loop_inv
    (fun k e =>
       net_fits set (_layers (e_net e)) /\
       (numCorrect e + numWrong e = Z.of_nat k)%Z /\
       (0 <= numCorrect e)%Z /\ (0 <= numWrong e)%Z /\
       (train = true -> k = n ->
        Forall (fun l => _sampleCount l = 0%N) (_layers (e_net e))))
    n (runSample set train learningRate batchSize)
    (mkEpoch net 0%Z 0%Z 0 0 0%Z [])) as (e & E & Hfit' & Hsum & Hc & Hw & Hzero).
  - cbn [e_net numCorrect numWrong].
    split; [exact Hfit|]. split; [reflexivity|]. split; [lia|].
    split; [lia|]. intros _ Hk. unfold n in Hk. lia.
  - intros k t Hk (Hfitt & Hsumt & Hct & Hwt & _).
    destruct (runSample_returns set train learningRate batchSize k t
                Hset Hk Hb Hfitt) as (t' & Et & Hfitt' & Hsum' & Hc' & Hw' & Hz').
    exists t'. split; [exact Et|]. split; [exact Hfitt'|].
    split; [lia|]. split; [lia|]. split; [lia|].
    intros Htrain Hlast. apply Hz'; [exact Htrain|]. unfold n in Hlast. lia.
  - unfold runEpoch, getNumImages. fold n. rewrite E. cbn [bind].
    rewrite Hsum.
    destruct (Z.eqb_spec (Z.of_nat n) 0) as [E0|_]; [unfold n in E0; lia|].
    do 4 eexists. split; [reflexivity|].
    split; [|split; [exact Hfit' | intros Ht; now apply Hzero]].
    assert (Hpos : 0 < IZR (Z.of_nat n)) by (apply IZR_lt; unfold n; lia).
    assert (H0 : 0 <= IZR (numWrong e)) by (apply IZR_le; lia).
    assert (H1 : IZR (numWrong e) <= IZR (Z.of_nat n)) by (apply IZR_le; lia).
    split.
    + apply Rmult_le_pos; [exact H0|]. left. now apply Rinv_0_lt_compat.
    + apply Rmult_le_reg_r with (r := IZR (Z.of_nat n)); [exact Hpos|].
      unfold Rdiv. rewrite Rmult_assoc, Rinv_l; lra.
Qed.

(** X29. The network [main] builds fits the data set it is built for,
    whatever its sizes and the numbers drawn: its first layer takes the
    image vectors of [getImageDouble], its last layer returns ten numbers,
    the layers are well-shaped and chained, and no sample is counted. *)
Theorem main_network_fits (set : MNistDataSet) (rg1 rg2 : RandomGenerator R) :
  exists net,
    main_network set rg1 rg2 = Some net /\
    net_fits set (_layers net) /\
    length (_layers net) = 2%nat /\
    Forall (fun l => _sampleCount l = 0%N) (_layers net) /\
    _verbose net = false.
Proof.
  set (size := N.to_nat ((_numRows set * _numColumns set) mod uint32_mod)).
  destruct (Layer_new_entries size 300 RELU rg1) as (w1 & E1 & Hw1 & _).
  destruct (Layer_new_entries 300 10 SOFTMAX rg2) as (w2 & E2 & Hw2 & _).
  match type of E1 with _ = Some ?x => set (layer1 := x) in * end.
  match type of E2 with _ = Some ?x => set (layer2 := x) in * end.
  exists (mkNetwork false [layer1; layer2]).
  split.
  - unfold main_network, getNumRows, getNumColumns. fold size.
    rewrite E1. cbn [bind]. unfold addLayer, Network_new. cbn [bind].
    rewrite E2. reflexivity.
  - assert (Hwf1 : layer_wf layer1).
    { unfold layer_wf, layer1. cbn [_inSize _outSize _w _w_grad _input _u _output].
      rewrite !repeat_length.
      split; [exact Hw1|]. split; [apply shape_repeat|]. auto. }
    assert (Hwf2 : layer_wf layer2).
    { unfold layer_wf, layer2. cbn [_inSize _outSize _w _w_grad _input _u _output].
      rewrite !repeat_length.
      split; [exact Hw2|]. split; [apply shape_repeat|]. auto. }
    cbn [_layers _verbose].
    split; [|split; [reflexivity | split; [|reflexivity]]].
    + split; [exact (Forall_cons _ Hwf1 (Forall_cons _ Hwf2 (Forall_nil _)))|].
      split; [cbn [chained]; split; [reflexivity | split; exact I]|].
      split.
      * exists layer1, [layer2]. split; reflexivity.
      * exists [layer1], layer2. split; reflexivity.
    + apply Forall_cons; [reflexivity|].
      apply Forall_cons; [reflexivity | apply Forall_nil].
Qed.

End EpochProofs.

(** ** The loss and the delta of the output layer *)

Section LossGradient.
Local Open Scope R_scope.

Lemma sum_seq_plus (f g : nat -> R) (n : nat) :
  accumulate (map (fun i => f i + g i) (seq 0 n))
  = accumulate (map f (seq 0 n)) + accumulate (map g (seq 0 n)).
Proof.
  induction n as [|n IH].
  - simpl. rewrite accumulate_nil. lra.
  - rewrite !accumulate_seq_S, IH. simpl. lra.
Qed.

Lemma sum_seq_scale (f : nat -> R) (c : R) (n : nat) :
  accumulate (map (fun i => f i * c) (seq 0 n))
  = accumulate (map f (seq 0 n)) * c.
Proof.
  induction n as [|n IH].
  - simpl. rewrite accumulate_nil. lra.
  - rewrite !accumulate_seq_S, IH. simpl. lra.
Qed.

Lemma sum_seq_ext (f g : nat -> R) (n : nat) :
  (forall i, (i < n)%nat -> f i = g i) ->
  accumulate (map f (seq 0 n)) = accumulate (map g (seq 0 n)).
Proof.
  intros E. f_equal. apply map_ext_in. intros i Hi.
  apply in_seq in Hi. apply E. lia.
Qed.

Lemma sum_seq_vnth (v : list R) :
  accumulate (map (vnth v) (seq 0 (length v))) = accumulate v.
Proof.
  f_equal. apply vget_ext. intros k. unfold vget.
  rewrite nth_error_map.
  destruct (Nat.lt_ge_cases k (length v)) as [Hk|Hk].
  - rewrite nth_error_seq, (proj2 (Nat.ltb_lt _ _) Hk). simpl.
    symmetry. apply (vget_vnth v k Hk).
  - rewrite (proj2 (nth_error_None (seq 0 (length v)) k))
      by (rewrite length_seq; lia).
    simpl. symmetry. now apply nth_error_None.
Qed.

Lemma accumulate_replace (f : R -> R) (u : list R) (j : nat) (x : R) :
  (j < length u)%nat ->
  accumulate (map f (replace_nth u j x))
  = accumulate (map f u) + (f x - f (vnth u j)).
Proof.
  revert j. induction u as [|a u IH]; intros [|j] Hj; simpl in Hj; try lia.
  - simpl. rewrite !accumulate_cons. unfold vnth. simpl. lra.
  - simpl. rewrite !accumulate_cons, IH by lia. unfold vnth. simpl. lra.
Qed.

Lemma vnth_replace (u : list R) (j i : nat) (x : R) :
  (j < length u)%nat ->
  vnth (replace_nth u j x) i = if (i =? j)%nat then x else vnth u i.
Proof.
  intros Hj. unfold vnth.
  destruct (Nat.eqb_spec i j) as [->|Hne].
  - apply nth_error_nth. now apply replace_nth_same.
  - destruct (Nat.lt_ge_cases i (length u)) as [Hi|Hi].
    + apply nth_error_nth. rewrite replace_nth_other by exact Hne.
      now apply vget_nth.
    + rewrite !nth_overflow; [reflexivity | lia |].
      rewrite replace_nth_length. lia.
Qed.

Lemma cross_entropy_softmax (v target : list R) :
  length target = length v -> accumulate target = 1 -> v <> [] ->
  cross_entropy (softmax v) target
  = ln (accumulate (map exp v))
    - accumulate (map (fun i => vnth target i * vnth v i)
                      (seq 0 (length target))).
Proof.
  intros Hlen Hsum Hne. unfold cross_entropy.
  pose proof (exp_sum_pos v Hne) as Hs.
  rewrite (sum_seq_ext _
    (fun i => vnth target i * vnth v i
              + vnth target i * (- ln (accumulate (map exp v))))).
  - rewrite sum_seq_plus, sum_seq_scale, Hlen.
    rewrite <- Hlen at 2. rewrite sum_seq_vnth, Hsum. lra.
  - intros i Hi. rewrite Hlen in Hi.
    assert (E : vnth (softmax v) i
                = exp (vnth v i) / accumulate (map exp v)).
    { pose proof (softmax_entry v i (vnth v i) (vget_vnth v i Hi)) as Es.
      unfold vnth at 1. apply nth_error_nth. exact Es. }
    rewrite E. unfold Rdiv.
    rewrite ln_mult, ln_Rinv, ln_exp;
      [lra | exact Hs | apply exp_pos | now apply Rinv_0_lt_compat].
Qed.

Lemma cross_entropy_derivative (u target : list R) (j : nat) :
  length target = length u ->
  accumulate target = 1 ->
  (j < length u)%nat ->
  derivable_pt_lim
    (fun x => cross_entropy (softmax (replace_nth u j x)) target)
    (vnth u j)
    (vnth (softmax u) j - vnth target j).
Proof.
  intros Hlen Hsum Hj.
  assert (Hne : u <> []) by (intros ->; simpl in Hj; lia).
  pose proof (exp_sum_pos u Hne) as Hs.
  set (K := accumulate (map exp u) - exp (vnth u j)).
  set (D := accumulate (map (fun i => vnth target i * vnth u i)
                            (seq 0 (length target)))).
  assert (HK : 0 <= K).
  { unfold K.
    destruct (accumulate_bounds (map exp u) (exp (vnth u j))
                (exp_all_pos u)) as [Hle _]; [|lra].
    apply in_map. apply nth_In. exact Hj. }
  assert (Ej : vnth (softmax u) j = exp (vnth u j) / accumulate (map exp u)).
  { pose proof (softmax_entry u j (vnth u j) (vget_vnth u j Hj)) as Es.
    unfold vnth at 1. apply nth_error_nth. exact Es. }
  apply (derivable_pt_lim_ext
    ((comp ln (fct_cte K + exp))
     - (fct_cte D + mult_real_fct (vnth target j) (id - fct_cte (vnth u j))))%F).
  - intros x.
    rewrite cross_entropy_softmax;
      [| now rewrite replace_nth_length | exact Hsum
       | intros E; apply (f_equal (@length R)) in E;
         rewrite replace_nth_length in E; simpl in E; lia].
    rewrite (accumulate_replace exp u j x Hj).
    rewrite (sum_seq_ext _
      (fun i => vnth target i * vnth u i
                + (if (i =? j)%nat then vnth target j * (x - vnth u j) else 0))).
    + rewrite sum_seq_plus.
      rewrite (accumulate_single
        (fun i => if (i =? j)%nat then vnth target j * (x - vnth u j) else 0)
        j).
      * rewrite Hlen, (proj2 (Nat.ltb_lt _ _) Hj), Nat.eqb_refl.
        unfold comp, plus_fct, minus_fct, fct_cte, mult_real_fct, id, K, D.
        rewrite Hlen.
        replace (accumulate (map exp u) + (exp x - exp (vnth u j)))
          with (accumulate (map exp u) - exp (vnth u j) + exp x) by lra.
        lra.
      * intros i _ Hi. now rewrite (proj2 (Nat.eqb_neq i j) Hi).
    + intros i Hi. rewrite (vnth_replace u j i x Hj).
      destruct (Nat.eqb_spec i j) as [->|_]; lra.
  - replace (vnth (softmax u) j - vnth target j)
      with (/ ((fct_cte K + exp)%F (vnth u j)) * (0 + exp (vnth u j))
            - (0 + vnth target j * (1 - 0))).
    + apply derivable_pt_lim_minus.
      * apply derivable_pt_lim_comp.
        -- apply derivable_pt_lim_plus;
             [apply derivable_pt_lim_const | apply derivable_pt_lim_exp].
        -- apply derivable_pt_lim_ln. unfold plus_fct, fct_cte.
           pose proof (exp_pos (vnth u j)). lra.
      * apply derivable_pt_lim_plus; [apply derivable_pt_lim_const|].
        apply derivable_pt_lim_scal.
        apply derivable_pt_lim_minus;
          [apply derivable_pt_lim_id | apply derivable_pt_lim_const].
    + rewrite Ej. unfold plus_fct, fct_cte, K.
      replace (accumulate (map exp u) - exp (vnth u j) + exp (vnth u j))
        with (accumulate (map exp u)) by lra.
      field. lra.
Qed.

(** X30. The delta [backward] starts from is the gradient of the loss.
    Take a network whose last layer is a Softmax layer holding, as
    [forward] leaves it, [_output = softmax(_u)] with positive entries, and
    a target of the size of that output whose entries sum to 1.  Then
    [calcLoss] returns the cross-entropy of the target and the output, and
    [backward] returns after calling [updateGrad] on the last layer with
    the delta [dlast[j] = _output[j] - target[j]], and in real arithmetic
    [dlast[j]] is the derivative of that cross-entropy with respect to
    [_u[j]], for every [j]. *)
Theorem softmax_cross_entropy_gradient (target : list R) (net : Network R)
  (front : list (Layer R)) (lastLayer : Layer R) :
  _layers net = front ++ [lastLayer] ->
  Forall layer_wf (_layers net) ->
  chained (_layers net) ->
  _activation lastLayer = SOFTMAX ->
  _output lastLayer
  = activation (make_activation (_activation lastLayer)) (_u lastLayer) ->
  (forall i, (i < _outSize lastLayer)%nat -> 0 < vnth (_output lastLayer) i) ->
  length target = _outSize lastLayer ->
  accumulate target = 1 ->
  calcLoss target net
  = Some (cross_entropy (_output lastLayer) target, net) /\
  exists dlast deltas layers',
    backward target net
    = Some (lines (_verbose net) 0 deltas,
            mkNetwork (_verbose net) layers') /\
    backprop_calls dlast (_layers net) deltas layers' /\
    length dlast = _outSize lastLayer /\
    forall j, (j < _outSize lastLayer)%nat ->
      vget dlast j = Some (vnth (_output lastLayer) j - vnth target j) /\
      derivable_pt_lim
        (fun x =>
           cross_entropy
             (activation (make_activation SOFTMAX)
                (replace_nth (_u lastLayer) j x))
             target)
        (vnth (_u lastLayer) j)
        (vnth dlast j).
Proof.
  intros Hnet Hwf Hch Hact Hout _ Htarget Hsum.
  assert (Hlast : layer_wf lastLayer).
  { rewrite Hnet in Hwf. apply Forall_app in Hwf as [_ Hl].
    now inversion Hl. }
  destruct Hlast as (_ & _ & _ & Hu & Ho).
  split.
  - apply (calcLoss_sum target net front lastLayer Hnet). lia.
  - destruct (backward_calls target net front lastLayer Hnet Hwf Hch Htarget)
      as (dlast & deltas & layers' & E & Hld & Hvd & Hcalls & _).
    exists dlast, deltas, layers'.
    split; [exact E|]. split; [exact Hcalls|]. split; [lia|].
    intros j Hj. split; [apply Hvd; lia|].
    assert (Ed : vnth dlast j
                 = vnth (softmax (_u lastLayer)) j - vnth target j).
    { specialize (Hvd j ltac:(lia)).
      rewrite (vget_vnth dlast j) in Hvd by lia.
      injection Hvd as ->. rewrite Hout, Hact. reflexivity. }
    rewrite Ed. cbn [activation make_activation SoftmaxActivation].
    apply cross_entropy_derivative; [lia | exact Hsum | lia].
Qed.

End LossGradient.

(** ** The further properties on the samples *)

Section MoreRuns.
Local Open Scope R_scope.

Ltac more_shapes :=
  unfold layer_wf, shape; simpl; repeat split; repeat constructor.

Lemma relu_properties_witness :
  vget (gradient (make_activation RELU) [2; 0; -3]) 1 = Some 0 /\
  vget (activation (make_activation RELU) [2; 0; -3]) 2 = Some (0 * -3).
Proof.
  destruct (relu_properties [2; 0; -3]) as (_ & _ & _ & _ & H).
  split.
  - destruct (H 1%nat 0 eq_refl) as [Hg _]. rewrite Hg.
    destruct (Rlt_dec 0 0); [lra | reflexivity].
  - destruct (H 2%nat (-3) eq_refl) as [_ Ha]. rewrite Ha.
    destruct (Rlt_dec 0 (-3)); [lra | reflexivity].
Defined.

Lemma sigmoid_gradient_not_derivative_witness :
  gradient (make_activation SIGMOID) [0]
  <> [- (sigmoid 0 * (1 - sigmoid 0))].
Proof.
  destruct (sigmoid_gradient_not_derivative 0) as (Hd & _ & H).
  apply H. exact Hd.
Defined.

Lemma swishGradient_against_derivative_witness :
  derivable_pt_lim swish 0 (swishGradient 0).
Proof.
  destruct (swishGradient_against_derivative 0) as (_ & _ & H).
  apply H. reflexivity.
Defined.

Lemma relu_gradient_is_derivative_witness :
  exists g,
    gradient (make_activation RELU) [1] = [g] /\
    derivable_pt_lim (Rmax 0) 1 g.
Proof.
  destruct (relu_gradient_is_derivative 1) as (g & Eg & Hd & _); [lra|].
  exists g. split; assumption.
Defined.

Lemma Layer_new_weights_witness :
  exists l,
    Layer_new 1 2 SIGMOID halves = Some l /\
    mget (_w l) 1 1 = Some (1 / 2 / IZR (Z.of_N (N.of_nat (1 + 1)))).
Proof.
  destruct (Layer_new_weights 1 2 SIGMOID halves)
    as (l & E & _ & _ & _ & _ & _ & _ & _ & _ & _ & Hw).
  exists l. split; [exact E|]. apply (Hw 1%nat 1%nat); simpl; lia.
Defined.

Lemma Layer_new_weight_bounds_witness :
  exists l x,
    Layer_new 1 2 SIGMOID halves = Some l /\
    mget (_w l) 0 1 = Some x /\ 0 <= x < 1 / INR (1 + 1).
Proof.
  destruct (Layer_new_weight_bounds 1 2 SIGMOID halves) as (l & E & Hw).
  - intros n. simpl. lra.
  - destruct (Hw 0%nat 1%nat) as (x & Ex & Hx); [simpl; lia | simpl; lia |].
    exists l, x. auto.
Defined.

Lemma forward_repeatable_witness :
  exists out l',
    forward [5] sample_hidden = Some (out, l') /\
    forward [5] l' = Some (out, l').
Proof.
  destruct (@forward_repeatable R R_scalar [5]) as [_ H].
  do 2 eexists. split; [reflexivity|].
  apply (H sample_hidden). reflexivity.
Defined.

Lemma forward_short_input_witness : forward [] sample_hidden = None.
Proof. apply forward_short_input; simpl; lia. Defined.

Lemma minibatch_mean_witness :
  exists lb l',
    accumulate_batch [([5], [1; 2]); ([7], [3; 4])] sample_hidden = Some lb /\
    updateParam (1 / 10) lb = Some (tt, l') /\
    _sampleCount l' = 0%N.
Proof.
  destruct (minibatch_mean [([5], [1; 2]); ([7], [3; 4])] (1 / 10)
              sample_hidden) as (lb & l' & Eb & Eu & Hc & _).
  - more_shapes.
  - reflexivity.
  - intros i j Hi Hj. simpl in Hi, Hj.
    destruct i as [|[|i]]; destruct j as [|[|j]]; try lia; reflexivity.
  - repeat constructor.
  - discriminate.
  - reflexivity.
  - exists lb, l'. auto.
Defined.

Lemma Network_forward_shape_witness :
  exists out net',
    Network_forward [5] sample_net = Some (out, net') /\
    length out = 2%nat.
Proof.
  destruct (Network_forward_shape [5] sample_net)
    as (out & net' & E & Hl & _);
    [repeat constructor; more_shapes | simpl; auto | reflexivity |].
  exists out, net'. split; [exact E | exact Hl].
Defined.

Lemma forward_after_addLayer_witness :
  Network_forward [5] sample_net =
    ('(out, net') <- Network_forward [5]
                       (mkNetwork true [sample_hidden]) ;;
     '(out', layer') <- forward out sample_output ;;
     '(_, net'') <- addLayer layer' net' ;;
     Some (out', net'')).
Proof.
  apply (forward_after_addLayer [5] sample_output
           (mkNetwork true [sample_hidden]) sample_net).
  reflexivity.
Defined.

Lemma backward_keeps_forward_state_witness :
  exists out net',
    backward [1; 0] sample_net = Some (out, net') /\
    Forall2 same_but_gradient (_layers sample_net) (_layers net').
Proof.
  destruct (backward_keeps_forward_state [1; 0] sample_net
              [sample_hidden] sample_output)
    as (out & net' & E & _ & Hs & _);
    [reflexivity | repeat constructor; more_shapes | simpl; auto | reflexivity |].
  exists out, net'. split; assumption.
Defined.

Lemma Network_updateParam_resets_witness :
  exists net',
    Network_updateParam (1 / 10) sample_net = Some (tt, net') /\
    Network_updateParam (1 / 5) net' = Some (tt, net').
Proof.
  destruct (Network_updateParam_resets (1 / 10) (1 / 5) sample_net)
    as (net' & E & _ & _ & _ & _ & E2); [repeat constructor; more_shapes|].
  exists net'. split; assumption.
Defined.

Lemma training_step_witness :
  exists out net1 loss printed net2 net3,
    Network_forward [5] sample_net = Some (out, net1) /\
    calcLoss [1; 0] net1 = Some (loss, net1) /\
    backward [1; 0] net1 = Some (printed, net2) /\
    Network_updateParam (1 / 10) net2 = Some (tt, net3) /\
    Forall (fun l => _sampleCount l = 0%N) (_layers net3).
Proof.
  destruct (training_step [5] [1; 0] (1 / 10) sample_net
              [sample_hidden] sample_output)
    as (out & net1 & loss & printed & net2 & net3
        & E1 & E2 & E3 & E4 & _ & _ & _ & _ & _ & _ & Hc);
    [reflexivity | repeat constructor; more_shapes | simpl; auto | reflexivity
     | reflexivity |].
  exists out, net1, loss, printed, net2, net3. auto.
Defined.

Lemma backward_out_of_bounds_witness :
  backward [1; 0] (Network_new true) = None /\
  backward [1] sample_net = None.
Proof.
  split.
  - apply (proj1 (backward_out_of_bounds [1; 0] (Network_new true))).
    reflexivity.
  - apply (proj2 (backward_out_of_bounds [1] sample_net)
             [sample_hidden] sample_output); [reflexivity | simpl; lia].
Defined.

Lemma calcLoss_bounds_witness :
  calcLoss [] sample_net = Some (0, sample_net) /\
  calcLoss [1; 0] (Network_new true) = None /\
  calcLoss [1; 0; 0] sample_net = None.
Proof.
  split; [|split].
  - exact (proj1 (calcLoss_bounds [] sample_net) eq_refl).
  - apply (proj1 (proj2 (calcLoss_bounds [1; 0] (Network_new true))));
      [discriminate | reflexivity].
  - apply (proj2 (proj2 (calcLoss_bounds [1; 0; 0] sample_net))
             [sample_hidden] sample_output); [reflexivity | simpl; lia].
Defined.

Lemma calcLoss_one_hot_witness :
  exists out,
    Network_forward [5] sample_net = Some (out, sample_net_run) /\
    calcLoss [0; 1] sample_net_run
    = Some (- ln (vnth out 1), sample_net_run).
Proof.
  eexists. split; [reflexivity|].
  apply (calcLoss_one_hot [0; 1] 1 sample_net_run [sample_hidden_run]
           (nth 1 (_layers sample_net_run) sample_output));
    [reflexivity | simpl; lia | | simpl; lia | reflexivity |].
  - intros i Hi. apply (softmax_pos _ i). exact Hi.
  - intros i Hi Hne. simpl in Hi.
    destruct i as [|[|i]]; [reflexivity | congruence | lia].
Defined.

Lemma swapIfLittleEndian_reverses_witness :
  swapIfLittleEndian true [x01; x02; x03; x04; x05] 4
  = Some [x04; x03; x02; x01; x05].
Proof.
  apply (proj1 (swapIfLittleEndian_reverses true
                  [x01; x02; x03; x04; x05] 4 ltac:(simpl; lia))).
Defined.

Lemma readUInt32_big_endian_witness :
  readUInt32 true (mkIfstream [x00; x00; x08; x03; xff] true)
  = Some (2051%N, mkIfstream [xff] true) /\
  readUInt32 false (mkIfstream [x00; x00] true) = None.
Proof.
  split.
  - apply (proj1 (readUInt32_big_endian true
              (mkIfstream [x00; x00; x08; x03; xff] true))
             x00 x00 x08 x03 [xff] eq_refl).
  - apply (proj2 (readUInt32_big_endian false (mkIfstream [x00; x00] true))).
    right. simpl. lia.
Defined.

Lemma MNistDataSet_reads_back_witness :
  MNistDataSet_new true
    (mkIfstream (image_file 2051 1 2 [[x01; x02]; [x03; x04]] ++ [xff]) true)
    (mkIfstream (label_file 2049 [x03; x07] ++ []) true)
  = Some (mkMNistDataSet 2 1 2 [[x01; x02]; [x03; x04]] [x03; x07]).
Proof.
  apply (MNistDataSet_reads_back true 2049 2051 1 2 [x03; x07]
           [[x01; x02]; [x03; x04]] [] [xff]);
    try reflexivity; try discriminate.
  - split; reflexivity.
  - repeat constructor.
Defined.

Lemma getImageDouble_normalised_witness :
  exists v,
    getImageDouble sample_set 0 = Some v /\ length v = 1%nat.
Proof.
  destruct (getImageDouble_normalised sample_set 0 [x80])
    as (v & E & Hl & _); [reflexivity | simpl; lia |].
  exists v. split; [exact E | exact Hl].
Defined.

Lemma getLabelDouble_one_hot_witness :
  exists v,
    getLabelDouble sample_set 0 = Some v /\ vget v 3 = Some 1.
Proof.
  destruct (proj1 (getLabelDouble_one_hot sample_set 0) x03)
    as (v & E & _ & H1 & _); [reflexivity | reflexivity |].
  exists v. split; [exact E | exact H1].
Defined.

Lemma runEpoch_returns_witness :
  exists meanLoss errorRate net' printed,
    runEpoch sample_classifier sample_set true (1 / 5) 100
    = Some ((meanLoss, errorRate), net', printed) /\
    0 <= errorRate <= 1.
Proof.
  destruct (runEpoch_returns sample_classifier sample_set true (1 / 5) 100)
    as (m & r & net' & printed & E & Hr & _).
  - unfold dataset_ok. simpl. repeat split; try reflexivity;
      repeat constructor.
  - discriminate.
  - split; [discriminate | reflexivity].
  - unfold net_fits. simpl.
    split; [repeat constructor; more_shapes|]. split; [auto|]. split.
    + do 2 eexists. split; reflexivity.
    + exists []. eexists. split; reflexivity.
  - exists m, r, net', printed. split; assumption.
Defined.

Lemma softmax_cross_entropy_gradient_witness :
  exists out dlast deltas layers',
    Network_forward [5] sample_net = Some (out, sample_net_run) /\
    backward [1; 0] sample_net_run
    = Some (lines true 0 deltas, mkNetwork true layers') /\
    backprop_calls dlast (_layers sample_net_run) deltas layers' /\
    derivable_pt_lim
      (fun x =>
         cross_entropy
           (activation (make_activation SOFTMAX)
              (replace_nth
                 (_u (nth 1 (_layers sample_net_run) sample_output)) 0 x))
           [1; 0])
      (vnth (_u (nth 1 (_layers sample_net_run) sample_output)) 0)
      (vnth dlast 0).
Proof.
  destruct (softmax_cross_entropy_gradient [1; 0] sample_net_run
              [sample_hidden_run]
              (nth 1 (_layers sample_net_run) sample_output))
    as (_ & dlast & deltas & layers' & E & Hcalls & _ & Hd).
  - reflexivity.
  - repeat constructor; more_shapes.
  - simpl. auto.
  - reflexivity.
  - reflexivity.
  - intros i Hi. apply (softmax_pos _ i). exact Hi.
  - reflexivity.
  - unfold accumulate. simpl. lra.
  - eexists. exists dlast, deltas, layers'.
    split; [reflexivity|]. split; [exact E|]. split; [exact Hcalls|].
    apply (proj2 (Hd 0%nat ltac:(simpl; lia))).
Defined.

End MoreRuns.

(** ** The program at [double]: where it leaves real arithmetic

    The statements above that hold for every scalar type hold for [double].
    Those proved over the real numbers describe the formulas of the code;
    the following runs show what [double] does at the places where
    rounding, underflow and overflow show. *)

Section DoubleRuns.
Variables std_exp std_log : float -> float.
#[local] Hint Extern 0 (Scalar float) =>
  exact (double_scalar std_exp std_log) : typeclass_instances.
Local Open Scope float_scope.
#[local] Set Warnings "-inexact-float".

(** two numbers of type [double] that compare differently with a third
    are different *)
Lemma float_lt_neq (a b c : float) :
  PrimFloat.ltb a c = true -> PrimFloat.ltb b c = false -> a <> b.
Proof. intros Ha Hb E. rewrite E, Hb in Ha. discriminate. Qed.

(** X31. In [double] the mean of equal gradients is rounded.  The layer
    [Layer(0, 1, SIGMOID)] whose one weight was drawn as 0.5, after
    [forward] on the empty input: three calls of [updateGrad] with delta
    [0.1] and [updateParam(1.0)] leave the weight 0.39999999999999997, one
    call and [updateParam(1.0)] leave 0.4, whatever [std::exp] returns. *)
Theorem double_mean_is_rounded :
  exists l0 out l a b lN lN' l1 l1',
    Layer_new 0 1 SIGMOID (mkRandomGenerator (fun _ => 0.5) 0) = Some l0 /\
    forward [] l0 = Some (out, l) /\
    _w_grad l = [[0]] /\ _sampleCount l = 0%N /\
    updateGrad [0.1] l = Some (tt, a) /\
    updateGrad [0.1] a = Some (tt, b) /\
    updateGrad [0.1] b = Some (tt, lN) /\
    updateParam 1 lN = Some (tt, lN') /\
    updateGrad [0.1] l = Some (tt, l1) /\
    updateParam 1 l1 = Some (tt, l1') /\
    _w lN' = [[0.39999999999999997]] /\
    _w l1' = [[0.4]] /\
    _w lN' <> _w l1'.
Proof.
  do 9 eexists.
  do 12 (split; [vm_compute; reflexivity|]).
  intros E. apply (f_equal (fun m => nth 0 (nth 0 m []) 0)) in E.
  revert E. apply (float_lt_neq _ _ 0.4); vm_compute; reflexivity.
Qed.

(** X32. In [double] the Sigmoid of the code saturates.  At every [x]
    where [1 + exp(x)] rounds to 1 (every [x] below about -37) the
    activation returns exactly 1 and the gradient divides by
    [1 - 1 = 0]: it returns infinity.  At every [x] where [exp(x)]
    overflows (every [x] above about 709.8) the activation and the gradient
    return exactly 0. *)
Theorem double_sigmoid_saturates (x : float) :
  (1 + std_exp x = 1 ->
   activation (make_activation SIGMOID) [x] = [1] /\
   gradient (make_activation SIGMOID) [x] = [infinity]) /\
  (std_exp x = infinity ->
   activation (make_activation SIGMOID) [x] = [0] /\
   gradient (make_activation SIGMOID) [x] = [0]).
Proof.
  split; intros E.
  - cbn [activation gradient make_activation SigmoidActivation map].
    unfold sigmoid. cbn [s_one s_add s_sub s_div s_exp double_scalar].
    rewrite E. split; reflexivity.
  - cbn [activation gradient make_activation SigmoidActivation map].
    unfold sigmoid. cbn [s_one s_add s_sub s_div s_exp double_scalar].
    rewrite E. split; reflexivity.
Qed.

(** X33. In [double] Softmax leaves the open interval (0, 1).  When
    [exp(a) = 1] ([a = 0]) and [exp(b)] underflows to 0 (every [b] below
    about -745.2), the Softmax of [{a, b}] is exactly [{1, 0}]; when
    [exp(a)] overflows to infinity (every [a] above about 709.8) and
    [exp(b) = 1], it is [{NaN, 0}]. *)
Theorem double_softmax_saturates (a b : float) :
  (std_exp a = 1 -> std_exp b = 0 ->
   activation (make_activation SOFTMAX) [a; b] = [1; 0]) /\
  (std_exp a = infinity -> std_exp b = 1 ->
   activation (make_activation SOFTMAX) [a; b] = [nan; 0]).
Proof.
  split; intros Ea Eb;
    cbn [activation make_activation SoftmaxActivation];
    unfold softmax, accumulate;
    cbn [map fold_left s_zero s_add s_div s_exp double_scalar];
    rewrite Ea, Eb; reflexivity.
Qed.

(** X34. In [double] the loss is not finite at a zero output, as
    [std::log(0)] is minus infinity.  On a network whose last layer holds
    the output [{0, 1}], with [log(1) = 0]: [calcLoss] returns infinity
    for the target [{1, 0}], and NaN, from [0 * log(0)], for the target
    [{0, 1}], whose class has probability 1. *)
Theorem double_loss_not_finite (net : Network float)
  (front : list (Layer float)) (lastLayer : Layer float) :
  _layers net = front ++ [lastLayer] ->
  _output lastLayer = [0; 1] ->
  std_log 0 = neg_infinity ->
  std_log 1 = 0 ->
  calcLoss [1; 0] net = Some (infinity, net) /\
  calcLoss [0; 1] net = Some (nan, net).
Proof.
  intros Hnet Hout E0 E1.
  split.
  - rewrite (calcLoss_fold [1; 0] net front lastLayer Hnet)
      by (rewrite Hout; simpl; lia).
    rewrite Hout. cbn [length seq fold_left]. unfold vnth.
    cbn [nth s_zero s_sub s_mul s_log double_scalar].
    rewrite E0, E1. reflexivity.
  - rewrite (calcLoss_fold [0; 1] net front lastLayer Hnet)
      by (rewrite Hout; simpl; lia).
    rewrite Hout. cbn [length seq fold_left]. unfold vnth.
    cbn [nth s_zero s_sub s_mul s_log double_scalar].
    rewrite E0, E1. reflexivity.
Qed.

End DoubleRuns.

Section DoubleWitnesses.
Local Open Scope float_scope.

Lemma double_sigmoid_saturates_witness :
  @activation float
    (@make_activation float (double_scalar exp_sample log_sample) SIGMOID)
    [-40] = [1] /\
  @gradient float
    (@make_activation float (double_scalar exp_sample log_sample) SIGMOID)
    [800] = [0].
Proof.
  split.
  - apply (proj1 (double_sigmoid_saturates exp_sample log_sample (-40))).
    reflexivity.
  - apply (proj2 (double_sigmoid_saturates exp_sample log_sample 800)).
    reflexivity.
Defined.

Lemma double_softmax_saturates_witness :
  @activation float
    (@make_activation float (double_scalar exp_sample log_sample) SOFTMAX)
    [0; -800] = [1; 0] /\
  @activation float
    (@make_activation float (double_scalar exp_sample log_sample) SOFTMAX)
    [800; 0] = [nan; 0].
Proof.
  split.
  - apply (proj1 (double_softmax_saturates exp_sample log_sample 0 (-800)));
      reflexivity.
  - apply (proj2 (double_softmax_saturates exp_sample log_sample 800 0));
      reflexivity.
Defined.

Lemma double_loss_not_finite_witness :
  @calcLoss float (double_scalar exp_sample log_sample) [1; 0]
    (mkNetwork false [mkLayer 1 2 0%N [[0; 0]] [[0; 0]] [1] [-800; 0] [0; 1]
                        SOFTMAX])
  = Some (infinity,
          mkNetwork false [mkLayer 1 2 0%N [[0; 0]] [[0; 0]] [1] [-800; 0]
                             [0; 1] SOFTMAX]).
Proof.
  apply (proj1 (double_loss_not_finite exp_sample log_sample
                  (mkNetwork false
                     [mkLayer 1 2 0%N [[0; 0]] [[0; 0]] [1] [-800; 0] [0; 1]
                        SOFTMAX])
                  [] _ eq_refl eq_refl eq_refl eq_refl)).
Defined.

End DoubleWitnesses.
